(** * Object stacks (obstack.c): a shallow embedding and its properties

    The embedding follows the GNU C variants of the macros of obstack.h and
    the functions of obstack.c, on an LP64 host with interface version 2
    (sizes are [size_t], pointers are 64 bits wide, the header of a chunk
    takes 16 bytes).

    - A pointer or [size_t] value is a [Z] in [0, 2^64); every arithmetic
      operation of the source is followed by its wrap-around, [wrap].
    - The chunk headers [struct _obstack_chunk] live in a store that maps
      the address of an allocated chunk to its [limit] and [prev] fields.
      Reading a header that is not in the store has no defined behaviour:
      the outcome is [Undefined].
    - The bytes of the objects live in a second store, from addresses to
      8-bit values; a byte that was never written reads as 0.
    - The chunk allocator is supplied by the caller.  Its answers are an
      oracle: the list of pointers it returns on its successive calls (0 is
      the null pointer, which is also the answer once the list is used up).
      Every call of the allocation and of the free function is appended to
      a trace; the free function takes the header of its chunk out of the
      store.
    - [obstack_alloc_failed_handler] does not return: an operation that
      calls it ends with the outcome [AllocFailed], carrying the stack as
      it is when the handler is entered.  [abort ()] ends with [Aborted].

    The definitions come first: the functions of the source, then the
    predicates and the concrete states of the statements.  The properties
    follow, the general lemmas before the claims C1 to C10. *)

From stdpp Require Import gmap list.

Local Open Scope Z_scope.

(** ** Machine arithmetic *)

Definition size_bits : Z := 64.
Definition size_modulus : Z := 2 ^ size_bits.

(** Wrap-around of [size_t] and pointer arithmetic. *)
Definition wrap (z : Z) : Z := z mod size_modulus.

(** [~A] on a [size_t]. *)
Definition size_not (a : Z) : Z := wrap (Z.lnot a).

Definition in_range (z : Z) : Prop := 0 <= z < size_modulus.

Definition sizeof_ptrdiff_t : Z := 8.
Definition sizeof_void_p : Z := 8.
Definition sizeof_int : Z := 4.
Definition sizeof_long_double : Z := 16.
Definition sizeof_uintmax_t : Z := 8.
Definition alignof_long_double : Z := 16.
Definition alignof_uintmax_t : Z := 8.
Definition alignof_void_p : Z := 8.

Definition MAX (a b : Z) : Z := if b <? a then a else b.

Definition DEFAULT_ALIGNMENT : Z :=
  MAX alignof_long_double (MAX alignof_uintmax_t alignof_void_p).
Definition DEFAULT_ROUNDING : Z :=
  MAX sizeof_long_double (MAX sizeof_uintmax_t sizeof_void_p).

(** [__BPTR_ALIGN (B, P, A)]: [(B) + (((P) - (B) + (A)) & ~(A))]. *)
Definition __BPTR_ALIGN (B P A : Z) : Z :=
  wrap (B + Z.land (wrap (P - B + A)) (size_not A)).

(** [__PTR_ALIGN (B, P, A)]: relative to [B] only where [ptrdiff_t] is
    narrower than a pointer, relative to 0 otherwise. *)
Definition __PTR_ALIGN (B P A : Z) : Z :=
  __BPTR_ALIGN (if sizeof_ptrdiff_t <? sizeof_void_p then B else 0) P A.

(** ** Data *)

(** [struct _obstack_chunk], without its contents. *)
Record _obstack_chunk : Type := mk_chunk {
  limit : Z;   (* 1 past end of this chunk *)
  prev : Z     (* address of prior chunk or NULL *)
}.

(** Address of [c->contents] for the chunk at address [c]. *)
Definition contents (c : Z) : Z := wrap (c + 2 * sizeof_void_p).

(** [struct obstack].  The two function pointers are kept as addresses. *)
Record obstack : Type := mk_obstack {
  chunk_size : Z;
  chunk : Z;
  object_base : Z;
  next_free : Z;
  chunk_limit : Z;
  temp : Z;
  alignment_mask : Z;
  chunkfun : Z;
  freefun : Z;
  extra_arg : Z;
  use_extra_arg : bool;
  maybe_empty_object : bool;
  alloc_failed : bool
}.

Definition set_chunk_size (v : Z) (h : obstack) : obstack :=
  mk_obstack v (chunk h) (object_base h) (next_free h) (chunk_limit h)
    (temp h) (alignment_mask h) (chunkfun h) (freefun h) (extra_arg h)
    (use_extra_arg h) (maybe_empty_object h) (alloc_failed h).
Definition set_chunk (v : Z) (h : obstack) : obstack :=
  mk_obstack (chunk_size h) v (object_base h) (next_free h) (chunk_limit h)
    (temp h) (alignment_mask h) (chunkfun h) (freefun h) (extra_arg h)
    (use_extra_arg h) (maybe_empty_object h) (alloc_failed h).
Definition set_object_base (v : Z) (h : obstack) : obstack :=
  mk_obstack (chunk_size h) (chunk h) v (next_free h) (chunk_limit h)
    (temp h) (alignment_mask h) (chunkfun h) (freefun h) (extra_arg h)
    (use_extra_arg h) (maybe_empty_object h) (alloc_failed h).
Definition set_next_free (v : Z) (h : obstack) : obstack :=
  mk_obstack (chunk_size h) (chunk h) (object_base h) v (chunk_limit h)
    (temp h) (alignment_mask h) (chunkfun h) (freefun h) (extra_arg h)
    (use_extra_arg h) (maybe_empty_object h) (alloc_failed h).
Definition set_chunk_limit (v : Z) (h : obstack) : obstack :=
  mk_obstack (chunk_size h) (chunk h) (object_base h) (next_free h) v
    (temp h) (alignment_mask h) (chunkfun h) (freefun h) (extra_arg h)
    (use_extra_arg h) (maybe_empty_object h) (alloc_failed h).
Definition set_alignment_mask (v : Z) (h : obstack) : obstack :=
  mk_obstack (chunk_size h) (chunk h) (object_base h) (next_free h)
    (chunk_limit h) (temp h) v (chunkfun h) (freefun h) (extra_arg h)
    (use_extra_arg h) (maybe_empty_object h) (alloc_failed h).
Definition set_funs (cf ff arg : Z) (extra : bool) (h : obstack) : obstack :=
  mk_obstack (chunk_size h) (chunk h) (object_base h) (next_free h)
    (chunk_limit h) (temp h) (alignment_mask h) cf ff arg
    extra (maybe_empty_object h) (alloc_failed h).
Definition set_maybe_empty_object (v : bool) (h : obstack) : obstack :=
  mk_obstack (chunk_size h) (chunk h) (object_base h) (next_free h)
    (chunk_limit h) (temp h) (alignment_mask h) (chunkfun h) (freefun h)
    (extra_arg h) (use_extra_arg h) v (alloc_failed h).
Definition set_alloc_failed (v : bool) (h : obstack) : obstack :=
  mk_obstack (chunk_size h) (chunk h) (object_base h) (next_free h)
    (chunk_limit h) (temp h) (alignment_mask h) (chunkfun h) (freefun h)
    (extra_arg h) (use_extra_arg h) (maybe_empty_object h) v.

(** A call of one of the two caller-supplied functions.  [arg] is the extra
    first argument, present when the stack was set up with
    [_obstack_begin_1]. *)
Inductive event : Type :=
| EvAlloc (fn : Z) (arg : option Z) (size : Z) (ret : Z)
| EvFree (fn : Z) (arg : option Z) (ptr : Z).

(** The memory and the two caller-supplied functions.  The two fields of
    the header of a chunk are kept in [hdrs], apart from the data bytes
    in [mem], and a chunk that is handed to the free function loses its
    header while its bytes stay in [mem].  The embedding is faithful for
    the runs in which no data access falls on the header of a chunk or
    in a freed chunk; the theorems that depend on it state the
    conditions that exclude such accesses. *)
Record world : Type := mk_world {
  hdrs : gmap Z _obstack_chunk;   (* headers of the allocated chunks *)
  mem : gmap Z Z;                 (* data bytes *)
  oracle : list Z;                (* future answers of the allocator *)
  trace : list event              (* calls made so far, oldest first *)
}.

Inductive outcome (A : Type) : Type :=
| Return (a : A) (h : obstack) (w : world)
| AllocFailed (h : obstack) (w : world)
| Aborted (h : obstack) (w : world)
| Undefined.
Arguments Return {A} a h w.
Arguments AllocFailed {A} h w.
Arguments Aborted {A} h w.
Arguments Undefined {A}.

Definition bind {A B : Type} (m : outcome A)
    (k : A -> obstack -> world -> outcome B) : outcome B :=
  match m with
  | Return a h w => k a h w
  | AllocFailed h w => AllocFailed h w
  | Aborted h w => Aborted h w
  | Undefined => Undefined
  end.

(** ** Memory *)

Definition load_byte (m : gmap Z Z) (a : Z) : Z := default 0 (m !! a).

Fixpoint load_bytes (m : gmap Z Z) (a : Z) (n : nat) : list Z :=
  match n with
  | O => []
  | S n' => load_byte m a :: load_bytes m (wrap (a + 1)) n'
  end.

Fixpoint store_bytes (m : gmap Z Z) (a : Z) (bs : list Z) : gmap Z Z :=
  match bs with
  | [] => m
  | b :: bs' => store_bytes (<[a := b]> m) (wrap (a + 1)) bs'
  end.

Definition memcpy (dst src n : Z) (m : gmap Z Z) : gmap Z Z :=
  store_bytes m dst (load_bytes m src (Z.to_nat n)).

(** The [n] low bytes of [v], least significant first. *)
Fixpoint encode_le (n : nat) (v : Z) : list Z :=
  match n with
  | O => []
  | S n' => Z.land v 255 :: encode_le n' (Z.shiftr v 8)
  end.

Definition set_mem (m : gmap Z Z) (w : world) : world :=
  mk_world (hdrs w) m (oracle w) (trace w).
Definition set_hdrs (hs : gmap Z _obstack_chunk) (w : world) : world :=
  mk_world hs (mem w) (oracle w) (trace w).

(** Stores to one field of the header at [c]; the other field of a header
    that was not written before reads as 0. *)
Definition store_limit (c v : Z) (w : world) : world :=
  set_hdrs (<[c := mk_chunk v (prev (default (mk_chunk 0 0) (hdrs w !! c)))]>
              (hdrs w)) w.
Definition store_prev (c v : Z) (w : world) : world :=
  set_hdrs (<[c := mk_chunk (limit (default (mk_chunk 0 0) (hdrs w !! c))) v]>
              (hdrs w)) w.

(** ** Calls of the chunk functions *)

Definition call_arg (h : obstack) : option Z :=
  if use_extra_arg h then Some (extra_arg h) else None.

Definition call_chunkfun (h : obstack) (size : Z) (w : world) : Z * world :=
  let ret := hd 0 (oracle w) in
  (ret, mk_world (hdrs w) (mem w) (tl (oracle w))
          (trace w ++ [EvAlloc (chunkfun h) (call_arg h) size ret])).

Definition call_freefun (h : obstack) (old_chunk : Z) (w : world) : world :=
  mk_world (delete old_chunk (hdrs w)) (mem w) (oracle w)
    (trace w ++ [EvFree (freefun h) (call_arg h) old_chunk]).

(** ** Initialization *)

Definition default_extra : Z :=
  Z.land
    (Z.land (12 + DEFAULT_ROUNDING - 1) (Z.lnot (DEFAULT_ROUNDING - 1))
     + 4 + DEFAULT_ROUNDING - 1)
    (Z.lnot (DEFAULT_ROUNDING - 1)).

Definition _obstack_begin_worker (h : obstack) (size alignment : Z)
    (w : world) : outcome Z :=
  let alignment := if alignment =? 0 then DEFAULT_ALIGNMENT else alignment in
  let size := if size =? 0 then wrap (4096 - default_extra) else size in
  let h := set_chunk_size size h in
  let h := set_alignment_mask (wrap (alignment - 1)) h in
  let '(chunk, w) := call_chunkfun h (chunk_size h) w in
  if chunk =? 0 then AllocFailed h w else
  let h := set_chunk chunk h in
  let base := __PTR_ALIGN chunk (contents chunk) (wrap (alignment - 1)) in
  let h := set_next_free base (set_object_base base h) in
  let lim := wrap (chunk + chunk_size h) in
  let w := store_limit chunk lim w in
  let h := set_chunk_limit lim h in
  let w := store_prev chunk 0 w in
  let h := set_maybe_empty_object false h in
  let h := set_alloc_failed false h in
  Return 1 h w.

Definition _obstack_begin (h : obstack) (size alignment : Z)
    (chunkfun freefun : Z) (w : world) : outcome Z :=
  let h := set_funs chunkfun freefun (extra_arg h) false h in
  _obstack_begin_worker h size alignment w.

Definition _obstack_begin_1 (h : obstack) (size alignment : Z)
    (chunkfun freefun arg : Z) (w : world) : outcome Z :=
  let h := set_funs chunkfun freefun arg true h in
  _obstack_begin_worker h size alignment w.

(** ** Chunk migration *)

Definition _obstack_newchunk (h : obstack) (length : Z) (w : world)
    : outcome unit :=
  let old_chunk := chunk h in
  let obj_size := wrap (next_free h - object_base h) in
  (* Compute size for new chunk.  *)
  let sum1 := wrap (obj_size + length) in
  let sum2 := wrap (sum1 + alignment_mask h) in
  let new_size := wrap (sum2 + Z.shiftr obj_size 3 + 100) in
  let new_size := if new_size <? sum2 then sum2 else new_size in
  let new_size := if new_size <? chunk_size h then chunk_size h else new_size in
  (* Allocate and initialize the new chunk.  *)
  let '(new_chunk, w) :=
    if (obj_size <=? sum1) && (sum1 <=? sum2)
    then call_chunkfun h new_size w
    else (0, w) in
  if new_chunk =? 0 then AllocFailed h w else
  let h1 := set_chunk new_chunk h in
  let w := store_prev new_chunk old_chunk w in
  let lim := wrap (new_chunk + new_size) in
  let h1 := set_chunk_limit lim h1 in
  let w := store_limit new_chunk lim w in
  (* Compute an aligned object_base in the new chunk.  *)
  let base :=
    __PTR_ALIGN new_chunk (contents new_chunk) (alignment_mask h1) in
  (* Move the existing object to the new chunk.  *)
  let w := set_mem (memcpy base (object_base h1) obj_size (mem w)) w in
  (* If the object just copied was the only data in OLD_CHUNK, free that
     chunk and remove it from the chain.  But not if that chunk might
     contain an empty object.  *)
  let recycled :=
    if negb (maybe_empty_object h1)
       && (object_base h1
           =? __PTR_ALIGN old_chunk (contents old_chunk) (alignment_mask h1))
    then
      match hdrs w !! old_chunk with
      | None => None
      | Some oc =>
          Some (call_freefun h1 old_chunk (store_prev new_chunk (prev oc) w))
      end
    else Some w in
  match recycled with
  | None => Undefined
  | Some w =>
      let h1 := set_object_base base h1 in
      let h1 := set_next_free (wrap (object_base h1 + obj_size)) h1 in
      (* The new chunk certainly contains no empty object yet.  *)
      let h1 := set_maybe_empty_object false h1 in
      Return tt h1 w
  end.

(** ** Queries *)

Definition obstack_base (h : obstack) : Z := object_base h.
Definition obstack_next_free (h : obstack) : Z := next_free h.
Definition obstack_object_size (h : obstack) : Z :=
  wrap (next_free h - object_base h).
Definition obstack_room (h : obstack) : Z :=
  wrap (chunk_limit h - next_free h).

Definition obstack_empty_p (h : obstack) (w : world) : option bool :=
  match hdrs w !! chunk h with
  | None => None
  | Some c =>
      Some ((prev c =? 0)
            && (next_free h
                =? __PTR_ALIGN (chunk h) (contents (chunk h))
                     (alignment_mask h)))
  end.

(** The loop of [_obstack_allocated_p].  It reads the headers only; [None]
    stands for a run with no result: a header that is not allocated is
    read, or the [prev] links form a cycle, which [fuel], one per
    allocated header, detects. *)
Fixpoint allocated_loop (fuel : nat) (hs : gmap Z _obstack_chunk)
    (obj lp : Z) {struct fuel} : option Z :=
  if lp =? 0 then Some lp else
  match hs !! lp with
  | None => None
  | Some c =>
      if (obj <=? lp) || (limit c <? obj) then
        match fuel with
        | O => None
        | S fuel' => allocated_loop fuel' hs obj (prev c)
        end
      else Some lp
  end.

Definition _obstack_allocated_p (h : obstack) (obj : Z) (w : world)
    : option Z :=
  match allocated_loop (size (hdrs w)) (hdrs w) obj (chunk h) with
  | None => None
  | Some lp => Some (if lp =? 0 then 0 else 1)
  end.

Fixpoint memory_used_loop (fuel : nat) (hs : gmap Z _obstack_chunk)
    (lp nbytes : Z) {struct fuel} : option Z :=
  if lp =? 0 then Some nbytes else
  match hs !! lp, fuel with
  | Some c, S fuel' =>
      memory_used_loop fuel' hs (prev c) (wrap (nbytes + wrap (limit c - lp)))
  | _, _ => None
  end.

Definition _obstack_memory_used (h : obstack) (w : world) : option Z :=
  memory_used_loop (size (hdrs w)) (hdrs w) (chunk h) 0.

(** ** Growth *)

Definition obstack_1grow_fast (h : obstack) (achar : Z) (w : world)
    : outcome unit :=
  Return tt (set_next_free (wrap (next_free h + 1)) h)
    (set_mem (<[next_free h := Z.land achar 255]> (mem w)) w).

Definition obstack_blank_fast (h : obstack) (n : Z) (w : world)
    : outcome unit :=
  Return tt (set_next_free (wrap (next_free h + n)) h) w.

Definition obstack_ptr_grow_fast (h : obstack) (aptr : Z) (w : world)
    : outcome unit :=
  Return tt (set_next_free (wrap (next_free h + sizeof_void_p)) h)
    (set_mem (store_bytes (mem w) (next_free h)
                (encode_le (Z.to_nat sizeof_void_p) aptr)) w).

Definition obstack_int_grow_fast (h : obstack) (aint : Z) (w : world)
    : outcome unit :=
  Return tt (set_next_free (wrap (next_free h + sizeof_int)) h)
    (set_mem (store_bytes (mem w) (next_free h)
                (encode_le (Z.to_nat sizeof_int) aint)) w).

Definition obstack_make_room (h : obstack) (length : Z) (w : world)
    : outcome unit :=
  let len := wrap length in
  if obstack_room h <? len then _obstack_newchunk h len w
  else Return tt h w.

Definition obstack_grow (h : obstack) (where_ length : Z) (w : world)
    : outcome unit :=
  let len := wrap length in
  bind (if obstack_room h <? len then _obstack_newchunk h len w
        else Return tt h w)
    (fun _ h w =>
       let w := set_mem (memcpy (next_free h) where_ len (mem w)) w in
       Return tt (set_next_free (wrap (next_free h + len)) h) w).

Definition obstack_grow0 (h : obstack) (where_ length : Z) (w : world)
    : outcome unit :=
  let len := wrap length in
  bind (if obstack_room h <? wrap (len + 1)
        then _obstack_newchunk h (wrap (len + 1)) w
        else Return tt h w)
    (fun _ h w =>
       let w := set_mem (memcpy (next_free h) where_ len (mem w)) w in
       let h := set_next_free (wrap (next_free h + len)) h in
       let w := set_mem (<[next_free h := 0]> (mem w)) w in
       Return tt (set_next_free (wrap (next_free h + 1)) h) w).

Definition obstack_1grow (h : obstack) (datum : Z) (w : world)
    : outcome unit :=
  bind (if obstack_room h <? 1 then _obstack_newchunk h 1 w
        else Return tt h w)
    (fun _ h w => obstack_1grow_fast h datum w).

Definition obstack_ptr_grow (h : obstack) (datum : Z) (w : world)
    : outcome unit :=
  bind (if obstack_room h <? sizeof_void_p
        then _obstack_newchunk h sizeof_void_p w
        else Return tt h w)
    (fun _ h w => obstack_ptr_grow_fast h datum w).

Definition obstack_int_grow (h : obstack) (datum : Z) (w : world)
    : outcome unit :=
  bind (if obstack_room h <? sizeof_int
        then _obstack_newchunk h sizeof_int w
        else Return tt h w)
    (fun _ h w => obstack_int_grow_fast h datum w).

Definition obstack_blank (h : obstack) (length : Z) (w : world)
    : outcome unit :=
  let len := wrap length in
  bind (if obstack_room h <? len then _obstack_newchunk h len w
        else Return tt h w)
    (fun _ h w => obstack_blank_fast h len w).

(** ** Finalization *)

Definition obstack_finish (h : obstack) (w : world) : outcome Z :=
  let value := object_base h in
  let h :=
    if next_free h =? value then set_maybe_empty_object true h else h in
  let h :=
    set_next_free
      (__PTR_ALIGN (object_base h) (next_free h) (alignment_mask h)) h in
  let h :=
    if wrap (chunk_limit h - chunk h) <? wrap (next_free h - chunk h)
    then set_next_free (chunk_limit h) h
    else h in
  let h := set_object_base (next_free h) h in
  Return value h w.

Definition obstack_alloc (h : obstack) (length : Z) (w : world) : outcome Z :=
  bind (obstack_blank h length w) (fun _ h w => obstack_finish h w).

Definition obstack_copy (h : obstack) (where_ length : Z) (w : world)
    : outcome Z :=
  bind (obstack_grow h where_ length w) (fun _ h w => obstack_finish h w).

Definition obstack_copy0 (h : obstack) (where_ length : Z) (w : world)
    : outcome Z :=
  bind (obstack_grow0 h where_ length w) (fun _ h w => obstack_finish h w).

(** ** Bulk free *)

(** The loop of [_obstack_free]; it returns the value of [lp] at its exit.
    Every iteration frees an allocated chunk, so that [fuel], one per
    allocated header, is never used up ([free_loop_fuel] below): [None] is
    not a behaviour of the source. *)
Fixpoint free_loop (fuel : nat) (h : obstack) (obj lp : Z) (w : world)
    {struct fuel} : option (outcome Z) :=
  if lp =? 0 then Some (Return lp h w) else
  match hdrs w !! lp with
  | None => Some Undefined
  | Some c =>
      if (obj <=? lp) || (limit c <? obj) then
        match fuel with
        | O => None
        | S fuel' =>
            let plp := prev c in
            let w := call_freefun h lp w in
            (* If we switch chunks, we can't tell whether the new current
               chunk contains an empty object, so assume that it may.  *)
            free_loop fuel' (set_maybe_empty_object true h) obj plp w
        end
      else Some (Return lp h w)
  end.

Definition _obstack_free (h : obstack) (obj : Z) (w : world) : outcome unit :=
  match free_loop (size (hdrs w)) h obj (chunk h) w with
  | None => Undefined
  | Some o =>
      bind o (fun lp h w =>
        if lp =? 0 then
          if obj =? 0 then Return tt h w
          else (* obj is not in any of the chunks! *) Aborted h w
        else
          match hdrs w !! lp with
          | None => Undefined
          | Some c =>
              let h := set_next_free obj (set_object_base obj h) in
              let h := set_chunk_limit (limit c) h in
              Return tt (set_chunk lp h) w
          end)
  end.

(** The macro [obstack_free] of obstack.h. *)
Definition obstack_free (h : obstack) (obj : Z) (w : world) : outcome unit :=
  if (chunk h <? obj) && (obj <? chunk_limit h)
  then Return tt (set_next_free obj (set_object_base obj h)) w
  else _obstack_free h obj w.

(** ** Predicates on states *)

(** [chain m lp cs]: following the [prev] links from [lp] visits the
    allocated chunks [cs], newest first, and ends at the null pointer. *)
Inductive chain (m : gmap Z _obstack_chunk) : Z -> list Z -> Prop :=
| chain_null : chain m 0 []
| chain_link lp c cs :
    lp <> 0 -> m !! lp = Some c -> chain m (prev c) cs ->
    chain m lp (lp :: cs).

(** [obj] is inside the chunk at [lp] with header [c], by the test of the
    loops of [_obstack_free] and [_obstack_allocated_p]. *)
Definition inside (obj lp : Z) (c : _obstack_chunk) : Prop :=
  lp < obj <= limit c.

(** The ordering of the three cursors. *)
Definition ordered (h : obstack) : Prop :=
  object_base h <= next_free h <= chunk_limit h.

(** [a] is a multiple of the alignment of [h]. *)
Definition aligned (h : obstack) (a : Z) : Prop :=
  a mod (alignment_mask h + 1) = 0.

(** A mask of [k] low bits: the alignment is [2 ^ k]. *)
Definition is_mask (a : Z) : Prop :=
  exists k, 0 <= k < size_bits /\ a = Z.ones k.

(** The invariants at rest that concern the current chunk: its header is
    allocated and [chunk_limit] caches its [limit], the growing object
    starts at or after the contents of the chunk, and the cursors are
    ordered. *)
Definition resting (h : obstack) (w : world) : Prop :=
  (exists c, hdrs w !! chunk h = Some c /\ chunk_limit h = limit c)
  /\ contents (chunk h) <= object_base h
  /\ ordered h.

(** The size that [_obstack_newchunk] asks of the allocator, and the test
    that decides whether the old chunk is unlinked and freed. *)
Definition newchunk_size (h : obstack) (length : Z) : Z :=
  let obj_size := wrap (next_free h - object_base h) in
  let sum1 := wrap (obj_size + length) in
  let sum2 := wrap (sum1 + alignment_mask h) in
  let new_size := wrap (sum2 + Z.shiftr obj_size 3 + 100) in
  let new_size := if new_size <? sum2 then sum2 else new_size in
  if new_size <? chunk_size h then chunk_size h else new_size.

Definition only_object_of_chunk (h : obstack) : bool :=
  negb (maybe_empty_object h)
  && (object_base h
      =? __PTR_ALIGN (chunk h) (contents (chunk h)) (alignment_mask h)).

(** ** Concrete states used in the examples *)

Definition zero_growth_stack : obstack :=
  mk_obstack 64 2000 2064 2064 2064 0 7 1 2 0 false false false.

Definition zero_growth_world : world :=
  mk_world {[2000 := mk_chunk 2064 0]} ∅ [] [].

(** A stack with byte alignment and an empty growing object, in a chunk of
    32 bytes that ends 16 bytes below the top of the address space; the
    allocator will answer with the address 16.  The request for
    [overflow_length] bytes is served by the block from 16 to
    [size_modulus - 84], which does not overlap the chunk. *)
Definition overflow_stack : obstack :=
  mk_obstack 32 (size_modulus - 48) (size_modulus - 32) (size_modulus - 32)
    (size_modulus - 16) 0 0 1 2 0 false true false.

Definition overflow_world : world :=
  mk_world {[size_modulus - 48 := mk_chunk (size_modulus - 16) 0]} ∅ [16] [].

Definition overflow_length : Z := size_modulus - 100.



(** The chunks [cs] occupy pairwise disjoint address ranges
    [[x, limit)]. *)
Definition disjoint_chunks (m : gmap Z _obstack_chunk) (cs : list Z) : Prop :=
  forall x y cx cy,
    x ∈ cs -> y ∈ cs -> x <> y ->
    m !! x = Some cx -> m !! y = Some cy ->
    limit cx <= y \/ limit cy <= x.

(** The world after the chunks [cs] were handed to the free function, one
    after the other. *)
Definition release (h : obstack) (cs : list Z) (w : world) : world :=
  foldl (fun w c => call_freefun h c w) w cs.

(** [q] lies in a chunk that is still allocated. *)
Definition object_kept (w : world) (q : Z) : Prop :=
  exists d hd, hdrs w !! d = Some hd /\ d < q <= limit hd.

(** A stack with two chunks: the older one at 2000, the current one, at a
    lower address, at 1000.  One object of 8 bytes was finished at 2016 and
    one of 100 bytes at 1016. *)
Definition two_chunk_stack : obstack :=
  mk_obstack 64 1000 1120 1120 1207 0 7 1 2 0 false false false.

Definition two_chunk_world : world :=
  mk_world {[1000 := mk_chunk 1207 2000; 2000 := mk_chunk 2064 0]} ∅ []
    [EvAlloc 1 None 64 2000; EvAlloc 1 None 207 1000].

(** A stack before [_obstack_begin], and a world with nothing allocated in
    which the allocator will give the [answers]. *)
Definition blank_stack : obstack :=
  mk_obstack 0 0 0 0 0 0 0 0 0 0 false false false.

Definition fresh_world (answers : list Z) : world :=
  mk_world ∅ ∅ answers [].

(** ** Sequences of operations *)

(** The operations of obstack.h on an initialized stack that check for
    room.  [Free] is the macro [obstack_free], [Free_function] the function
    [_obstack_free], which the alias at the end of obstack.c also exports
    as [obstack_free]. *)
Inductive op : Type :=
| Make_room (length : Z)
| Blank (length : Z)
| Grow1 (datum : Z)
| Ptr_grow (datum : Z)
| Int_grow (datum : Z)
| Grow (where_ length : Z)
| Grow0 (where_ length : Z)
| Finish
| Alloc (length : Z)
| Copy (where_ length : Z)
| Copy0 (where_ length : Z)
| Free (obj : Z)
| Free_function (obj : Z).

Definition no_value (m : outcome unit) : outcome (option Z) :=
  bind m (fun _ h w => Return None h w).

Definition value (m : outcome Z) : outcome (option Z) :=
  bind m (fun a h w => Return (Some a) h w).

(** [exec o h w]: the operation [o] on the stack [h]; the value is the
    address that [finish], [alloc], [copy] and [copy0] return. *)
Definition exec (o : op) (h : obstack) (w : world) : outcome (option Z) :=
  match o with
  | Make_room n => no_value (obstack_make_room h n w)
  | Blank n => no_value (obstack_blank h n w)
  | Grow1 d => no_value (obstack_1grow h d w)
  | Ptr_grow d => no_value (obstack_ptr_grow h d w)
  | Int_grow d => no_value (obstack_int_grow h d w)
  | Grow p n => no_value (obstack_grow h p n w)
  | Grow0 p n => no_value (obstack_grow0 h p n w)
  | Finish => value (obstack_finish h w)
  | Alloc n => value (obstack_alloc h n w)
  | Copy p n => value (obstack_copy h p n w)
  | Copy0 p n => value (obstack_copy0 h p n w)
  | Free p => no_value (obstack_free h p w)
  | Free_function p => no_value (_obstack_free h p w)
  end.

(** *** What is assumed of the allocator *)

Definition ptrdiff_max : Z := 2 ^ (size_bits - 1) - 1.

(** A block that the allocator returns lies inside the address space, its
    end included, and has at most [PTRDIFF_MAX] bytes. *)
Definition sane_event (e : event) : Prop :=
  match e with
  | EvAlloc _ _ size ret =>
      ret <> 0 -> 0 < ret /\ ret + size < size_modulus /\ size <= ptrdiff_max
  | EvFree _ _ _ => True
  end.

Definition sane_allocator (w : world) : Prop := Forall sane_event (trace w).

(** The two fields of a header hold pointers. *)
Definition typed_map (m : gmap Z _obstack_chunk) : Prop :=
  forall c ch, m !! c = Some ch -> in_range (limit ch) /\ in_range (prev ch).

Definition typed_headers (w : world) : Prop := typed_map (hdrs w).

(** The states of a stack between two operations: after
    [_obstack_begin] or [_obstack_begin_1] with a chunk size that has room
    for the header of a chunk and the padding of the first object, and
    after any operation that returns, or that leaves through the failure
    handler. *)
Inductive reachable : obstack -> world -> Prop :=
| reach_begin h0 w0 size alignment cf ff r h w :
    typed_headers w0 ->
    _obstack_begin h0 size alignment cf ff w0 = Return r h w ->
    2 * sizeof_void_p + alignment_mask h <= chunk_size h ->
    sane_allocator w ->
    reachable h w
| reach_begin_1 h0 w0 size alignment cf ff arg r h w :
    typed_headers w0 ->
    _obstack_begin_1 h0 size alignment cf ff arg w0 = Return r h w ->
    2 * sizeof_void_p + alignment_mask h <= chunk_size h ->
    sane_allocator w ->
    reachable h w
| reach_return h w o r h' w' :
    reachable h w ->
    exec o h w = Return r h' w' ->
    sane_allocator w' ->
    reachable h' w'
| reach_handler h w o h' w' :
    reachable h w ->
    exec o h w = AllocFailed h' w' ->
    sane_allocator w' ->
    reachable h' w'.

(** What [reachable] maintains: the cursors lie between the address of the
    current chunk and [chunk_limit], in this order. *)
Definition cursors_in_chunk (h : obstack) (w : world) : Prop :=
  in_range (alignment_mask h)
  /\ 2 * sizeof_void_p + alignment_mask h <= chunk_size h
  /\ 0 < chunk h
  /\ chunk h <= object_base h
  /\ ordered h
  /\ chunk_limit h < size_modulus
  /\ typed_headers w.

(** *** Disciplined use *)

(** The blocks that the allocator gave out and was not given back, from
    their address to their size, by replaying the calls. *)
Definition replay (live : gmap Z Z) (e : event) : gmap Z Z :=
  match e with
  | EvAlloc _ _ size ret => if ret =? 0 then live else <[ret := size]> live
  | EvFree _ _ ptr => delete ptr live
  end.

Definition live_blocks (t : list event) : gmap Z Z := foldl replay ∅ t.

(** A block that the allocator returns lies inside the address space, its
    end included, and overlaps no block that it gave out and was not given
    back. *)
Definition fresh_event (live : gmap Z Z) (e : event) : Prop :=
  match e with
  | EvAlloc _ _ size ret =>
      ret <> 0 ->
      0 < ret /\ ret + size < size_modulus
      /\ forall b sz, live !! b = Some sz -> ret + size <= b \/ b + sz <= ret
  | EvFree _ _ _ => True
  end.

Definition well_behaved_allocator (t : list event) : Prop :=
  forall t1 e t2, t = t1 ++ e :: t2 -> fresh_event (live_blocks t1) e.

(** The objects that [finish] returned, each with the chunk in which it was
    finished, newest first.  [held] keeps those whose chunk is still
    allocated. *)
Definition held (w : world) (objs : list (Z * Z)) : list (Z * Z) :=
  filter (fun o => is_Some (hdrs w !! o.2)) objs.

Definition record (r : option Z) (h : obstack) (objs : list (Z * Z))
    : list (Z * Z) :=
  match r with
  | Some a => (a, chunk h) :: objs
  | None => objs
  end.

(** [free] is given an address, not null, that [finish] returned, from a
    chunk that the stack still holds. *)
Definition frees_held (o : op) (objs : list (Z * Z)) : Prop :=
  match o with
  | Free p | Free_function p => p <> 0 /\ exists c, (p, c) ∈ objs
  | _ => True
  end.

(** The states of a stack in disciplined use, with the objects it holds:
    the alignment is a power of two, the allocator is well behaved, and
    [free] is only given objects of the stack, never the null pointer.
    The chunk size is not constrained here: the theorems on disciplined
    use also assume [reachable], whose chunk size has room for the header
    of a chunk and the padding of the first object, so that no object
    lies on the header of a chunk. *)
Inductive history : obstack -> world -> list (Z * Z) -> Prop :=
| hist_begin h0 w0 size alignment cf ff r h w :
    in_range size ->
    _obstack_begin h0 size alignment cf ff w0 = Return r h w ->
    is_mask (alignment_mask h) ->
    well_behaved_allocator (trace w) ->
    history h w []
| hist_begin_1 h0 w0 size alignment cf ff arg r h w :
    in_range size ->
    _obstack_begin_1 h0 size alignment cf ff arg w0 = Return r h w ->
    is_mask (alignment_mask h) ->
    well_behaved_allocator (trace w) ->
    history h w []
| hist_return h w objs o r h' w' :
    history h w objs ->
    frees_held o objs ->
    exec o h w = Return r h' w' ->
    well_behaved_allocator (trace w') ->
    history h' w' (held w' (record r h' objs))
| hist_handler h w objs o h' w' :
    history h w objs ->
    frees_held o objs ->
    exec o h w = AllocFailed h' w' ->
    well_behaved_allocator (trace w') ->
    history h' w' objs.

(** What [history] maintains.  [cs] is the chain of the chunks of the
    stack: each is a block of the allocator, they are disjoint, and every
    object is aligned or lies at the limit of its chunk.  The growing
    object starts at an aligned address, or is empty at the limit of the
    current chunk. *)
Definition chain_inv (h : obstack) (w : world) (objs : list (Z * Z))
    (cs : list Z) : Prop :=
  chain (hdrs w) (chunk h) cs
  /\ cs <> []
  /\ (forall x cx, x ∈ cs -> hdrs w !! x = Some cx ->
        x < limit cx
        /\ live_blocks (trace w) !! x = Some (limit cx - x)
        /\ in_range (limit cx))
  /\ disjoint_chunks (hdrs w) cs
  /\ (forall a c, (a, c) ∈ objs ->
        c ∈ cs
        /\ exists cx, hdrs w !! c = Some cx
                      /\ (a mod (alignment_mask h + 1) = 0 \/ a = limit cx)).

Definition stack_inv (h : obstack) (w : world) (objs : list (Z * Z)) : Prop :=
  is_mask (alignment_mask h)
  /\ 0 < chunk_size h
  /\ (forall c0, hdrs w !! chunk h = Some c0 -> chunk_limit h = limit c0)
  /\ (object_base h mod (alignment_mask h + 1) = 0
      \/ (object_base h = chunk_limit h /\ next_free h = chunk_limit h))
  /\ exists cs, chain_inv h w objs cs.

(** ** Formatted output *)

(** The size of the array [buf] of [obstack_printf] and
    [obstack_vprintf]. *)
Definition sizeof_buf : Z := 1024.

(** [vsnprintf (buf, size, fmt, ap)] of the C library, by its contract:
    [out] is the text that the format and its arguments produce, of which
    at most [size - 1] bytes are stored at [buf], followed by a null byte;
    the value is the length of the whole text. *)
Definition vsnprintf (buf size : Z) (out : list Z) (m : gmap Z Z)
    : Z * gmap Z Z :=
  (Z.of_nat (length out),
   if size =? 0 then m
   else store_bytes m buf (take (Z.to_nat (size - 1)) out ++ [0])).

(** [buf] is the address of the local array; [out] stands for the format
    and its arguments. *)
Definition obstack_printf (h : obstack) (buf : Z) (out : list Z) (w : world)
    : outcome Z :=
  let '(len, m) := vsnprintf buf sizeof_buf out (mem w) in
  bind (obstack_grow h buf len (set_mem m w))
    (fun _ h w => Return len h w).

Definition obstack_vprintf (h : obstack) (buf : Z) (out : list Z) (w : world)
    : outcome Z :=
  let '(len, m) := vsnprintf buf sizeof_buf out (mem w) in
  bind (obstack_grow h buf len (set_mem m w))
    (fun _ h w => Return len h w).

(** A stack with room for 4048 bytes, and a memory in which six bytes
    follow the array [buf] placed at 9000. *)
Definition printf_stack : obstack :=
  mk_obstack 4064 20000 20016 20016 24064 0 15 1 2 0 false false false.

Definition printf_world : world :=
  mk_world {[20000 := mk_chunk 24064 0]}
    (store_bytes ∅ (9000 + sizeof_buf) [83; 69; 67; 82; 69; 84]) [] [].

(** A stack with one chunk of 100 bytes at 2000 and alignment 8, after
    [_obstack_begin], and after an object of 82 bytes was finished: the
    padding used up the tail of the chunk. *)
Definition begun_stack : obstack :=
  mk_obstack 100 2000 2016 2016 2100 0 7 1 2 0 false false false.

Definition tail_stack : obstack :=
  mk_obstack 100 2000 2100 2100 2100 0 7 1 2 0 false false false.

Definition tail_world : world :=
  mk_world {[2000 := mk_chunk 2100 0]} ∅ [] [EvAlloc 1 None 100 2000].
(** ** The other macros of obstack.h *)

(** [obstack_init], [obstack_begin], [obstack_specify_allocation] and
    [obstack_specify_allocation_with_arg].  [obstack_chunk_alloc] and
    [obstack_chunk_free] are macros of the including file: here they are
    arguments. *)
Definition obstack_init (h : obstack)
    (obstack_chunk_alloc obstack_chunk_free : Z) (w : world) : outcome Z :=
  _obstack_begin h 0 0 obstack_chunk_alloc obstack_chunk_free w.

Definition obstack_begin (h : obstack) (size : Z)
    (obstack_chunk_alloc obstack_chunk_free : Z) (w : world) : outcome Z :=
  _obstack_begin h size 0 obstack_chunk_alloc obstack_chunk_free w.

Definition obstack_specify_allocation (h : obstack) (size alignment : Z)
    (chunkfun freefun : Z) (w : world) : outcome Z :=
  _obstack_begin h size alignment chunkfun freefun w.

Definition obstack_specify_allocation_with_arg (h : obstack)
    (size alignment : Z) (chunkfun freefun arg : Z) (w : world) : outcome Z :=
  _obstack_begin_1 h size alignment chunkfun freefun arg w.

Definition obstack_chunk_size (h : obstack) : Z := chunk_size h.
Definition obstack_alignment_mask (h : obstack) : Z := alignment_mask h.

(** [obstack_chunkfun] and [obstack_freefun] store into the [extra] member
    of the union, which shares its storage with [plain]. *)
Definition obstack_chunkfun (h : obstack) (newchunkfun : Z) : obstack :=
  set_funs newchunkfun (freefun h) (extra_arg h) (use_extra_arg h) h.
Definition obstack_freefun (h : obstack) (newfreefun : Z) : obstack :=
  set_funs (chunkfun h) newfreefun (extra_arg h) (use_extra_arg h) h.

Definition obstack_memory_used (h : obstack) (w : world) : option Z :=
  _obstack_memory_used h w.

(** ** The macros for compilers other than GNU C

    The second set of definitions of obstack.h evaluates its arguments
    once by storing them in the [temp] member of the stack: a length in
    [temp.i], a pointer in [temp.p], two members of one union.
    [obstack_1grow_fast] and [obstack_blank_fast] are common to both
    sets. *)

Definition set_temp (v : Z) (h : obstack) : obstack :=
  mk_obstack (chunk_size h) (chunk h) (object_base h) (next_free h)
    (chunk_limit h) v (alignment_mask h) (chunkfun h) (freefun h)
    (extra_arg h) (use_extra_arg h) (maybe_empty_object h) (alloc_failed h).

Module Portable.

Definition obstack_object_size (h : obstack) : Z :=
  wrap (next_free h - object_base h).

Definition obstack_room (h : obstack) : Z :=
  wrap (chunk_limit h - next_free h).

Definition obstack_empty_p (h : obstack) (w : world) : option bool :=
  match hdrs w !! chunk h with
  | None => None
  | Some c =>
      Some ((prev c =? 0)
            && (next_free h
                =? __PTR_ALIGN (chunk h) (contents (chunk h))
                     (alignment_mask h)))
  end.

Definition obstack_make_room (h : obstack) (length : Z) (w : world)
    : outcome unit :=
  let h := set_temp (wrap length) h in
  if obstack_room h <? temp h then _obstack_newchunk h (temp h) w
  else Return tt h w.

Definition obstack_grow (h : obstack) (where_ length : Z) (w : world)
    : outcome unit :=
  let h := set_temp (wrap length) h in
  bind (if obstack_room h <? temp h then _obstack_newchunk h (temp h) w
        else Return tt h w)
    (fun _ h w =>
       let w := set_mem (memcpy (next_free h) where_ (temp h) (mem w)) w in
       Return tt (set_next_free (wrap (next_free h + temp h)) h) w).

Definition obstack_grow0 (h : obstack) (where_ length : Z) (w : world)
    : outcome unit :=
  let h := set_temp (wrap length) h in
  bind (if obstack_room h <? wrap (temp h + 1)
        then _obstack_newchunk h (wrap (temp h + 1)) w
        else Return tt h w)
    (fun _ h w =>
       let w := set_mem (memcpy (next_free h) where_ (temp h) (mem w)) w in
       let h := set_next_free (wrap (next_free h + temp h)) h in
       let w := set_mem (<[next_free h := 0]> (mem w)) w in
       Return tt (set_next_free (wrap (next_free h + 1)) h) w).

Definition obstack_1grow (h : obstack) (datum : Z) (w : world)
    : outcome unit :=
  bind (if obstack_room h <? 1 then _obstack_newchunk h 1 w
        else Return tt h w)
    (fun _ h w => obstack_1grow_fast h datum w).

(** [((const void ** ) ((h)->next_free += sizeof (void * )))[-1] = (aptr)]:
    the pointer is moved first and the store goes one element below it. *)
Definition obstack_ptr_grow_fast (h : obstack) (aptr : Z) (w : world)
    : outcome unit :=
  let h := set_next_free (wrap (next_free h + sizeof_void_p)) h in
  Return tt h
    (set_mem (store_bytes (mem w) (wrap (next_free h - sizeof_void_p))
                (encode_le (Z.to_nat sizeof_void_p) aptr)) w).

Definition obstack_int_grow_fast (h : obstack) (aint : Z) (w : world)
    : outcome unit :=
  let h := set_next_free (wrap (next_free h + sizeof_int)) h in
  Return tt h
    (set_mem (store_bytes (mem w) (wrap (next_free h - sizeof_int))
                (encode_le (Z.to_nat sizeof_int) aint)) w).

Definition obstack_ptr_grow (h : obstack) (datum : Z) (w : world)
    : outcome unit :=
  bind (if obstack_room h <? sizeof_void_p
        then _obstack_newchunk h sizeof_void_p w
        else Return tt h w)
    (fun _ h w => obstack_ptr_grow_fast h datum w).

Definition obstack_int_grow (h : obstack) (datum : Z) (w : world)
    : outcome unit :=
  bind (if obstack_room h <? sizeof_int
        then _obstack_newchunk h sizeof_int w
        else Return tt h w)
    (fun _ h w => obstack_int_grow_fast h datum w).

Definition obstack_blank (h : obstack) (length : Z) (w : world)
    : outcome unit :=
  let h := set_temp (wrap length) h in
  bind (if obstack_room h <? temp h then _obstack_newchunk h (temp h) w
        else Return tt h w)
    (fun _ h w => obstack_blank_fast h (temp h) w).

Definition obstack_finish (h : obstack) (w : world) : outcome Z :=
  let h :=
    if next_free h =? object_base h then set_maybe_empty_object true h
    else h in
  let h := set_temp (object_base h) h in
  let h :=
    set_next_free
      (__PTR_ALIGN (object_base h) (next_free h) (alignment_mask h)) h in
  let h :=
    if wrap (chunk_limit h - chunk h) <? wrap (next_free h - chunk h)
    then set_next_free (chunk_limit h) h
    else h in
  let h := set_object_base (next_free h) h in
  Return (temp h) h w.

Definition obstack_alloc (h : obstack) (length : Z) (w : world) : outcome Z :=
  bind (obstack_blank h length w) (fun _ h w => obstack_finish h w).

Definition obstack_copy (h : obstack) (where_ length : Z) (w : world)
    : outcome Z :=
  bind (obstack_grow h where_ length w) (fun _ h w => obstack_finish h w).

Definition obstack_copy0 (h : obstack) (where_ length : Z) (w : world)
    : outcome Z :=
  bind (obstack_grow0 h where_ length w) (fun _ h w => obstack_finish h w).

Definition obstack_free (h : obstack) (obj : Z) (w : world) : outcome unit :=
  let h := set_temp obj h in
  if (chunk h <? temp h) && (temp h <? chunk_limit h)
  then Return tt (set_next_free (temp h) (set_object_base (temp h) h)) w
  else _obstack_free h (temp h) w.

(** The operation [o] by the macros of this set. *)
Definition exec (o : op) (h : obstack) (w : world) : outcome (option Z) :=
  match o with
  | Make_room n => no_value (obstack_make_room h n w)
  | Blank n => no_value (obstack_blank h n w)
  | Grow1 d => no_value (obstack_1grow h d w)
  | Ptr_grow d => no_value (obstack_ptr_grow h d w)
  | Int_grow d => no_value (obstack_int_grow h d w)
  | Grow p n => no_value (obstack_grow h p n w)
  | Grow0 p n => no_value (obstack_grow0 h p n w)
  | Finish => value (obstack_finish h w)
  | Alloc n => value (obstack_alloc h n w)
  | Copy p n => value (obstack_copy h p n w)
  | Copy0 p n => value (obstack_copy0 h p n w)
  | Free p => no_value (obstack_free h p w)
  | Free_function p => no_value (_obstack_free h p w)
  end.

End Portable.

(** The outcome [m] with [t] in the [temp] member of its stack. *)
Definition with_temp {A : Type} (t : Z) (m : outcome A) : outcome A :=
  match m with
  | Return a h w => Return a (set_temp t h) w
  | AllocFailed h w => AllocFailed (set_temp t h) w
  | Aborted h w => Aborted (set_temp t h) w
  | Undefined => Undefined
  end.

(** ** Further predicates *)

(** The bytes of the chunks [cs], headers included: the sum of
    [limit - address] over the chunks. *)
Definition chain_bytes (m : gmap Z _obstack_chunk) (cs : list Z) : Z :=
  foldr (fun x acc =>
           match m !! x with
           | Some c => limit c - x + acc
           | None => acc
           end) 0 cs.

(** The bytes of the growing object, from [object_base] up to
    [next_free]. *)
Definition object_bytes (h : obstack) (w : world) : list Z :=
  load_bytes (mem w) (object_base h) (Z.to_nat (obstack_object_size h)).

(** The value of the bytes [bs], least significant first. *)
Fixpoint decode_le (bs : list Z) : Z :=
  match bs with
  | [] => 0
  | b :: bs' => b + 256 * decode_le bs'
  end.

(** The fields that only initialization writes. *)
Definition same_setup (h h' : obstack) : Prop :=
  alignment_mask h' = alignment_mask h /\ chunk_size h' = chunk_size h
  /\ chunkfun h' = chunkfun h /\ freefun h' = freefun h
  /\ extra_arg h' = extra_arg h /\ use_extra_arg h' = use_extra_arg h.

(** The stack and the world with which a run ends, when it ends in a
    defined way: by returning, in the failure handler or in [abort ()]. *)
Definition final_state {A : Type} (m : outcome A) : option (obstack * world) :=
  match m with
  | Return _ h w | AllocFailed h w | Aborted h w => Some (h, w)
  | Undefined => None
  end.

(** The calls of an operation that checks for room: none; or one call of
    the allocation function, for at least the preferred chunk size; or
    this call, answered with a chunk, followed by the release of the chunk
    that was current. *)
Definition migration_calls (h : obstack) (evs : list event) : Prop :=
  evs = []
  \/ exists size ret,
       chunk_size h <= size
       /\ (evs = [EvAlloc (chunkfun h) (call_arg h) size ret]
           \/ (ret <> 0
               /\ evs = [EvAlloc (chunkfun h) (call_arg h) size ret;
                         EvFree (freefun h) (call_arg h) (chunk h)])).

(** The calls of the operation [o] on the stack [h]: [free] only calls
    the free function, the other operations make the calls of a
    migration. *)
Definition calls_of_op (o : op) (h : obstack) (evs : list event) : Prop :=
  match o with
  | Free _ | Free_function _ =>
      exists cs, evs = map (EvFree (freefun h) (call_arg h)) cs
  | _ => migration_calls h evs
  end.

(** A run from [h], [w] to [h'], [w'] that made the calls [evs] of a
    migration and did not change the setup of the stack. *)
Definition made_calls (h : obstack) (w : world) (h' : obstack) (w' : world)
    (evs : list event) : Prop :=
  same_setup h h' /\ trace w' = trace w ++ evs /\ migration_calls h evs.

(** Every call of the free function among [evs], the calls that follow
    the calls [t], gives back a block that the allocator gave out and that
    was not given back before. *)
Definition frees_live (t evs : list event) : Prop :=
  forall t1 fn arg p t2,
    evs = t1 ++ EvFree fn arg p :: t2 ->
    is_Some (live_blocks (t ++ t1) !! p).

(** The lowest address that an operation that returned may have written:
    the start of the object that it returned or, when it returned none, of
    the growing object. *)
Definition written_from (r : option Z) (h' : obstack) : Z :=
  match r with
  | Some a => a
  | None => object_base h'
  end.

(** The lengths that [obstack_grow0] and [obstack_copy0] can check room
    for: with the null byte they do not wrap around. *)
Definition length_fits (o : op) : Prop :=
  match o with
  | Grow0 _ n | Copy0 _ n => wrap n + 1 < size_modulus
  | _ => True
  end.

(** The [n] bytes at [src] lie outside the block of the call [e]: the
    block that the allocator returned, or the chunk, allocated in [hs],
    that was handed to the free function. *)
Definition event_apart (hs : gmap Z _obstack_chunk) (src n : Z) (e : event)
    : Prop :=
  match e with
  | EvAlloc _ _ size ret =>
      ret <> 0 ->
      forall x, src <= x < src + n -> ~ (ret <= x < ret + size)
  | EvFree _ _ c =>
      forall ch, hs !! c = Some ch ->
      forall x, src <= x < src + n -> ~ (c <= x < limit ch)
  end.

(** The source of a copy, the [n] bytes at [src], lies in no block that
    the operation from [w] to [w'] obtained from the allocator or handed
    to the free function.  The macros read the source after the check
    for room, whose migration writes the header of the new chunk and may
    release the chunk that was current: a source in that chunk would be
    read after it was freed. *)
Definition source_apart (w w' : world) (src n : Z) : Prop :=
  Forall (event_apart (hdrs w) src n) (drop (length (trace w)) (trace w')).

Definition is_free (o : op) : bool :=
  match o with
  | Free _ | Free_function _ => true
  | _ => false
  end.

(** An operation that is not [free] and returned either called nothing
    and left the growing object in its chunk, or obtained from the
    allocator the chunk that is current after it. *)
Definition stayed_or_moved (h : obstack) (w : world) (r : option Z)
    (h' : obstack) (w' : world) : Prop :=
  (trace w' = trace w /\ chunk h' = chunk h
   /\ chunk_limit h' = chunk_limit h /\ written_from r h' = object_base h)
  \/ (exists size rest,
        trace w'
        = trace w ++ EvAlloc (chunkfun h) (call_arg h) size (chunk h') :: rest
        /\ chunk_size h <= size
        /\ chunk h' <> 0
        /\ chunk_limit h' = wrap (chunk h' + size)).

(** [e] is a call of the allocation function [cf] or of the free function
    [ff], with the extra argument [arg] if there is one. *)
Definition call_by (cf ff : Z) (arg : option Z) (e : event) : Prop :=
  match e with
  | EvAlloc fn a _ _ => fn = cf /\ a = arg
  | EvFree fn a _ => fn = ff /\ a = arg
  end.

(** ** Further concrete states *)

(** A stack with one chunk of 40 bytes at 2000 and alignment 8, right
    after [_obstack_begin], in a memory that holds the bytes of a text at
    5000; the allocator will answer 3000 next. *)
Definition text_stack : obstack :=
  mk_obstack 40 2000 2016 2016 2040 0 7 1 2 0 false false false.

Definition text_world : world :=
  mk_world {[2000 := mk_chunk 2040 0]} (store_bytes ∅ 5000 [104; 105; 33])
    [3000] [EvAlloc 1 None 40 2000].

(** * Properties *)

(** ** Machine arithmetic *)

Lemma size_modulus_eq : size_modulus = 18446744073709551616.
Proof. reflexivity. Qed.

Lemma wrap_range z : in_range (wrap z).
Proof. unfold in_range, wrap. apply Z.mod_pos_bound. reflexivity. Qed.

Lemma wrap_small z : in_range z -> wrap z = z.
Proof. unfold in_range, wrap. intros. apply Z.mod_small. lia. Qed.

Lemma wrap_0 : wrap 0 = 0.
Proof. reflexivity. Qed.

Lemma wrap_add_modulus z : wrap (z + size_modulus) = wrap z.
Proof.
  unfold wrap. replace (z + size_modulus) with (z + 1 * size_modulus) by lia.
  apply Z.mod_add. rewrite size_modulus_eq. lia.
Qed.

Lemma wrap_sub_modulus z : wrap (z - size_modulus) = wrap z.
Proof.
  unfold wrap. replace (z - size_modulus) with (z + (-1) * size_modulus) by lia.
  apply Z.mod_add. rewrite size_modulus_eq. lia.
Qed.

(** The wrap-around of a sum of two values in range loses [size_modulus]
    exactly when the sum overflows. *)
Lemma wrap_add_cases a b :
  in_range a -> in_range b ->
  (a + b < size_modulus /\ wrap (a + b) = a + b)
  \/ (size_modulus <= a + b /\ wrap (a + b) = a + b - size_modulus).
Proof.
  unfold in_range. intros Ha Hb.
  destruct (Z_lt_le_dec (a + b) size_modulus) as [Hlt | Hge].
  - left. split; [lia |]. apply wrap_small. unfold in_range. lia.
  - right. split; [lia |]. rewrite <- wrap_sub_modulus.
    apply wrap_small. unfold in_range. lia.
Qed.

Lemma wrap_sub_cases a b :
  in_range a -> in_range b ->
  (b <= a /\ wrap (a - b) = a - b)
  \/ (a < b /\ wrap (a - b) = a - b + size_modulus).
Proof.
  unfold in_range. intros Ha Hb.
  destruct (Z_le_gt_dec b a) as [Hle | Hgt].
  - left. split; [lia |]. apply wrap_small. unfold in_range. lia.
  - right. split; [lia |]. rewrite <- wrap_add_modulus.
    apply wrap_small. unfold in_range. lia.
Qed.

Lemma land_size_not x a :
  in_range x -> Z.land x (size_not a) = x - Z.land x a.
Proof.
  intros Hx. unfold size_not, wrap, size_modulus.
  rewrite <- (Z.land_ones (Z.lnot a) size_bits) by (unfold size_bits; lia).
  rewrite Z.land_assoc, (Z.land_comm x (Z.lnot a)), <- Z.land_assoc.
  rewrite (Z.land_ones x size_bits) by (unfold size_bits; lia).
  fold size_modulus. fold (wrap x). rewrite (wrap_small x Hx).
  rewrite Z.land_comm. symmetry. apply Zbitwise.Z.sub_land_same_l.
Qed.

Lemma land_bounds x a : 0 <= a -> 0 <= Z.land x a <= a.
Proof.
  intros Ha. apply Z.ldiff_le; [exact Ha |].
  apply Z.bits_inj'. intros n Hn.
  rewrite Z.ldiff_spec, Z.land_spec, Z.bits_0.
  destruct (Z.testbit x n), (Z.testbit a n); reflexivity.
Qed.

(** ** Alignment *)

Lemma ptr_align_eq B P A :
  __PTR_ALIGN B P A = wrap (P + A) - Z.land (wrap (P + A)) A.
Proof.
  unfold __PTR_ALIGN, __BPTR_ALIGN.
  replace (sizeof_ptrdiff_t <? sizeof_void_p) with false by reflexivity.
  rewrite Z.sub_0_r, Z.add_0_l.
  rewrite land_size_not by apply wrap_range.
  apply wrap_small.
  pose proof (wrap_range (P + A)) as Hx.
  destruct (Z_lt_le_dec A 0) as [Hneg | Hpos].
  - unfold in_range in *. 
    assert (0 <= Z.land (wrap (P + A)) A <= wrap (P + A)).
    { rewrite Z.land_comm. apply land_bounds. lia. }
    lia.
  - pose proof (land_bounds (wrap (P + A)) A Hpos).
    assert (0 <= Z.land (wrap (P + A)) A <= wrap (P + A)).
    { rewrite Z.land_comm. apply land_bounds. unfold in_range in Hx. lia. }
    unfold in_range in *. lia.
Qed.

Lemma ptr_align_range B P A : in_range (__PTR_ALIGN B P A).
Proof. unfold __PTR_ALIGN, __BPTR_ALIGN. apply wrap_range. Qed.

Lemma ptr_align_bounds B P A :
  in_range A -> 0 <= P -> P + A < size_modulus ->
  P <= __PTR_ALIGN B P A <= P + A.
Proof.
  intros HA HP Hsum. rewrite ptr_align_eq.
  rewrite (wrap_small (P + A)) by (unfold in_range in *; lia).
  pose proof (land_bounds (P + A) A (proj1 HA)). lia.
Qed.

Lemma mask_range A : is_mask A -> in_range A.
Proof.
  intros (k & Hk & ->). rewrite Z.ones_equiv. unfold in_range, size_modulus.
  assert (0 < 2 ^ k) by (apply Z.pow_pos_nonneg; lia).
  assert (2 ^ k <= 2 ^ size_bits) by (apply Z.pow_le_mono_r; lia).
  lia.
Qed.

Lemma ptr_align_aligned B P A :
  is_mask A -> (__PTR_ALIGN B P A) mod (A + 1) = 0.
Proof.
  intros (k & Hk & ->). rewrite ptr_align_eq.
  rewrite Z.land_ones by lia.
  rewrite Z.ones_equiv. replace (Z.pred (2 ^ k) + 1) with (2 ^ k) by lia.
  assert (0 < 2 ^ k) by (apply Z.pow_pos_nonneg; lia).
  set (x := wrap (P + Z.pred (2 ^ k))).
  rewrite (Z.div_mod x (2 ^ k)) at 1 by lia.
  replace (2 ^ k * (x / 2 ^ k) + x mod 2 ^ k - x mod 2 ^ k)
    with ((x / 2 ^ k) * 2 ^ k) by lia.
  apply Z.mod_mul. lia.
Qed.

(** ** Stores *)

Lemma set_mem_id w : set_mem (mem w) w = w.
Proof. destruct w; reflexivity. Qed.

Lemma set_next_free_id h : set_next_free (next_free h) h = h.
Proof. destruct h; reflexivity. Qed.

Lemma memcpy_zero dst src m : memcpy dst src 0 m = m.
Proof. reflexivity. Qed.

(** ** Projections of updated worlds *)

Lemma hdrs_set_mem m w : hdrs (set_mem m w) = hdrs w.
Proof. reflexivity. Qed.
Lemma trace_set_mem m w : trace (set_mem m w) = trace w.
Proof. reflexivity. Qed.
Lemma oracle_set_mem m w : oracle (set_mem m w) = oracle w.
Proof. reflexivity. Qed.
Lemma mem_set_mem m w : mem (set_mem m w) = m.
Proof. reflexivity. Qed.
Lemma hdrs_store_prev c v w :
  hdrs (store_prev c v w)
  = <[c := mk_chunk (limit (default (mk_chunk 0 0) (hdrs w !! c))) v]> (hdrs w).
Proof. reflexivity. Qed.
Lemma hdrs_store_limit c v w :
  hdrs (store_limit c v w)
  = <[c := mk_chunk v (prev (default (mk_chunk 0 0) (hdrs w !! c)))]> (hdrs w).
Proof. reflexivity. Qed.
Lemma trace_store_prev c v w : trace (store_prev c v w) = trace w.
Proof. reflexivity. Qed.
Lemma trace_store_limit c v w : trace (store_limit c v w) = trace w.
Proof. reflexivity. Qed.
Lemma oracle_store_prev c v w : oracle (store_prev c v w) = oracle w.
Proof. reflexivity. Qed.
Lemma oracle_store_limit c v w : oracle (store_limit c v w) = oracle w.
Proof. reflexivity. Qed.
Lemma mem_store_prev c v w : mem (store_prev c v w) = mem w.
Proof. reflexivity. Qed.
Lemma mem_store_limit c v w : mem (store_limit c v w) = mem w.
Proof. reflexivity. Qed.
Lemma hdrs_call_freefun h c w :
  hdrs (call_freefun h c w) = delete c (hdrs w).
Proof. reflexivity. Qed.
Lemma trace_call_freefun h c w :
  trace (call_freefun h c w)
  = trace w ++ [EvFree (freefun h) (call_arg h) c].
Proof. reflexivity. Qed.
Lemma mem_call_freefun h c w : mem (call_freefun h c w) = mem w.
Proof. reflexivity. Qed.
Lemma oracle_call_freefun h c w : oracle (call_freefun h c w) = oracle w.
Proof. reflexivity. Qed.

Create Rewrite HintDb world.
#[local] Hint Rewrite hdrs_set_mem trace_set_mem oracle_set_mem mem_set_mem
  trace_store_prev trace_store_limit oracle_store_prev oracle_store_limit
  mem_store_prev mem_store_limit hdrs_call_freefun trace_call_freefun
  mem_call_freefun oracle_call_freefun : world.

Lemma store_prev_limit c p l w :
  hdrs (store_limit c l (store_prev c p w)) = <[c := mk_chunk l p]> (hdrs w).
Proof.
  rewrite hdrs_store_limit, hdrs_store_prev.
  rewrite lookup_insert_eq. cbn [default prev].
  apply insert_insert_eq.
Qed.

(** ** Inversion of a successful migration *)

(** [_obstack_newchunk], with the size of the new chunk and the test of the
    recycling named. *)
Lemma newchunk_eq h length w :
  _obstack_newchunk h length w
  = let obj_size := obstack_object_size h in
    let sum1 := wrap (obj_size + length) in
    let sum2 := wrap (sum1 + alignment_mask h) in
    let '(new_chunk, w) :=
      if (obj_size <=? sum1) && (sum1 <=? sum2)
      then call_chunkfun h (newchunk_size h length) w
      else (0, w) in
    if new_chunk =? 0 then AllocFailed h w else
    let lim := wrap (new_chunk + newchunk_size h length) in
    let base := __PTR_ALIGN new_chunk (contents new_chunk) (alignment_mask h) in
    let w :=
      set_mem (memcpy base (object_base h) obj_size
                 (mem (store_limit new_chunk lim
                         (store_prev new_chunk (chunk h) w))))
        (store_limit new_chunk lim (store_prev new_chunk (chunk h) w)) in
    let h1 := set_chunk_limit lim (set_chunk new_chunk h) in
    match
      (if only_object_of_chunk h
       then match hdrs w !! chunk h with
            | None => None
            | Some oc =>
                Some (call_freefun h1 (chunk h)
                        (store_prev new_chunk (prev oc) w))
            end
       else Some w)
    with
    | None => Undefined
    | Some w =>
        Return tt
          (set_maybe_empty_object false
             (set_next_free (wrap (base + obj_size))
                (set_object_base base h1))) w
    end.
Proof. reflexivity. Qed.

Lemma newchunk_return h length w h' w' :
  _obstack_newchunk h length w = Return tt h' w' ->
  let nc := hd 0 (oracle w) in
  let obj_size := obstack_object_size h in
  let sum1 := wrap (obj_size + length) in
  let sum2 := wrap (sum1 + alignment_mask h) in
  let lim := wrap (nc + newchunk_size h length) in
  let base := __PTR_ALIGN nc (contents nc) (alignment_mask h) in
  let hs := <[nc := mk_chunk lim (chunk h)]> (hdrs w) in
  let ev := EvAlloc (chunkfun h) (call_arg h) (newchunk_size h length) nc in
  nc <> 0 /\ obj_size <= sum1 <= sum2
  /\ h' = set_maybe_empty_object false
            (set_next_free (wrap (base + obj_size))
               (set_object_base base (set_chunk_limit lim (set_chunk nc h))))
  /\ mem w' = memcpy base (object_base h) obj_size (mem w)
  /\ oracle w' = tl (oracle w)
  /\ (if only_object_of_chunk h
      then exists oc, hs !! chunk h = Some oc
           /\ hdrs w' = delete (chunk h) (<[nc := mk_chunk lim (prev oc)]> hs)
           /\ trace w' = trace w ++ [ev; EvFree (freefun h) (call_arg h) (chunk h)]
      else hdrs w' = hs /\ trace w' = trace w ++ [ev]).
Proof.
  intros H nc obj_size sum1 sum2 lim base hs ev.
  rewrite newchunk_eq in H. cbv zeta in H.
  fold obj_size in H. fold sum1 in H. fold sum2 in H.
  destruct ((obj_size <=? sum1) && (sum1 <=? sum2)) eqn:Hsums;
    [| discriminate].
  apply andb_true_iff in Hsums as [Hs1 Hs2].
  apply Z.leb_le in Hs1. apply Z.leb_le in Hs2.
  unfold call_chunkfun in H. fold nc in H. fold ev in H.
  destruct (nc =? 0) eqn:Hnc; [discriminate |].
  apply Z.eqb_neq in Hnc.
  fold lim in H. fold base in H.
  set (w1 := mk_world (hdrs w) (mem w) (tl (oracle w)) (trace w ++ [ev])) in H.
  assert (Hhs : hdrs (store_limit nc lim (store_prev nc (chunk h) w1)) = hs)
    by apply store_prev_limit.
  split; [exact Hnc |]. split; [lia |].
  destruct (only_object_of_chunk h) eqn:Honly.
  - rewrite hdrs_set_mem, Hhs in H.
    destruct (hs !! chunk h) as [oc |] eqn:Hoc; [| discriminate].
    injection H as <- <-.
    autorewrite with world. rewrite hdrs_store_prev.
    autorewrite with world. rewrite Hhs.
    repeat split; try reflexivity.
    exists oc. split; [reflexivity |].
    unfold hs at 1. rewrite lookup_insert_eq. cbn [default limit].
    split; [reflexivity |]. subst w1. cbn [trace].
    rewrite <- app_assoc. reflexivity.
  - injection H as <- <-.
    autorewrite with world. rewrite Hhs.
    repeat split; reflexivity.
Qed.

(** ** Chains of chunks *)

Lemma chain_nil_inv m lp : chain m lp [] -> lp = 0.
Proof. inversion 1. reflexivity. Qed.

Lemma chain_cons_inv m lp x cs :
  chain m lp (x :: cs) ->
  lp = x /\ x <> 0 /\ exists c, m !! x = Some c /\ chain m (prev c) cs.
Proof. inversion 1; subst. eauto. Qed.

Lemma chain_deterministic m lp cs1 cs2 :
  chain m lp cs1 -> chain m lp cs2 -> cs1 = cs2.
Proof.
  intros H1. revert cs2.
  induction H1 as [| lp c cs Hne Hc _ IH]; intros cs2 H2.
  - inversion H2; subst; [reflexivity | congruence].
  - inversion H2 as [| lp' c' cs' Hne' Hc' Hrest]; subst; [congruence |].
    assert (c' = c) by congruence. subst c'.
    f_equal. apply IH, Hrest.
Qed.

Lemma chain_suffix m lp cs x :
  chain m lp cs -> x ∈ cs ->
  exists cs', chain m x cs' /\ (length cs' <= length cs)%nat.
Proof.
  induction 1 as [| lp c cs Hne Hc Hrest IH]; intros Hx.
  - inversion Hx.
  - apply elem_of_cons in Hx as [-> | Hx].
    + exists (lp :: cs). split; [econstructor; eauto | lia].
    + destruct (IH Hx) as (cs' & Hcs' & Hlen).
      exists cs'. split; [exact Hcs' | cbn [length]; lia].
Qed.

Lemma chain_NoDup m lp cs : chain m lp cs -> NoDup cs.
Proof.
  induction 1 as [| lp c cs Hne Hc Hrest IH]; constructor; [| exact IH].
  intros Hin.
  destruct (chain_suffix _ _ _ _ Hrest Hin) as (cs' & Hcs' & Hlen).
  assert (cs' = lp :: cs)
    by (eapply chain_deterministic; [exact Hcs' | econstructor; eauto]).
  subst cs'. cbn [length] in Hlen. lia.
Qed.

Lemma chain_delete m lp cs x :
  chain m lp cs -> x ∉ cs -> chain (delete x m) lp cs.
Proof.
  induction 1 as [| lp c cs Hne Hc Hrest IH]; intros Hx.
  - constructor.
  - apply not_elem_of_cons in Hx as [Hx1 Hx2].
    econstructor; [exact Hne | | apply IH, Hx2].
    rewrite lookup_delete_ne by congruence. exact Hc.
Qed.

Lemma chain_insert m lp cs x c :
  chain m lp cs -> x ∉ cs -> chain (<[x := c]> m) lp cs.
Proof.
  induction 1 as [| lp c0 cs Hne Hc Hrest IH]; intros Hx.
  - constructor.
  - apply not_elem_of_cons in Hx as [Hx1 Hx2].
    econstructor; [exact Hne | | apply IH, Hx2].
    rewrite lookup_insert_ne by congruence. exact Hc.
Qed.

Lemma chain_lookup m lp cs x :
  chain m lp cs -> x ∈ cs -> x <> 0 /\ is_Some (m !! x).
Proof.
  induction 1 as [| lp c cs Hne Hc Hrest IH]; intros Hx.
  - inversion Hx.
  - apply elem_of_cons in Hx as [-> | Hx]; [eauto | auto].
Qed.

Lemma chain_app m lp cs1 cs2 :
  chain m lp (cs1 ++ cs2) ->
  chain m (hd 0 cs2) cs2.
Proof.
  revert lp. induction cs1 as [| x cs1 IH]; intros lp H.
  - cbn [app] in H. inversion H; subst; [constructor |].
    cbn [hd]. econstructor; eauto.
  - cbn [app] in H. inversion H; subst. eapply IH; eauto.
Qed.

(** ** The world after a release *)

Lemma release_cons h c cs w :
  release h (c :: cs) w = release h cs (call_freefun h c w).
Proof. reflexivity. Qed.

Lemma mem_release h cs w : mem (release h cs w) = mem w.
Proof. revert w. induction cs as [| c cs IH]; intros w; [reflexivity |].
  rewrite release_cons, IH. reflexivity. Qed.

Lemma oracle_release h cs w : oracle (release h cs w) = oracle w.
Proof. revert w. induction cs as [| c cs IH]; intros w; [reflexivity |].
  rewrite release_cons, IH. reflexivity. Qed.

Lemma trace_release h cs w :
  trace (release h cs w)
  = trace w ++ map (EvFree (freefun h) (call_arg h)) cs.
Proof.
  revert w. induction cs as [| c cs IH]; intros w.
  - cbn. rewrite app_nil_r. reflexivity.
  - rewrite release_cons, IH, trace_call_freefun, <- app_assoc. reflexivity.
Qed.

Lemma hdrs_release h cs w x :
  hdrs (release h cs w) !! x
  = if decide (x ∈ cs) then None else hdrs w !! x.
Proof.
  revert w. induction cs as [| c cs IH]; intros w.
  - destruct (decide (x ∈ [])) as [Hin | _]; [inversion Hin | reflexivity].
  - rewrite release_cons, IH, hdrs_call_freefun.
    destruct (decide (x ∈ cs)) as [Hin | Hnot].
    + rewrite decide_True by (apply elem_of_cons; auto). reflexivity.
    + destruct (decide (x = c)) as [-> | Hne].
      * rewrite decide_True by (apply elem_of_cons; auto).
        apply lookup_delete_eq.
      * rewrite decide_False
          by (intros [? | ?]%elem_of_cons; contradiction).
        apply lookup_delete_ne. congruence.
Qed.

Lemma hdrs_release_in h cs w x :
  x ∈ cs -> hdrs (release h cs w) !! x = None.
Proof. intros Hx. rewrite hdrs_release, decide_True by exact Hx. reflexivity. Qed.

Lemma hdrs_release_out h cs w x :
  x ∉ cs -> hdrs (release h cs w) !! x = hdrs w !! x.
Proof. intros Hx. rewrite hdrs_release, decide_False by exact Hx. reflexivity. Qed.

(** ** The loops over the chunks *)

Lemma inside_test obj lp c :
  (obj <=? lp) || (limit c <? obj) = false <-> inside obj lp c.
Proof.
  unfold inside. rewrite orb_false_iff, Z.leb_gt, Z.ltb_ge. reflexivity.
Qed.

Lemma outside_test obj lp c :
  (obj <=? lp) || (limit c <? obj) = true <-> ~ inside obj lp c.
Proof.
  unfold inside. rewrite orb_true_iff, Z.leb_le, Z.ltb_lt. lia.
Qed.

Lemma free_loop_eq fuel h obj lp w :
  free_loop fuel h obj lp w
  = if lp =? 0 then Some (Return lp h w) else
    match hdrs w !! lp with
    | None => Some Undefined
    | Some c =>
        if (obj <=? lp) || (limit c <? obj) then
          match fuel with
          | O => None
          | S fuel' =>
              free_loop fuel' (set_maybe_empty_object true h) obj (prev c)
                (call_freefun h lp w)
          end
        else Some (Return lp h w)
    end.
Proof. destruct fuel; reflexivity. Qed.

Lemma allocated_loop_eq fuel hs obj lp :
  allocated_loop fuel hs obj lp
  = if lp =? 0 then Some lp else
    match hs !! lp with
    | None => None
    | Some c =>
        if (obj <=? lp) || (limit c <? obj) then
          match fuel with
          | O => None
          | S fuel' => allocated_loop fuel' hs obj (prev c)
          end
        else Some lp
    end.
Proof. destruct fuel; reflexivity. Qed.

(** The fuel of [_obstack_free] is never used up. *)
Lemma free_loop_fuel fuel h obj lp w :
  (size (hdrs w) <= fuel)%nat ->
  exists o, free_loop fuel h obj lp w = Some o.
Proof.
  revert h lp w. induction fuel as [| fuel IH]; intros h lp w Hsize;
    rewrite free_loop_eq.
  - destruct (lp =? 0); [eauto |].
    destruct (hdrs w !! lp) as [c |] eqn:Hc; [| eauto].
    exfalso. apply (map_size_ne_0_lookup_2 (hdrs w) lp); [eauto | lia].
  - destruct (lp =? 0); [eauto |].
    destruct (hdrs w !! lp) as [c |] eqn:Hc; [| eauto].
    destruct ((obj <=? lp) || (limit c <? obj)); [| eauto].
    apply IH. rewrite hdrs_call_freefun, map_size_delete_Some by eauto.
    lia.
Qed.

Lemma free_loop_spec obj newer :
  forall lp h w fuel rest,
    chain (hdrs w) lp (newer ++ rest) ->
    (forall x c, x ∈ newer -> hdrs w !! x = Some c -> ~ inside obj x c) ->
    (forall x c, head rest = Some x -> hdrs w !! x = Some c -> inside obj x c) ->
    (size (hdrs w) <= fuel)%nat ->
    free_loop fuel h obj lp w
    = Some (Return (hd 0 rest)
              (match newer with
               | [] => h
               | _ :: _ => set_maybe_empty_object true h
               end)
              (release h newer w)).
Proof.
  induction newer as [| x newer IH]; intros lp h w fuel rest Hchain Hout Hin Hfuel.
  - cbn [app] in Hchain. rewrite free_loop_eq.
    destruct rest as [| y rest].
    + apply chain_nil_inv in Hchain as ->. reflexivity.
    + apply chain_cons_inv in Hchain as (-> & Hne & c & Hc & Hrest).
      apply Z.eqb_neq in Hne. rewrite Hne, Hc.
      assert (Hi : inside obj y c) by (apply (Hin y c); auto).
      apply inside_test in Hi. rewrite Hi. reflexivity.
  - cbn [app] in Hchain. rewrite free_loop_eq.
    pose proof (chain_NoDup _ _ _ Hchain) as Hnd.
    apply chain_cons_inv in Hchain as (-> & Hne & c & Hc & Hrest).
    apply NoDup_cons in Hnd as [Hfresh Hnd].
    apply Z.eqb_neq in Hne. rewrite Hne, Hc.
    assert (Ho : ~ inside obj x c)
      by (apply (Hout x c); [apply elem_of_cons; auto | exact Hc]).
    apply outside_test in Ho. rewrite Ho.
    destruct fuel as [| fuel].
    { exfalso. apply (map_size_ne_0_lookup_2 (hdrs w) x); [eauto | lia]. }
    rewrite release_cons.
    rewrite (IH (prev c) (set_maybe_empty_object true h)
               (call_freefun h x w) fuel rest).
    + destruct newer; reflexivity.
    + rewrite hdrs_call_freefun. apply chain_delete; assumption.
    + intros y cy Hy Hcy. rewrite hdrs_call_freefun in Hcy.
      apply (Hout y cy); [apply elem_of_cons; auto |].
      rewrite lookup_delete_ne in Hcy; [exact Hcy |].
      intros ->. apply Hfresh, elem_of_app. auto.
    + intros y cy Hy Hcy. rewrite hdrs_call_freefun in Hcy.
      apply (Hin y cy Hy).
      rewrite lookup_delete_ne in Hcy; [exact Hcy |].
      intros ->. apply Hfresh, elem_of_app. right.
      destruct rest; [discriminate |]. injection Hy as ->.
      apply elem_of_cons. auto.
    + rewrite hdrs_call_freefun, map_size_delete_Some by eauto. lia.
Qed.

Lemma allocated_loop_spec obj hs newer :
  forall lp fuel rest,
    chain hs lp (newer ++ rest) ->
    (forall x c, x ∈ newer -> hs !! x = Some c -> ~ inside obj x c) ->
    (forall x c, head rest = Some x -> hs !! x = Some c -> inside obj x c) ->
    (length newer <= fuel)%nat ->
    allocated_loop fuel hs obj lp = Some (hd 0 rest).
Proof.
  induction newer as [| x newer IH]; intros lp fuel rest Hchain Hout Hin Hfuel.
  - cbn [app] in Hchain. rewrite allocated_loop_eq.
    destruct rest as [| y rest].
    + apply chain_nil_inv in Hchain as ->. reflexivity.
    + apply chain_cons_inv in Hchain as (-> & Hne & c & Hc & Hrest).
      apply Z.eqb_neq in Hne. rewrite Hne, Hc.
      assert (Hi : inside obj y c) by (apply (Hin y c); auto).
      apply inside_test in Hi. rewrite Hi. reflexivity.
  - cbn [app] in Hchain. rewrite allocated_loop_eq.
    apply chain_cons_inv in Hchain as (-> & Hne & c & Hc & Hrest).
    apply Z.eqb_neq in Hne. rewrite Hne, Hc.
    assert (Ho : ~ inside obj x c)
      by (apply (Hout x c); [apply elem_of_cons; auto | exact Hc]).
    apply outside_test in Ho. rewrite Ho.
    destruct fuel as [| fuel]; [cbn [length] in Hfuel; lia |].
    apply IH; auto.
    + intros y cy Hy. apply Hout, elem_of_cons. auto.
    + cbn [length] in Hfuel. lia.
Qed.

(** The chunks of a chain are allocated, hence no more than the headers. *)
Lemma chain_length m lp cs : chain m lp cs -> (length cs <= size m)%nat.
Proof.
  intros Hchain. pose proof (chain_NoDup _ _ _ Hchain) as Hnd.
  assert (Hsub : list_to_set cs ⊆ dom m).
  { intros x Hx. apply elem_of_list_to_set in Hx.
    apply elem_of_dom. eapply chain_lookup; eauto. }
  apply subseteq_size in Hsub.
  rewrite size_list_to_set in Hsub by exact Hnd.
  rewrite size_dom in Hsub. exact Hsub.
Qed.

(** ** [_obstack_free] on a chain *)

Lemma free_found h obj w newer c older ch :
  chain (hdrs w) (chunk h) (newer ++ c :: older) ->
  (forall x cx, x ∈ newer -> hdrs w !! x = Some cx -> ~ inside obj x cx) ->
  hdrs w !! c = Some ch -> inside obj c ch ->
  _obstack_free h obj w
  = Return tt
      (set_chunk c
         (set_chunk_limit (limit ch)
            (set_next_free obj
               (set_object_base obj
                  (match newer with
                   | [] => h
                   | _ :: _ => set_maybe_empty_object true h
                   end)))))
      (release h newer w).
Proof.
  intros Hchain Hout Hc Hin. unfold _obstack_free.
  rewrite (free_loop_spec obj newer (chunk h) h w (size (hdrs w)) (c :: older))
    by (auto; intros x cx [= <-] Hx; congruence).
  cbn [bind hd].
  pose proof (chain_NoDup _ _ _ Hchain) as Hnd.
  assert (Hne : c <> 0).
  { eapply chain_lookup; [exact Hchain |]. apply elem_of_app. right.
    apply elem_of_cons. auto. }
  apply Z.eqb_neq in Hne. rewrite Hne.
  rewrite hdrs_release_out, Hc; [reflexivity |].
  apply NoDup_app in Hnd as (_ & Hdisj & _).
  intros Hx. apply (Hdisj c Hx), elem_of_cons. auto.
Qed.

Lemma free_exhausted h obj w cs :
  chain (hdrs w) (chunk h) cs ->
  (forall x cx, x ∈ cs -> hdrs w !! x = Some cx -> ~ inside obj x cx) ->
  let h' := match cs with
            | [] => h
            | _ :: _ => set_maybe_empty_object true h
            end in
  _obstack_free h obj w
  = if obj =? 0 then Return tt h' (release h cs w)
    else Aborted h' (release h cs w).
Proof.
  intros Hchain Hout h'. unfold _obstack_free.
  rewrite (free_loop_spec obj cs (chunk h) h w (size (hdrs w)) [])
    by (rewrite ?app_nil_r; auto; intros x cx [=]).
  reflexivity.
Qed.

Lemma disjoint_not_inside m cs c hd p x cx :
  disjoint_chunks m cs ->
  c ∈ cs -> m !! c = Some hd -> inside p c hd ->
  x ∈ cs -> x <> c -> m !! x = Some cx -> ~ inside p x cx.
Proof.
  unfold inside. intros Hdisj Hc Hhd Hin Hx Hne Hcx Hin'.
  destruct (Hdisj x c cx hd Hx Hc Hne Hcx Hhd); lia.
Qed.

Lemma chain_release h newer :
  forall w lp cs,
    chain (hdrs w) lp cs -> (forall x, x ∈ newer -> x ∉ cs) ->
    chain (hdrs (release h newer w)) lp cs.
Proof.
  induction newer as [| x newer IH]; intros w lp cs Hchain Hd;
    [exact Hchain |].
  rewrite release_cons. apply IH.
  - rewrite hdrs_call_freefun. apply chain_delete; [exact Hchain |].
    apply Hd, elem_of_cons. auto.
  - intros y Hy. apply Hd, elem_of_cons. auto.
Qed.

(** ** The example with two chunks *)

Lemma two_chunk_chain :
  chain (hdrs two_chunk_world) (chunk two_chunk_stack) [1000; 2000].
Proof.
  apply (chain_link _ 1000 (mk_chunk 1207 2000)); [discriminate | reflexivity |].
  apply (chain_link _ 2000 (mk_chunk 2064 0)); [discriminate | reflexivity |].
  apply chain_null.
Defined.

Lemma two_chunk_headers x cx :
  x ∈ [1000; 2000] -> hdrs two_chunk_world !! x = Some cx ->
  (x = 1000 /\ cx = mk_chunk 1207 2000) \/ (x = 2000 /\ cx = mk_chunk 2064 0).
Proof.
  intros Hx Hcx.
  apply elem_of_cons in Hx as [-> | Hx].
  - left. vm_compute in Hcx. injection Hcx as <-. auto.
  - apply elem_of_cons in Hx as [-> | Hx]; [| inversion Hx].
    right. vm_compute in Hcx. injection Hcx as <-. auto.
Defined.

Lemma two_chunk_disjoint :
  disjoint_chunks (hdrs two_chunk_world) [1000; 2000].
Proof.
  intros x y cx cy Hx Hy Hne Hcx Hcy.
  destruct (two_chunk_headers x cx Hx Hcx) as [[-> ->] | [-> ->]];
    destruct (two_chunk_headers y cy Hy Hcy) as [[-> ->] | [-> ->]];
    cbn [limit]; try lia; contradiction.
Defined.

(** ** The cursors stay in the current chunk *)

Lemma cursors_intro h w :
  in_range (alignment_mask h) ->
  2 * sizeof_void_p + alignment_mask h <= chunk_size h ->
  0 < chunk h -> chunk h <= object_base h ->
  object_base h <= next_free h -> next_free h <= chunk_limit h ->
  chunk_limit h < size_modulus -> typed_headers w ->
  cursors_in_chunk h w.
Proof. unfold cursors_in_chunk, ordered. auto 10. Qed.

Lemma finish_cursors h w v h' w' :
  cursors_in_chunk h w ->
  obstack_finish h w = Return v h' w' ->
  cursors_in_chunk h' w'.
Proof.
  intros (Hm & Hcs & Hc & Hcob & [Hob Hnf] & Hcl & Hty) H.
  unfold obstack_finish in H. injection H as _ <- <-.
  set (h1 := if next_free h =? object_base h
             then set_maybe_empty_object true h else h).
  assert (E : chunk h1 = chunk h /\ object_base h1 = object_base h
              /\ next_free h1 = next_free h /\ chunk_limit h1 = chunk_limit h
              /\ alignment_mask h1 = alignment_mask h
              /\ chunk_size h1 = chunk_size h).
  { unfold h1. destruct (next_free h =? object_base h); cbn; auto 10. }
  destruct E as (E1 & E2 & E3 & E4 & E5 & E6).
  set (nf1 := __PTR_ALIGN (object_base h1) (next_free h1) (alignment_mask h1)).
  pose proof (ptr_align_range (object_base h1) (next_free h1)
                (alignment_mask h1)) as Hr.
  fold nf1 in Hr.
  cbn [chunk_limit chunk next_free set_next_free].
  rewrite E1, E4.
  assert (Hw : wrap (chunk_limit h - chunk h) = chunk_limit h - chunk h).
  { apply wrap_small. unfold in_range. lia. }
  rewrite Hw.
  assert (Hcr : in_range (chunk h)) by (unfold in_range; lia).
  destruct (wrap_sub_cases nf1 (chunk h) Hr Hcr) as [[Hle Ew] | [Hlt Ew]];
    rewrite Ew;
    destruct (chunk_limit h - chunk h <? _) eqn:Htest;
    [apply Z.ltb_lt in Htest | apply Z.ltb_ge in Htest
    | apply Z.ltb_lt in Htest | apply Z.ltb_ge in Htest];
    apply cursors_intro; cbn; rewrite ?E1, ?E4, ?E5, ?E6;
    try assumption; unfold in_range in *; lia.
Qed.

Lemma ptrdiff_max_eq : ptrdiff_max = 9223372036854775807.
Proof. reflexivity. Qed.

Lemma shiftr3_bounds x : 0 <= x -> 0 <= Z.shiftr x 3 /\ 8 * Z.shiftr x 3 <= x.
Proof.
  intros Hx. rewrite Z.shiftr_div_pow2 by lia. change (2 ^ 3) with 8.
  split; [apply Z.div_pos; lia | apply Z.mul_div_le; lia].
Qed.

(** When the two checked sums pass and the allocator accepts the size, the
    new chunk has room for the object, the new bytes, the padding and 100
    bytes more, and is as large as the preferred size. *)
Lemma newchunk_size_lower h len :
  let obj_size := obstack_object_size h in
  let sum1 := wrap (obj_size + len) in
  let sum2 := wrap (sum1 + alignment_mask h) in
  in_range len -> in_range (alignment_mask h) ->
  obj_size <= sum1 <= sum2 ->
  newchunk_size h len <= ptrdiff_max ->
  obj_size + len + alignment_mask h + 100 <= newchunk_size h len
  /\ chunk_size h <= newchunk_size h len.
Proof.
  intros obj_size sum1 sum2 Hlen Hmask [Hs1 Hs2] Hmax.
  pose proof (wrap_range (next_free h - object_base h)) as Hobj.
  fold (obstack_object_size h) in Hobj. fold obj_size in Hobj.
  assert (E1 : sum1 = obj_size + len).
  { unfold sum1 in *.
    destruct (wrap_add_cases obj_size len Hobj Hlen) as [[_ E] | [_ E]];
      [exact E |].
    rewrite E in Hs1. unfold in_range in *. lia. }
  assert (E2 : sum2 = obj_size + len + alignment_mask h).
  { unfold sum2 in *. rewrite E1 in *.
    assert (Hr1 : in_range (obj_size + len))
      by (rewrite <- E1; apply wrap_range).
    destruct (wrap_add_cases _ _ Hr1 Hmask) as [[_ E] | [_ E]];
      [exact E |].
    rewrite E in Hs2. unfold in_range in *. lia. }
  assert (Hr2 : in_range sum2) by apply wrap_range.
  destruct (shiftr3_bounds obj_size (proj1 Hobj)) as [Hsh0 Hsh].
  revert Hmax. unfold newchunk_size.
  fold (obstack_object_size h). fold obj_size. fold sum1. fold sum2.
  set (n0 := wrap (sum2 + Z.shiftr obj_size 3 + 100)).
  assert (Hn0 : (sum2 + Z.shiftr obj_size 3 + 100 < size_modulus
                 /\ n0 = sum2 + Z.shiftr obj_size 3 + 100)
                \/ (size_modulus <= sum2 + Z.shiftr obj_size 3 + 100
                    /\ n0 = sum2 + Z.shiftr obj_size 3 + 100 - size_modulus)).
  { unfold n0. unfold in_range in *. rewrite size_modulus_eq in *.
    destruct (Z_lt_le_dec (sum2 + Z.shiftr obj_size 3 + 100)
                18446744073709551616) as [Hlt | Hge].
    - left. split; [exact Hlt |]. apply wrap_small.
      unfold in_range. rewrite size_modulus_eq. lia.
    - right. split; [exact Hge |]. rewrite <- wrap_sub_modulus.
      rewrite size_modulus_eq. apply wrap_small.
      unfold in_range. rewrite size_modulus_eq. lia. }
  rewrite ptrdiff_max_eq. unfold in_range in *. rewrite size_modulus_eq in *.
  destruct Hn0 as [[Hlt En] | [Hge En]]; rewrite En;
    destruct (_ <? sum2) eqn:Ht1;
    [apply Z.ltb_lt in Ht1 | apply Z.ltb_ge in Ht1
    | apply Z.ltb_lt in Ht1 | apply Z.ltb_ge in Ht1];
    destruct (_ <? chunk_size h) eqn:Ht2;
    [apply Z.ltb_lt in Ht2 | apply Z.ltb_ge in Ht2
    | apply Z.ltb_lt in Ht2 | apply Z.ltb_ge in Ht2
    | apply Z.ltb_lt in Ht2 | apply Z.ltb_ge in Ht2
    | apply Z.ltb_lt in Ht2 | apply Z.ltb_ge in Ht2];
    intros Hmax; lia.
Qed.

Lemma typed_headers_set_mem m w : typed_headers w -> typed_headers (set_mem m w).
Proof. exact (fun H => H). Qed.

Lemma typed_map_insert m c ch :
  typed_map m -> in_range (limit ch) -> in_range (prev ch) ->
  typed_map (<[c := ch]> m).
Proof.
  intros Hty Hl Hp x cx Hx.
  destruct (decide (c = x)) as [-> | Hne].
  - rewrite lookup_insert_eq in Hx. injection Hx as <-. auto.
  - rewrite lookup_insert_ne in Hx by exact Hne. eapply Hty, Hx.
Qed.

Lemma typed_map_delete m c : typed_map m -> typed_map (delete c m).
Proof.
  intros Hty x cx Hx.
  apply lookup_delete_Some in Hx as [_ Hx]. eapply Hty, Hx.
Qed.

Lemma sane_last_alloc t evs fn arg size ret :
  Forall sane_event (t ++ EvAlloc fn arg size ret :: evs) ->
  ret <> 0 ->
  0 < ret /\ ret + size < size_modulus /\ size <= ptrdiff_max.
Proof.
  intros H Hret. apply Forall_app in H as [_ H].
  apply Forall_cons in H as [H _]. exact (H Hret).
Qed.

Lemma newchunk_cursors h len w h' w' :
  cursors_in_chunk h w -> in_range len ->
  _obstack_newchunk h len w = Return tt h' w' ->
  sane_allocator w' ->
  cursors_in_chunk h' w' /\ next_free h' + len <= chunk_limit h'.
Proof.
  intros (Hm & Hcs & Hc & Hcob & [Hob Hnf] & Hcl & Hty) Hlen Hret Hsane.
  apply newchunk_return in Hret. cbv zeta in Hret.
  destruct Hret as (Hnc & Hsums & Hh' & _ & _ & Hcase).
  set (nc := hd 0 (oracle w)) in *.
  set (size := newchunk_size h len) in *.
  assert (Hev : 0 < nc /\ nc + size < size_modulus /\ size <= ptrdiff_max).
  { unfold sane_allocator in Hsane.
    destruct (only_object_of_chunk h).
    - destruct Hcase as (oc & _ & _ & Ht). rewrite Ht in Hsane.
      eapply sane_last_alloc; eauto.
    - destruct Hcase as (_ & Ht). rewrite Ht in Hsane.
      eapply sane_last_alloc; eauto. }
  destruct Hev as (Hnc0 & Hfit & Hmax).
  destruct (newchunk_size_lower h len Hlen Hm Hsums Hmax) as [Hlow Hpref].
  fold size in Hlow, Hpref.
  assert (Hobj : obstack_object_size h = next_free h - object_base h).
  { apply wrap_small. unfold in_range. lia. }
  rewrite Hobj in *.
  assert (Hcont : contents nc = nc + 2 * sizeof_void_p).
  { apply wrap_small. unfold in_range, sizeof_void_p in *. lia. }
  assert (Hbase : nc + 2 * sizeof_void_p
                  <= __PTR_ALIGN nc (contents nc) (alignment_mask h)
                  <= nc + 2 * sizeof_void_p + alignment_mask h).
  { rewrite Hcont. apply ptr_align_bounds; [exact Hm | |];
      unfold in_range, sizeof_void_p in *; lia. }
  set (base := __PTR_ALIGN nc (contents nc) (alignment_mask h)) in *.
  assert (Hlim : wrap (nc + size) = nc + size).
  { apply wrap_small. unfold in_range, sizeof_void_p in *. lia. }
  assert (Hnf' : wrap (base + (next_free h - object_base h))
                 = base + (next_free h - object_base h)).
  { apply wrap_small. unfold in_range, sizeof_void_p in *. lia. }
  assert (Hty' : typed_headers w').
  { assert (Hrc : in_range (chunk h)) by (unfold in_range; lia).
    pose proof (wrap_range (nc + size)) as Hrl.
    set (hs := <[nc := mk_chunk (wrap (nc + size)) (chunk h)]> (hdrs w)) in *.
    assert (Hths : typed_map hs)
      by (apply typed_map_insert; assumption).
    unfold typed_headers.
    destruct (only_object_of_chunk h).
    - destruct Hcase as (oc & Hoc & -> & _).
      apply typed_map_delete, typed_map_insert; [exact Hths | exact Hrl |].
      cbn [prev]. eapply (Hths (chunk h) oc). exact Hoc.
    - destruct Hcase as (-> & _). exact Hths. }
  subst h'. split.
  - apply cursors_intro; cbn; rewrite ?Hlim, ?Hnf'; try assumption;
      unfold sizeof_void_p, in_range in *; lia.
  - cbn. rewrite Hlim, Hnf'. unfold sizeof_void_p, in_range in *. lia.
Qed.

Lemma room_eq h w :
  cursors_in_chunk h w -> obstack_room h = chunk_limit h - next_free h.
Proof.
  intros (Hm & Hcs & Hc & Hcob & [Hob Hnf] & Hcl & Hty).
  apply wrap_small. unfold in_range. lia.
Qed.

(** The check for room that opens every growth macro. *)
Lemma ensure_room_cursors h len w h1 w1 :
  cursors_in_chunk h w -> in_range len ->
  (if obstack_room h <? len then _obstack_newchunk h len w
   else Return tt h w) = Return tt h1 w1 ->
  sane_allocator w1 ->
  cursors_in_chunk h1 w1 /\ next_free h1 + len <= chunk_limit h1.
Proof.
  intros Hinv Hlen Hret Hsane.
  destruct (obstack_room h <? len) eqn:Hroom.
  - eapply newchunk_cursors; eauto.
  - injection Hret as <- <-. split; [exact Hinv |].
    apply Z.ltb_ge in Hroom. rewrite (room_eq h w Hinv) in Hroom. lia.
Qed.

(** Moving [next_free] up by [n] bytes for which there is room. *)
Lemma bump_cursors h w w' n :
  cursors_in_chunk h w -> typed_headers w' ->
  0 <= n -> next_free h + n <= chunk_limit h ->
  cursors_in_chunk (set_next_free (wrap (next_free h + n)) h) w'.
Proof.
  intros (Hm & Hcs & Hc & Hcob & [Hob Hnf] & Hcl & Hty) Hty' Hn Hroom.
  assert (E : wrap (next_free h + n) = next_free h + n).
  { apply wrap_small. unfold in_range. lia. }
  apply cursors_intro; cbn; rewrite ?E; try assumption; lia.
Qed.

Lemma cursors_typed h w : cursors_in_chunk h w -> typed_headers w.
Proof. intros (_ & _ & _ & _ & _ & _ & Hty). exact Hty. Qed.

Lemma cursors_flag h w w' b :
  cursors_in_chunk h w -> typed_headers w' ->
  cursors_in_chunk (set_maybe_empty_object b h) w'.
Proof.
  intros (Hm & Hcs & Hc & Hcob & [Hob Hnf] & Hcl & Hty) Hty'.
  apply cursors_intro; cbn; assumption.
Qed.

Lemma free_loop_return fuel :
  forall h obj lp w lp' h' w',
    typed_headers w -> in_range lp ->
    free_loop fuel h obj lp w = Some (Return lp' h' w') ->
    typed_headers w' /\ in_range lp'
    /\ (h' = h \/ h' = set_maybe_empty_object true h)
    /\ (lp' <> 0 -> exists c, hdrs w' !! lp' = Some c /\ inside obj lp' c).
Proof.
  induction fuel as [| fuel IH]; intros h obj lp w lp' h' w' Hty Hlp H;
    rewrite free_loop_eq in H;
    (destruct (lp =? 0) eqn:Hz;
     [injection H as <- <- <-; apply Z.eqb_eq in Hz;
      split; [exact Hty |]; split; [exact Hlp |]; split; [auto |];
      intros Hne; contradiction |]);
    (destruct (hdrs w !! lp) as [c |] eqn:Hc; [| discriminate]);
    (destruct ((obj <=? lp) || (limit c <? obj)) eqn:Htest;
     [| injection H as <- <- <-; apply inside_test in Htest;
        split; [exact Hty |]; split; [exact Hlp |]; split; [auto |];
        intros _; eauto]).
  - discriminate.
  - apply IH in H.
    + destruct H as (Hty' & Hlp' & Hh' & Hin).
      split; [exact Hty' |]. split; [exact Hlp' |]. split; [| exact Hin].
      destruct Hh' as [-> | ->]; auto.
    + unfold typed_headers. rewrite hdrs_call_freefun.
      apply typed_map_delete, Hty.
    + eapply Hty, Hc.
Qed.

Lemma free_loop_not_failed fuel :
  forall h obj lp w h' w',
    free_loop fuel h obj lp w <> Some (AllocFailed h' w').
Proof.
  induction fuel as [| fuel IH]; intros h obj lp w h' w';
    rewrite free_loop_eq;
    destruct (lp =? 0); try discriminate;
    destruct (hdrs w !! lp); try discriminate;
    destruct ((obj <=? lp) || (limit _ <? obj)); try discriminate.
  apply IH.
Qed.

Lemma free_function_cursors h obj w h' w' :
  cursors_in_chunk h w ->
  _obstack_free h obj w = Return tt h' w' ->
  cursors_in_chunk h' w'.
Proof.
  intros Hinv H. unfold _obstack_free in H.
  destruct (free_loop (size (hdrs w)) h obj (chunk h) w) as [o |] eqn:Hloop;
    [| discriminate].
  destruct o as [lp h1 w1 | | |]; cbn [bind] in H; try discriminate.
  pose proof Hinv as (Hm & Hcs & Hc & Hcob & [Hob Hnf] & Hcl & Hty).
  apply free_loop_return in Hloop; [| exact Hty | unfold in_range; lia].
  destruct Hloop as (Hty1 & Hlp & Hh1 & Hin).
  assert (Hinv1 : cursors_in_chunk h1 w1).
  { destruct Hh1 as [-> | ->];
      [| apply (cursors_flag h w w1); assumption].
    apply cursors_intro; assumption. }
  destruct (lp =? 0) eqn:Hz.
  - destruct (obj =? 0); [| discriminate]. injection H as <- <-. exact Hinv1.
  - apply Z.eqb_neq in Hz. destruct (Hin Hz) as (c & Hc1 & Hlo & Hhi).
    rewrite Hc1 in H. injection H as <- <-.
    destruct Hinv1 as (Hm1 & Hcs1 & _ & _ & _ & _ & _).
    destruct (Hty1 lp c Hc1) as [Hrl _].
    apply cursors_intro; cbn; try assumption; unfold in_range in *; lia.
Qed.

Lemma free_macro_cursors h obj w h' w' :
  cursors_in_chunk h w ->
  obstack_free h obj w = Return tt h' w' ->
  cursors_in_chunk h' w'.
Proof.
  intros Hinv H. unfold obstack_free in H.
  destruct ((chunk h <? obj) && (obj <? chunk_limit h)) eqn:Hfast;
    [| eapply free_function_cursors; eauto].
  apply andb_true_iff in Hfast as [Hlo Hhi].
  apply Z.ltb_lt in Hlo. apply Z.ltb_lt in Hhi.
  injection H as <- <-.
  destruct Hinv as (Hm & Hcs & Hc & Hcob & [Hob Hnf] & Hcl & Hty).
  apply cursors_intro; cbn; try assumption; lia.
Qed.

(** ** Leaving through the failure handler *)

Lemma live_blocks_null t fn arg size :
  live_blocks (t ++ [EvAlloc fn arg size 0]) = live_blocks t.
Proof. unfold live_blocks. rewrite foldl_snoc. reflexivity. Qed.

Lemma newchunk_failed h len w h' w' :
  _obstack_newchunk h len w = AllocFailed h' w' ->
  h' = h /\ hdrs w' = hdrs w /\ mem w' = mem w
  /\ live_blocks (trace w') = live_blocks (trace w).
Proof.
  rewrite newchunk_eq. cbv zeta.
  destruct (_ && _).
  - unfold call_chunkfun. destruct (hd 0 (oracle w) =? 0) eqn:Hnull.
    + intros [= <- <-]. apply Z.eqb_eq in Hnull. rewrite Hnull.
      cbn [hdrs mem trace]. rewrite live_blocks_null. auto.
    + destruct (only_object_of_chunk h); [destruct (_ !! _) |];
        discriminate.
  - cbn [Z.eqb]. intros [= <- <-]. auto.
Qed.

Lemma ensure_room_failed h len w h' w' :
  (if obstack_room h <? len then _obstack_newchunk h len w
   else Return tt h w) = AllocFailed h' w' ->
  h' = h /\ hdrs w' = hdrs w /\ mem w' = mem w
  /\ live_blocks (trace w') = live_blocks (trace w).
Proof.
  destruct (obstack_room h <? len); [apply newchunk_failed | discriminate].
Qed.

Lemma free_function_not_failed h obj w h' w' :
  _obstack_free h obj w <> AllocFailed h' w'.
Proof.
  unfold _obstack_free.
  destruct (free_loop (size (hdrs w)) h obj (chunk h) w) as [o |] eqn:Hloop;
    [| discriminate].
  destruct o as [lp h1 w1 | h1 w1 | |]; cbn [bind]; try discriminate.
  - destruct (lp =? 0); [destruct (obj =? 0) | destruct (hdrs w1 !! lp)];
      discriminate.
  - exfalso. eapply free_loop_not_failed, Hloop.
Qed.

Ltac split_bind H :=
  match type of H with
  | bind ?e _ = _ =>
      let E := fresh "Hfirst" in
      destruct e as [? ?h ?w | ?h ?w | ?h ?w |] eqn:E;
      cbn [bind] in H; try discriminate
  end.

Lemma exec_failed o h w h' w' :
  exec o h w = AllocFailed h' w' ->
  h' = h /\ hdrs w' = hdrs w /\ mem w' = mem w
  /\ live_blocks (trace w') = live_blocks (trace w).
Proof.
  destruct o; unfold exec, no_value, value; intros H; split_bind H;
    injection H as <- <-.
  - unfold obstack_make_room in Hfirst. eapply ensure_room_failed, Hfirst.
  - unfold obstack_blank in Hfirst. split_bind Hfirst.
    injection Hfirst as <- <-. eapply ensure_room_failed; eauto.
  - unfold obstack_1grow in Hfirst. split_bind Hfirst.
    injection Hfirst as <- <-. eapply ensure_room_failed; eauto.
  - unfold obstack_ptr_grow in Hfirst. split_bind Hfirst.
    injection Hfirst as <- <-. eapply ensure_room_failed; eauto.
  - unfold obstack_int_grow in Hfirst. split_bind Hfirst.
    injection Hfirst as <- <-. eapply ensure_room_failed; eauto.
  - unfold obstack_grow in Hfirst. split_bind Hfirst.
    injection Hfirst as <- <-. eapply ensure_room_failed; eauto.
  - unfold obstack_grow0 in Hfirst. split_bind Hfirst.
    injection Hfirst as <- <-. eapply ensure_room_failed; eauto.
  - unfold obstack_alloc in Hfirst. split_bind Hfirst.
    injection Hfirst as <- <-.
    unfold obstack_blank in Hfirst0. split_bind Hfirst0.
    injection Hfirst0 as <- <-. eapply ensure_room_failed; eauto.
  - unfold obstack_copy in Hfirst. split_bind Hfirst.
    injection Hfirst as <- <-.
    unfold obstack_grow in Hfirst0. split_bind Hfirst0.
    injection Hfirst0 as <- <-. eapply ensure_room_failed; eauto.
  - unfold obstack_copy0 in Hfirst. split_bind Hfirst.
    injection Hfirst as <- <-.
    unfold obstack_grow0 in Hfirst0. split_bind Hfirst0.
    injection Hfirst0 as <- <-. eapply ensure_room_failed; eauto.
  - unfold obstack_free in Hfirst.
    destruct (_ && _); [discriminate |].
    exfalso. eapply free_function_not_failed, Hfirst.
  - exfalso. eapply free_function_not_failed, Hfirst.
Qed.

(** ** Every operation keeps the cursors in the chunk *)

Ltac after_room H :=
  match type of H with
  | bind ?e _ = _ =>
      let E := fresh "Hroom" in
      destruct e as [[] ?h ?w | ?h ?w | ?h ?w |] eqn:E;
      cbn [bind] in H; try discriminate
  end.

Lemma make_room_cursors h n w h' w' :
  cursors_in_chunk h w ->
  obstack_make_room h n w = Return tt h' w' ->
  sane_allocator w' ->
  cursors_in_chunk h' w' /\ next_free h' + wrap n <= chunk_limit h'.
Proof.
  intros Hinv H Hsane. unfold obstack_make_room in H.
  eapply ensure_room_cursors; eauto using wrap_range.
Qed.

Lemma blank_cursors h n w h' w' :
  cursors_in_chunk h w ->
  obstack_blank h n w = Return tt h' w' ->
  sane_allocator w' ->
  cursors_in_chunk h' w'.
Proof.
  intros Hinv H Hsane. unfold obstack_blank, obstack_blank_fast in H.
  after_room H. injection H as <- <-.
  destruct (ensure_room_cursors h (wrap n) w h0 w0 Hinv (wrap_range n)
              Hroom Hsane) as [Hinv1 Hfit].
  exact (bump_cursors h0 w0 w0 (wrap n) Hinv1 (cursors_typed _ _ Hinv1)
           (proj1 (wrap_range n)) Hfit).
Qed.

Lemma grow_cursors h p n w h' w' :
  cursors_in_chunk h w ->
  obstack_grow h p n w = Return tt h' w' ->
  sane_allocator w' ->
  cursors_in_chunk h' w'.
Proof.
  intros Hinv H Hsane. unfold obstack_grow in H.
  after_room H. injection H as <- <-.
  destruct (ensure_room_cursors h (wrap n) w h0 w0 Hinv (wrap_range n)
              Hroom Hsane) as [Hinv1 Hfit].
  exact (bump_cursors h0 w0 _ (wrap n) Hinv1
           (typed_headers_set_mem _ _ (cursors_typed _ _ Hinv1))
           (proj1 (wrap_range n)) Hfit).
Qed.

Lemma grow_bytes_cursors h n k w h' w' :
  cursors_in_chunk h w -> 0 <= n < size_modulus ->
  (if obstack_room h <? n then _obstack_newchunk h n w else Return tt h w)
  = Return tt h' w' ->
  sane_allocator w' -> typed_headers k ->
  cursors_in_chunk (set_next_free (wrap (next_free h' + n)) h') k.
Proof.
  intros Hinv Hn H Hsane Hk.
  destruct (ensure_room_cursors h n w h' w' Hinv Hn H Hsane) as [Hinv1 Hfit].
  exact (bump_cursors h' w' k n Hinv1 Hk (proj1 Hn) Hfit).
Qed.

Lemma grow1_cursors h d w h' w' :
  cursors_in_chunk h w ->
  obstack_1grow h d w = Return tt h' w' ->
  sane_allocator w' ->
  cursors_in_chunk h' w'.
Proof.
  intros Hinv H Hsane. unfold obstack_1grow, obstack_1grow_fast in H.
  after_room H. injection H as <- <-.
  eapply grow_bytes_cursors; eauto.
  - rewrite size_modulus_eq. lia.
  - apply typed_headers_set_mem.
    eapply cursors_typed, ensure_room_cursors; eauto.
    unfold in_range. rewrite size_modulus_eq. lia.
Qed.

Lemma ptr_grow_cursors h d w h' w' :
  cursors_in_chunk h w ->
  obstack_ptr_grow h d w = Return tt h' w' ->
  sane_allocator w' ->
  cursors_in_chunk h' w'.
Proof.
  intros Hinv H Hsane. unfold obstack_ptr_grow, obstack_ptr_grow_fast in H.
  after_room H. injection H as <- <-.
  eapply grow_bytes_cursors; eauto.
  - rewrite size_modulus_eq. unfold sizeof_void_p. lia.
  - apply typed_headers_set_mem.
    eapply cursors_typed, ensure_room_cursors; eauto.
    unfold in_range, sizeof_void_p. rewrite size_modulus_eq. lia.
Qed.

Lemma int_grow_cursors h d w h' w' :
  cursors_in_chunk h w ->
  obstack_int_grow h d w = Return tt h' w' ->
  sane_allocator w' ->
  cursors_in_chunk h' w'.
Proof.
  intros Hinv H Hsane. unfold obstack_int_grow, obstack_int_grow_fast in H.
  after_room H. injection H as <- <-.
  eapply grow_bytes_cursors; eauto.
  - rewrite size_modulus_eq. unfold sizeof_int. lia.
  - apply typed_headers_set_mem.
    eapply cursors_typed, ensure_room_cursors; eauto.
    unfold in_range, sizeof_int. rewrite size_modulus_eq. lia.
Qed.

Lemma grow0_cursors h p n w h' w' :
  cursors_in_chunk h w ->
  obstack_grow0 h p n w = Return tt h' w' ->
  sane_allocator w' ->
  cursors_in_chunk h' w'.
Proof.
  intros Hinv H Hsane. unfold obstack_grow0 in H.
  after_room H. injection H as <- <-.
  cbn [next_free set_next_free mem set_mem].
  pose proof (wrap_range n) as Hn.
  destruct (ensure_room_cursors h (wrap (wrap n + 1)) w h0 w0 Hinv
              (wrap_range _) Hroom Hsane) as [Hinv1 Hfit].
  pose proof Hinv1 as (Hm & Hcs & Hc & Hcob & [Hob Hnf] & Hcl & Hty).
  assert (Hone : in_range 1) by (unfold in_range; rewrite size_modulus_eq; lia).
  destruct (wrap_add_cases (wrap n) 1 Hn Hone) as [[Hlt E] | [Hge E]];
    rewrite E in Hfit.
  - assert (E1 : wrap (next_free h0 + wrap n) = next_free h0 + wrap n).
    { apply wrap_small. unfold in_range in *. lia. }
    assert (E2 : wrap (next_free h0 + wrap n + 1) = next_free h0 + wrap n + 1).
    { apply wrap_small. unfold in_range in *. lia. }
    rewrite E1, E2.
    apply cursors_intro; cbn; try assumption; unfold in_range in *; lia.
  - assert (E1 : wrap (next_free h0 + wrap n) = next_free h0 - 1).
    { replace (next_free h0 + wrap n)
        with (next_free h0 - 1 + size_modulus)
        by (unfold in_range in *; lia).
      rewrite wrap_add_modulus. apply wrap_small.
      unfold in_range in *. lia. }
    assert (E2 : wrap (next_free h0 - 1 + 1) = next_free h0).
    { replace (next_free h0 - 1 + 1) with (next_free h0) by lia.
      apply wrap_small. unfold in_range in *. lia. }
    rewrite E1, E2.
    apply cursors_intro; cbn; try assumption; unfold in_range in *; lia.
Qed.

Lemma exec_cursors o h w r h' w' :
  cursors_in_chunk h w ->
  exec o h w = Return r h' w' ->
  sane_allocator w' ->
  cursors_in_chunk h' w'.
Proof.
  intros Hinv H Hsane.
  destruct o; unfold exec, no_value, value in H; split_bind H;
    injection H as <- <- <-;
    try match goal with a : unit |- _ => destruct a end.
  - eapply proj1, make_room_cursors; eauto.
  - eapply blank_cursors; eauto.
  - eapply grow1_cursors; eauto.
  - eapply ptr_grow_cursors; eauto.
  - eapply int_grow_cursors; eauto.
  - eapply grow_cursors; eauto.
  - eapply grow0_cursors; eauto.
  - eapply finish_cursors; eauto.
  - unfold obstack_alloc in Hfirst. split_bind Hfirst.
    match goal with a : unit |- _ => destruct a end.
    eapply finish_cursors; [| exact Hfirst].
    unfold obstack_finish in Hfirst. injection Hfirst as _ _ <-.
    eapply blank_cursors; eauto.
  - unfold obstack_copy in Hfirst. split_bind Hfirst.
    match goal with a : unit |- _ => destruct a end.
    eapply finish_cursors; [| exact Hfirst].
    unfold obstack_finish in Hfirst. injection Hfirst as _ _ <-.
    eapply grow_cursors; eauto.
  - unfold obstack_copy0 in Hfirst. split_bind Hfirst.
    match goal with a : unit |- _ => destruct a end.
    eapply finish_cursors; [| exact Hfirst].
    unfold obstack_finish in Hfirst. injection Hfirst as _ _ <-.
    eapply grow0_cursors; eauto.
  - eapply free_macro_cursors; eauto.
  - eapply free_function_cursors; eauto.
Qed.

(** ** Initialization *)

Lemma store_limit_prev c p l w :
  hdrs (store_prev c p (store_limit c l w)) = <[c := mk_chunk l p]> (hdrs w).
Proof.
  rewrite hdrs_store_prev, hdrs_store_limit.
  rewrite lookup_insert_eq. cbn [default limit].
  apply insert_insert_eq.
Qed.

Lemma begin_worker_return h0 size alignment w0 r h w :
  _obstack_begin_worker h0 size alignment w0 = Return r h w ->
  let nc := hd 0 (oracle w0) in
  let mask :=
    wrap ((if alignment =? 0 then DEFAULT_ALIGNMENT else alignment) - 1) in
  let csize := if size =? 0 then wrap (4096 - default_extra) else size in
  let base := __PTR_ALIGN nc (contents nc) mask in
  nc <> 0
  /\ h = set_alloc_failed false
           (set_maybe_empty_object false
              (set_chunk_limit (wrap (nc + csize))
                 (set_next_free base
                    (set_object_base base
                       (set_chunk nc
                          (set_alignment_mask mask
                             (set_chunk_size csize h0)))))))
  /\ hdrs w = <[nc := mk_chunk (wrap (nc + csize)) 0]> (hdrs w0)
  /\ trace w = trace w0 ++ [EvAlloc (chunkfun h0) (call_arg h0) csize nc]
  /\ mem w = mem w0 /\ oracle w = tl (oracle w0).
Proof.
  intros H nc mask csize base. unfold _obstack_begin_worker in H.
  fold mask in H. fold csize in H. unfold call_chunkfun in H. fold nc in H.
  cbn [chunk_size set_chunk_size set_alignment_mask] in H.
  destruct (nc =? 0) eqn:Hnc; [discriminate |].
  apply Z.eqb_neq in Hnc. injection H as _ <- <-.
  split; [exact Hnc |]. split; [reflexivity |].
  rewrite store_limit_prev. autorewrite with world.
  repeat split; reflexivity.
Qed.

Lemma begin_worker_cursors h0 size alignment w0 r h w :
  typed_headers w0 ->
  _obstack_begin_worker h0 size alignment w0 = Return r h w ->
  2 * sizeof_void_p + alignment_mask h <= chunk_size h ->
  sane_allocator w ->
  cursors_in_chunk h w.
Proof.
  intros Hty H Hfit Hsane. apply begin_worker_return in H. cbv zeta in H.
  destruct H as (Hnc & Hh & Hhd & Htr & _ & _).
  set (nc := hd 0 (oracle w0)) in *.
  set (mask := wrap ((if alignment =? 0 then DEFAULT_ALIGNMENT
                      else alignment) - 1)) in *.
  set (csize := if size =? 0 then wrap (4096 - default_extra) else size) in *.
  unfold sane_allocator in Hsane. rewrite Htr in Hsane.
  destruct (sane_last_alloc _ _ _ _ _ _ Hsane Hnc) as (Hnc0 & Hend & Hmax).
  assert (Hm : in_range mask) by apply wrap_range.
  assert (Hmh : alignment_mask h = mask) by (rewrite Hh; reflexivity).
  assert (Hch : chunk_size h = csize) by (rewrite Hh; reflexivity).
  rewrite Hmh, Hch in Hfit.
  assert (Hcont : contents nc = nc + 2 * sizeof_void_p).
  { apply wrap_small. unfold in_range, sizeof_void_p in *. lia. }
  assert (Hbase : nc + 2 * sizeof_void_p
                  <= __PTR_ALIGN nc (contents nc) mask
                  <= nc + 2 * sizeof_void_p + mask).
  { rewrite Hcont. apply ptr_align_bounds; [exact Hm | |];
      unfold in_range, sizeof_void_p in *; lia. }
  assert (Hlim : wrap (nc + csize) = nc + csize).
  { apply wrap_small. unfold in_range, sizeof_void_p in *. lia. }
  assert (Hty' : typed_headers w).
  { unfold typed_headers. rewrite Hhd.
    apply typed_map_insert; [exact Hty | apply wrap_range |].
    cbn [prev]. unfold in_range. rewrite size_modulus_eq. lia. }
  subst h. apply cursors_intro; cbn; rewrite ?Hlim; try assumption;
    unfold sizeof_void_p, in_range in *; lia.
Qed.

Lemma reachable_cursors h w : reachable h w -> cursors_in_chunk h w.
Proof.
  induction 1 as [h0 w0 size alignment cf ff r h w Hty Hb Hfit Hsane
                 | h0 w0 size alignment cf ff arg r h w Hty Hb Hfit Hsane
                 | h w o r h' w' _ IH Hex Hsane
                 | h w o h' w' _ IH Hex Hsane].
  - eapply begin_worker_cursors; eauto.
  - eapply begin_worker_cursors; eauto.
  - eapply exec_cursors; eauto.
  - apply exec_failed in Hex as (-> & Hhd & _).
    destruct IH as (Hm & Hcs & Hc & Hcob & Hord & Hcl & Hty).
    repeat (split; [assumption |]).
    unfold typed_headers. rewrite Hhd. exact Hty.
Qed.

(** ** Concrete runs *)

Lemma fresh_world_typed answers : typed_headers (fresh_world answers).
Proof. intros c ch H. cbn in H. rewrite lookup_empty in H. discriminate. Defined.

Ltac sane_trace :=
  unfold sane_allocator; cbn [trace];
  repeat (first [apply Forall_nil_2 | apply Forall_cons_2]);
  cbn [sane_event]; try exact I;
  intros _; rewrite ?size_modulus_eq, ?ptrdiff_max_eq; lia.

(** ** The blocks of the allocator *)

Lemma live_blocks_snoc t e : live_blocks (t ++ [e]) = replay (live_blocks t) e.
Proof. unfold live_blocks. apply foldl_snoc. Qed.

Lemma live_blocks_snoc2 t e1 e2 :
  live_blocks (t ++ [e1; e2]) = replay (replay (live_blocks t) e1) e2.
Proof. unfold live_blocks. rewrite foldl_app. reflexivity. Qed.

Lemma live_blocks_frees t fn arg cs x :
  x ∉ cs ->
  live_blocks (t ++ map (EvFree fn arg) cs) !! x = live_blocks t !! x.
Proof.
  revert t. induction cs as [| c cs IH]; intros t Hx.
  - cbn [map]. rewrite app_nil_r. reflexivity.
  - apply not_elem_of_cons in Hx as [Hne Hx]. cbn [map].
    replace (t ++ EvFree fn arg c :: map (EvFree fn arg) cs)
      with ((t ++ [EvFree fn arg c]) ++ map (EvFree fn arg) cs)
      by (rewrite <- app_assoc; reflexivity).
    rewrite IH by exact Hx. rewrite live_blocks_snoc. cbn [replay].
    apply lookup_delete_ne. congruence.
Qed.

Lemma well_behaved_head t e evs :
  well_behaved_allocator (t ++ e :: evs) -> fresh_event (live_blocks t) e.
Proof. intros H. apply (H t e evs). reflexivity. Qed.

Lemma newchunk_size_preferred h len : chunk_size h <= newchunk_size h len.
Proof.
  unfold newchunk_size. cbv zeta.
  destruct (_ <? chunk_size h) eqn:E; [lia |]. apply Z.ltb_ge in E. exact E.
Qed.

(** ** The invariant of disciplined use *)

Lemma chain_inv_head h w objs cs :
  chain_inv h w objs cs ->
  exists c0 rest, cs = chunk h :: rest /\ chunk h <> 0
    /\ hdrs w !! chunk h = Some c0 /\ chain (hdrs w) (prev c0) rest.
Proof.
  intros (Hchain & Hne & _). destruct cs as [| x rest]; [contradiction |].
  apply chain_cons_inv in Hchain as (-> & Hx & c0 & Hc0 & Hrest).
  eauto 10.
Qed.

(** The objects may be forgotten. *)
Lemma stack_inv_subset h w objs objs' :
  stack_inv h w objs -> (forall o, o ∈ objs' -> o ∈ objs) ->
  stack_inv h w objs'.
Proof.
  intros (Hm & Hcs & Hlim & Hob & cs & Hc & Hne & Hblk & Hdisj & Hobjs) Hsub.
  repeat (split; [assumption |]). exists cs.
  repeat (split; [assumption |]).
  intros a c Hin. apply Hobjs, Hsub, Hin.
Qed.

Lemma held_subset w objs o : o ∈ held w objs -> o ∈ objs.
Proof. unfold held. intros H. apply list_elem_of_filter in H as [_ H]. exact H. Qed.

Lemma held_allocated w objs a c :
  (a, c) ∈ held w objs -> is_Some (hdrs w !! c).
Proof. unfold held. intros H. apply list_elem_of_filter in H as [H _]. exact H. Qed.

(** The invariant reads [maybe_empty_object] and the bytes of the memory
    nowhere, and [next_free] only while the growing object is at the limit
    of the chunk. *)
Lemma stack_inv_frame h w objs h' w' :
  stack_inv h w objs ->
  alignment_mask h' = alignment_mask h -> chunk_size h' = chunk_size h ->
  chunk h' = chunk h -> chunk_limit h' = chunk_limit h ->
  object_base h' = object_base h ->
  (object_base h mod (alignment_mask h + 1) = 0 \/ next_free h' = next_free h) ->
  hdrs w' = hdrs w -> live_blocks (trace w') = live_blocks (trace w) ->
  stack_inv h' w' objs.
Proof.
  intros (Hm & Hcs & Hlim & Hob & cs & Hc & Hne & Hblk & Hdisj & Hobjs)
    E1 E2 E3 E4 E5 Hnf E6 E7.
  unfold stack_inv, chain_inv. rewrite E1, E2, E3, E4, E5, E6, E7.
  split; [assumption |]. split; [assumption |]. split; [assumption |].
  split.
  { destruct Hob as [Hal | [Hat Hnf']]; [left; exact Hal |].
    destruct Hnf as [Hal | ->]; [left; exact Hal | right; auto]. }
  exists cs.
  repeat (split; [assumption |]). exact Hobjs.
Qed.

Lemma finish_inv h w objs a h' w' :
  stack_inv h w objs ->
  obstack_finish h w = Return a h' w' ->
  stack_inv h' w' ((a, chunk h') :: objs)
  /\ (a mod (alignment_mask h + 1) = 0
      \/ (a = chunk_limit h /\ next_free h = a)).
Proof.
  intros Hinv H.
  pose proof Hinv as (Hm & Hcs & Hlim & Hob & cs & Hcinv).
  destruct (chain_inv_head _ _ _ _ Hcinv) as (c0 & rest & -> & Hnz & Hc0 & _).
  destruct Hcinv as (Hc & Hne & Hblk & Hdisj & Hobjs).
  unfold obstack_finish in H. injection H as <- <- <-.
  set (h1 := if next_free h =? object_base h
             then set_maybe_empty_object true h else h).
  assert (E : chunk h1 = chunk h /\ object_base h1 = object_base h
              /\ next_free h1 = next_free h /\ chunk_limit h1 = chunk_limit h
              /\ alignment_mask h1 = alignment_mask h
              /\ chunk_size h1 = chunk_size h).
  { unfold h1. destruct (next_free h =? object_base h); cbn; auto 10. }
  destruct E as (E1 & E2 & E3 & E4 & E5 & E6).
  set (nf1 := __PTR_ALIGN (object_base h1) (next_free h1) (alignment_mask h1)).
  assert (Hal : nf1 mod (alignment_mask h + 1) = 0).
  { unfold nf1. rewrite E5. apply ptr_align_aligned, Hm. }
  cbn [chunk_limit chunk next_free set_next_free].
  set (h2 := if wrap (chunk_limit h1 - chunk h1) <? wrap (nf1 - chunk h1)
             then set_next_free (chunk_limit h1) (set_next_free nf1 h1)
             else set_next_free nf1 h1).
  assert (F : chunk h2 = chunk h /\ chunk_limit h2 = chunk_limit h
              /\ alignment_mask h2 = alignment_mask h
              /\ chunk_size h2 = chunk_size h
              /\ (next_free h2 = nf1 \/ next_free h2 = chunk_limit h)).
  { unfold h2. destruct (_ <? _); cbn; rewrite ?E1, ?E4, ?E5, ?E6; auto 10. }
  destruct F as (F1 & F2 & F3 & F4 & F5).
  assert (Hret : object_base h mod (alignment_mask h + 1) = 0
                 \/ (object_base h = chunk_limit h
                     /\ next_free h = object_base h)).
  { destruct Hob as [Hal' | [-> ->]]; auto. }
  split; [| exact Hret].
  unfold stack_inv, chain_inv. cbn. rewrite F1, F2, F3, F4.
  split; [exact Hm |]. split; [exact Hcs |]. split; [exact Hlim |].
  split; [destruct F5 as [-> | ->]; auto |].
  exists (chunk h :: rest).
  repeat (split; [assumption |]).
  intros a c Hin. apply elem_of_cons in Hin as [[= -> ->] | Hin].
  - split; [apply elem_of_cons; auto |].
    exists c0. split; [exact Hc0 |].
    rewrite <- (Hlim c0 Hc0).
    destruct Hob as [Hal' | [-> _]]; auto.
  - apply Hobjs, Hin.
Qed.

Lemma newchunk_inv h len w objs h' w' :
  stack_inv h w objs ->
  _obstack_newchunk h len w = Return tt h' w' ->
  well_behaved_allocator (trace w') ->
  stack_inv h' w' (held w' objs)
  /\ object_base h' mod (alignment_mask h' + 1) = 0.
Proof.
  intros Hinv Hret Hwb.
  pose proof Hinv as (Hm & Hcs & Hlim & Hob & cs & Hcinv).
  destruct (chain_inv_head _ _ _ _ Hcinv)
    as (c0 & rest & -> & Hnz & Hc0 & Hrest).
  destruct Hcinv as (Hc & _ & Hblk & Hdisj & Hobjs).
  pose proof (chain_NoDup _ _ _ Hc) as Hnd.
  apply NoDup_cons in Hnd as [Hold Hndr].
  apply newchunk_return in Hret. cbv zeta in Hret.
  destruct Hret as (Hnc & _ & Hh' & _ & _ & Hcase).
  set (nc := hd 0 (oracle w)) in *.
  set (size := newchunk_size h len) in *.
  set (ev := EvAlloc (chunkfun h) (call_arg h) size nc) in *.
  assert (Hfresh : fresh_event (live_blocks (trace w)) ev).
  { destruct (only_object_of_chunk h).
    - destruct Hcase as (oc & _ & _ & Ht). rewrite Ht in Hwb.
      eapply well_behaved_head, Hwb.
    - destruct Hcase as (_ & Ht). rewrite Ht in Hwb.
      eapply well_behaved_head, Hwb. }
  destruct (Hfresh Hnc) as (Hnc0 & Hend & Hfree).
  assert (Hsize : 0 < size)
    by (pose proof (newchunk_size_preferred h len); unfold size; lia).
  assert (Hlim' : wrap (nc + size) = nc + size).
  { apply wrap_small. unfold in_range. lia. }
  rewrite Hlim' in *.
  assert (Hapart : forall x cx,
             x ∈ chunk h :: rest -> hdrs w !! x = Some cx ->
             nc + size <= x \/ limit cx <= nc).
  { intros x cx Hx Hcx. destruct (Hblk x cx Hx Hcx) as (Hlt & Hlive & _).
    destruct (Hfree _ _ Hlive); [left | right]; lia. }
  assert (Hnotin : nc ∉ chunk h :: rest).
  { intros Hin. destruct (chain_lookup _ _ _ _ Hc Hin) as [_ [cx Hcx]].
    destruct (Hblk nc cx Hin Hcx) as [Hlt _].
    destruct (Hapart nc cx Hin Hcx); lia. }
  pose proof Hnotin as Hnotin'.
  apply not_elem_of_cons in Hnotin' as [Hne_old Hnotin_rest].
  set (hs := <[nc := mk_chunk (nc + size) (chunk h)]> (hdrs w)) in *.
  assert (Hal : __PTR_ALIGN nc (contents nc) (alignment_mask h)
                mod (alignment_mask h + 1) = 0)
    by (apply ptr_align_aligned, Hm).
  subst h'. split; [| exact Hal]. unfold stack_inv. cbn.
  split; [exact Hm |]. split; [exact Hcs |].
  destruct (only_object_of_chunk h).
  - (* the old chunk is unlinked and freed *)
    destruct Hcase as (oc & Hoc & Hhd & Ht).
    unfold hs in Hoc. rewrite lookup_insert_ne in Hoc by exact Hne_old.
    assert (oc = c0) by congruence. subst oc.
    assert (Hnew : hdrs w' !! nc = Some (mk_chunk (nc + size) (prev c0))).
    { rewrite Hhd, lookup_delete_ne, lookup_insert_eq by congruence.
      reflexivity. }
    assert (Hkeep : forall x, x ∈ rest -> hdrs w' !! x = hdrs w !! x).
    { intros x Hx. rewrite Hhd.
      rewrite lookup_delete_ne by (intros <-; contradiction).
      unfold hs. rewrite !lookup_insert_ne by (intros <-; contradiction).
      reflexivity. }
    assert (Hlive : forall x, x ∈ rest ->
               live_blocks (trace w') !! x = live_blocks (trace w) !! x).
    { intros x Hx. rewrite Ht, live_blocks_snoc2. cbn [replay ev].
      apply Z.eqb_neq in Hnc. rewrite Hnc.
      rewrite lookup_delete_ne by (intros <-; contradiction).
      rewrite lookup_insert_ne by (intros <-; contradiction).
      reflexivity. }
    split; [intros c1 Hc1; rewrite Hnew in Hc1; injection Hc1 as <-;
            reflexivity |].
    split; [left; exact Hal |].
    exists (nc :: rest). unfold chain_inv. cbn.
    split.
    { econstructor; [exact Hnc | exact Hnew |]. cbn [prev].
      rewrite Hhd. apply chain_delete; [| exact Hold].
      apply chain_insert; [| exact Hnotin_rest].
      apply chain_insert; [exact Hrest | exact Hnotin_rest]. }
    split; [discriminate |].
    split.
    { intros x cx Hx Hcx. apply elem_of_cons in Hx as [-> | Hx].
      - rewrite Hnew in Hcx. injection Hcx as <-. cbn [limit].
        split; [lia |]. split; [| unfold in_range; lia].
        rewrite Ht, live_blocks_snoc2. cbn [replay ev].
        apply Z.eqb_neq in Hnc. rewrite Hnc.
        rewrite lookup_delete_ne by congruence.
        rewrite lookup_insert_eq. f_equal. lia.
      - rewrite Hkeep in Hcx by exact Hx. rewrite Hlive by exact Hx.
        apply Hblk; [apply elem_of_cons; auto | exact Hcx]. }
    split.
    { intros x y cx cy Hx Hy Hxy Hcx Hcy.
      apply elem_of_cons in Hx as [-> | Hx];
        apply elem_of_cons in Hy as [-> | Hy]; try contradiction.
      - rewrite Hnew in Hcx. injection Hcx as <-. cbn [limit].
        rewrite Hkeep in Hcy by exact Hy.
        apply (Hapart y cy); [apply elem_of_cons; auto | exact Hcy].
      - rewrite Hnew in Hcy. injection Hcy as <-. cbn [limit].
        rewrite Hkeep in Hcx by exact Hx.
        destruct (Hapart x cx); [apply elem_of_cons; auto | exact Hcx | |];
          auto.
      - rewrite Hkeep in Hcx by exact Hx. rewrite Hkeep in Hcy by exact Hy.
        apply (Hdisj x y cx cy); auto; apply elem_of_cons; auto. }
    intros a c Hin.
    pose proof (held_allocated _ _ _ _ Hin) as Halloc.
    apply held_subset in Hin.
    destruct (Hobjs a c Hin) as (Hcin & cx & Hcx & Ha).
    apply elem_of_cons in Hcin as [-> | Hcin].
    { rewrite Hhd, lookup_delete_eq in Halloc. destruct Halloc; discriminate. }
    split; [apply elem_of_cons; auto |].
    exists cx. rewrite Hkeep by exact Hcin. auto.
  - (* the old chunk stays *)
    destruct Hcase as (Hhd & Ht).
    assert (Hnew : hdrs w' !! nc = Some (mk_chunk (nc + size) (chunk h))).
    { rewrite Hhd. apply lookup_insert_eq. }
    assert (Hkeep : forall x, x ∈ chunk h :: rest ->
               hdrs w' !! x = hdrs w !! x).
    { intros x Hx. rewrite Hhd. unfold hs.
      apply lookup_insert_ne. intros <-. contradiction. }
    assert (Hlive : forall x, x ∈ chunk h :: rest ->
               live_blocks (trace w') !! x = live_blocks (trace w) !! x).
    { intros x Hx. rewrite Ht, live_blocks_snoc. cbn [replay ev].
      apply Z.eqb_neq in Hnc. rewrite Hnc.
      apply lookup_insert_ne. intros <-. contradiction. }
    split; [intros c1 Hc1; rewrite Hnew in Hc1; injection Hc1 as <-;
            reflexivity |].
    split; [left; exact Hal |].
    exists (nc :: chunk h :: rest). unfold chain_inv. cbn.
    split.
    { econstructor; [exact Hnc | exact Hnew |]. cbn [prev].
      rewrite Hhd. apply chain_insert; [exact Hc | exact Hnotin]. }
    split; [discriminate |].
    split.
    { intros x cx Hx Hcx. apply elem_of_cons in Hx as [-> | Hx].
      - rewrite Hnew in Hcx. injection Hcx as <-. cbn [limit].
        split; [lia |]. split; [| unfold in_range; lia].
        rewrite Ht, live_blocks_snoc. cbn [replay ev].
        apply Z.eqb_neq in Hnc. rewrite Hnc.
        rewrite lookup_insert_eq. f_equal. lia.
      - rewrite Hkeep in Hcx by exact Hx. rewrite Hlive by exact Hx.
        apply Hblk; [exact Hx | exact Hcx]. }
    split.
    { intros x y cx cy Hx Hy Hxy Hcx Hcy.
      apply elem_of_cons in Hx as [-> | Hx];
        apply elem_of_cons in Hy as [-> | Hy]; try contradiction.
      - rewrite Hnew in Hcx. injection Hcx as <-. cbn [limit].
        rewrite Hkeep in Hcy by exact Hy.
        apply (Hapart y cy); [exact Hy | exact Hcy].
      - rewrite Hnew in Hcy. injection Hcy as <-. cbn [limit].
        rewrite Hkeep in Hcx by exact Hx.
        destruct (Hapart x cx); [exact Hx | exact Hcx | |]; auto.
      - rewrite Hkeep in Hcx by exact Hx. rewrite Hkeep in Hcy by exact Hy.
        apply (Hdisj x y cx cy); auto. }
    intros a c Hin. apply held_subset in Hin.
    destruct (Hobjs a c Hin) as (Hcin & cx & Hcx & Ha).
    split; [apply elem_of_cons; auto |].
    exists cx. rewrite Hkeep by exact Hcin. auto.
Qed.

Lemma chain_split_inside m p :
  forall cs lp,
    chain m lp cs ->
    (forall x cx, x ∈ cs -> m !! x = Some cx -> ~ inside p x cx)
    \/ (exists newer c ch older,
          cs = newer ++ c :: older /\ m !! c = Some ch /\ inside p c ch
          /\ forall x cx, x ∈ newer -> m !! x = Some cx -> ~ inside p x cx).
Proof.
  induction cs as [| x cs IH]; intros lp Hchain.
  - left. intros x cx Hx. inversion Hx.
  - apply chain_cons_inv in Hchain as (-> & Hne & cx & Hcx & Hrest).
    destruct (decide (x < p <= limit cx)) as [Hin | Hout].
    + right. exists [], x, cx, cs. cbn [app]. repeat split; auto; try apply Hin.
      intros y cy Hy. inversion Hy.
    + destruct (IH _ Hrest) as [Hall | (newer & c & ch & older & -> & Hc & Hin & Hnew)].
      * left. intros y cy Hy Hcy.
        apply elem_of_cons in Hy as [-> | Hy]; [| eapply Hall; eauto].
        assert (cy = cx) by congruence. subst cy. exact Hout.
      * right. exists (x :: newer), c, ch, older. cbn [app].
        repeat split; auto; try apply Hin.
        intros y cy Hy Hcy.
        apply elem_of_cons in Hy as [-> | Hy]; [| eapply Hnew; eauto].
        assert (cy = cx) by congruence. subst cy. exact Hout.
Qed.

Lemma free_function_inv h w objs p c h' w' :
  stack_inv h w objs ->
  p <> 0 -> (p, c) ∈ objs ->
  _obstack_free h p w = Return tt h' w' ->
  stack_inv h' w' (held w' objs).
Proof.
  intros Hinv Hp Hobj Hret.
  pose proof Hinv as (Hm & Hcs & Hlim & Hob & cs & Hcinv).
  destruct Hcinv as (Hc & Hne & Hblk & Hdisj & Hobjs).
  pose proof (chain_NoDup _ _ _ Hc) as Hnd.
  destruct (chain_split_inside (hdrs w) p cs (chunk h) Hc)
    as [Hall | (newer & c' & ch & older & -> & Hc' & Hin & Hnew)].
  { rewrite (free_exhausted h p w cs Hc Hall) in Hret.
    apply Z.eqb_neq in Hp. rewrite Hp in Hret. discriminate. }
  rewrite (free_found h p w newer c' older ch Hc Hnew Hc' Hin) in Hret.
  injection Hret as <- <-.
  apply NoDup_app in Hnd as (Hnd1 & Hsep & Hnd2).
  assert (Hkeep : forall x, x ∈ c' :: older ->
             hdrs (release h newer w) !! x = hdrs w !! x).
  { intros x Hx. apply hdrs_release_out. intros Hx'. exact (Hsep x Hx' Hx). }
  assert (Hmask : alignment_mask
            (match newer with
             | [] => h
             | _ :: _ => set_maybe_empty_object true h
             end) = alignment_mask h) by (destruct newer; reflexivity).
  assert (Hsz : chunk_size
            (match newer with
             | [] => h
             | _ :: _ => set_maybe_empty_object true h
             end) = chunk_size h) by (destruct newer; reflexivity).
  unfold stack_inv. cbn. rewrite Hmask, Hsz.
  split; [exact Hm |]. split; [exact Hcs |].
  split.
  { intros c1 Hc1. rewrite Hkeep in Hc1 by (apply elem_of_cons; auto).
    congruence. }
  split.
  { destruct (Hobjs p c Hobj) as (Hcin & cx & Hcx & [Hal | Hat]);
      [left; exact Hal |].
    right. destruct (decide (c = c')) as [-> | Hne'].
    - assert (cx = ch) by congruence. subst cx. auto.
    - exfalso.
      assert (Hin' : inside p c cx).
      { unfold inside. destruct (Hblk c cx Hcin Hcx) as [Hlt _]. lia. }
      apply (disjoint_not_inside (hdrs w) (newer ++ c' :: older) c' ch p c cx);
        auto.
      apply elem_of_app. right. apply elem_of_cons. auto. }
  exists (c' :: older). unfold chain_inv. cbn.
  split.
  { apply chain_release; [| intros x Hx Hx'; exact (Hsep x Hx Hx')].
    apply chain_app in Hc. exact Hc. }
  split; [discriminate |].
  assert (Hsub : forall x, x ∈ c' :: older -> x ∈ newer ++ c' :: older)
    by (intros x Hx; apply elem_of_app; auto).
  split.
  { intros x cx Hx Hcx. rewrite Hkeep in Hcx by exact Hx.
    destruct (Hblk x cx (Hsub x Hx) Hcx) as (Hlt & Hlive & Hrng).
    split; [exact Hlt |]. split; [| exact Hrng].
    rewrite trace_release, live_blocks_frees; [exact Hlive |].
    intros Hx'. exact (Hsep x Hx' Hx). }
  split.
  { intros x y cx cy Hx Hy Hxy Hcx Hcy.
    rewrite Hkeep in Hcx by exact Hx. rewrite Hkeep in Hcy by exact Hy.
    apply (Hdisj x y cx cy); auto. }
  intros a c1 Ha.
  pose proof (held_allocated _ _ _ _ Ha) as Halloc.
  apply held_subset in Ha.
  destruct (Hobjs a c1 Ha) as (Hcin & cx & Hcx & Hal).
  assert (Hold : c1 ∈ c' :: older).
  { apply elem_of_app in Hcin as [Hcin | Hcin]; [| exact Hcin].
    rewrite hdrs_release_in in Halloc by exact Hcin.
    destruct Halloc; discriminate. }
  split; [exact Hold |]. exists cx. rewrite Hkeep by exact Hold.
  rewrite Hmask. auto.
Qed.

Lemma free_macro_inv h w objs p c h' w' :
  stack_inv h w objs ->
  p <> 0 -> (p, c) ∈ objs ->
  obstack_free h p w = Return tt h' w' ->
  stack_inv h' w' (held w' objs).
Proof.
  intros Hinv Hp Hobj Hret. unfold obstack_free in Hret.
  destruct ((chunk h <? p) && (p <? chunk_limit h)) eqn:Hfast;
    [| eapply free_function_inv; eauto].
  apply andb_true_iff in Hfast as [Hlo Hhi].
  apply Z.ltb_lt in Hlo. apply Z.ltb_lt in Hhi.
  injection Hret as <- <-.
  apply stack_inv_subset with (objs := objs); [| apply held_subset].
  pose proof Hinv as (Hm & Hcs & Hlim & Hob & cs & Hcinv).
  destruct (chain_inv_head _ _ _ _ Hcinv)
    as (c0 & rest & -> & Hnz & Hc0 & Hrest).
  destruct Hcinv as (Hc & Hne & Hblk & Hdisj & Hobjs).
  unfold stack_inv. cbn.
  split; [exact Hm |]. split; [exact Hcs |]. split; [exact Hlim |].
  split.
  { destruct (Hobjs p c Hobj) as (Hcin & cx & Hcx & [Hal | Hat]);
      [left; exact Hal |].
    exfalso. pose proof (Hlim c0 Hc0) as Hcl.
    destruct (decide (c = chunk h)) as [-> | Hne'].
    - assert (cx = c0) by congruence. subst cx. lia.
    - assert (Hin' : inside p c cx).
      { unfold inside. destruct (Hblk c cx Hcin Hcx) as [Hlt _]. lia. }
      apply (disjoint_not_inside (hdrs w) (chunk h :: rest) (chunk h) c0 p
               c cx); auto.
      + apply elem_of_cons. auto.
      + unfold inside. lia. }
  exists (chunk h :: rest). unfold chain_inv. cbn.
  repeat (split; [assumption |]). exact Hobjs.
Qed.

Lemma wrap_add_wrap a b c :
  wrap (wrap (a + b) + c) = wrap (a + wrap (b + c)).
Proof.
  unfold wrap. rewrite Z.add_mod_idemp_l, Z.add_mod_idemp_r
    by (rewrite size_modulus_eq; lia).
  f_equal. lia.
Qed.

Lemma stack_inv_limit_range h w objs :
  stack_inv h w objs -> in_range (chunk_limit h).
Proof.
  intros (_ & _ & Hlim & _ & cs & Hcinv).
  destruct (chain_inv_head _ _ _ _ Hcinv) as (c0 & rest & -> & _ & Hc0 & _).
  destruct Hcinv as (_ & _ & Hblk & _).
  rewrite (Hlim c0 Hc0).
  apply (Hblk (chunk h) c0); [apply elem_of_cons; auto | exact Hc0].
Qed.

(** After the check for room, the growing object starts at an aligned
    address unless nothing was asked for. *)
Lemma ensure_room_inv h len w objs h1 w1 :
  stack_inv h w objs -> in_range len ->
  (if obstack_room h <? len then _obstack_newchunk h len w
   else Return tt h w) = Return tt h1 w1 ->
  well_behaved_allocator (trace w1) ->
  stack_inv h1 w1 (held w1 objs)
  /\ (object_base h1 mod (alignment_mask h1 + 1) = 0 \/ len = 0).
Proof.
  intros Hinv Hlen H Hwb. destruct (obstack_room h <? len) eqn:Hroom.
  - destruct (newchunk_inv h len w objs h1 w1 Hinv H Hwb) as [Hinv1 Hal].
    auto.
  - injection H as <- <-. split.
    + eapply stack_inv_subset; [exact Hinv | apply held_subset].
    + destruct Hinv as (_ & _ & _ & [Hal | [Hat Hnf]] & _); [auto |].
      right. apply Z.ltb_ge in Hroom. unfold obstack_room in Hroom.
      rewrite Hnf, Z.sub_diag, wrap_0 in Hroom.
      unfold in_range in Hlen. lia.
Qed.

(** After the check for room a growth macro moves [next_free] by the
    bytes it asked for and writes bytes, nothing else. *)
Lemma growth_inv h len w objs h1 w1 h' w' :
  stack_inv h w objs -> in_range len ->
  (if obstack_room h <? len then _obstack_newchunk h len w
   else Return tt h w) = Return tt h1 w1 ->
  well_behaved_allocator (trace w') ->
  alignment_mask h' = alignment_mask h1 -> chunk_size h' = chunk_size h1 ->
  chunk h' = chunk h1 -> chunk_limit h' = chunk_limit h1 ->
  object_base h' = object_base h1 ->
  next_free h' = wrap (next_free h1 + len) ->
  hdrs w' = hdrs w1 -> trace w' = trace w1 ->
  stack_inv h' w' (held w' objs).
Proof.
  intros Hinv Hlen H Hwb E1 E2 E3 E4 E5 Hnf E6 E7. rewrite E7 in Hwb.
  destruct (ensure_room_inv h len w objs h1 w1 Hinv Hlen H Hwb)
    as [Hinv1 Hcase].
  apply stack_inv_subset with (objs := held w1 objs).
  - eapply stack_inv_frame; eauto; [| rewrite E7; reflexivity].
    destruct Hcase as [Hal | ->]; [left; exact Hal |].
    pose proof Hinv1 as (_ & _ & _ & [Hal | [_ Hat]] & _);
      [left; exact Hal |].
    right. rewrite Hnf, Z.add_0_r. apply wrap_small.
    rewrite Hat. eapply stack_inv_limit_range, Hinv1.
  - intros o Ho. unfold held in *. apply list_elem_of_filter in Ho as [Hs Ho].
    apply list_elem_of_filter. rewrite E6 in Hs. auto.
Qed.

Lemma blank_inv h n w objs h' w' :
  stack_inv h w objs ->
  obstack_blank h n w = Return tt h' w' ->
  well_behaved_allocator (trace w') ->
  stack_inv h' w' (held w' objs).
Proof.
  intros Hinv H Hwb. unfold obstack_blank, obstack_blank_fast in H.
  after_room H. injection H as <- <-.
  eapply growth_inv; eauto using wrap_range; reflexivity.
Qed.

Lemma grow_inv h p n w objs h' w' :
  stack_inv h w objs ->
  obstack_grow h p n w = Return tt h' w' ->
  well_behaved_allocator (trace w') ->
  stack_inv h' w' (held w' objs).
Proof.
  intros Hinv H Hwb. unfold obstack_grow in H.
  after_room H. injection H as <- <-.
  eapply growth_inv; eauto using wrap_range; reflexivity.
Qed.

Lemma grow0_inv h p n w objs h' w' :
  stack_inv h w objs ->
  obstack_grow0 h p n w = Return tt h' w' ->
  well_behaved_allocator (trace w') ->
  stack_inv h' w' (held w' objs).
Proof.
  intros Hinv H Hwb. unfold obstack_grow0 in H.
  after_room H. injection H as <- <-.
  eapply growth_inv; eauto using wrap_range; try reflexivity.
  cbn [next_free set_next_free]. apply wrap_add_wrap.
Qed.

Lemma small_range n : 0 <= n < 256 -> in_range n.
Proof. unfold in_range. rewrite size_modulus_eq. lia. Qed.

Lemma finish_held h w objs a h' w' :
  stack_inv h w (held w objs) ->
  obstack_finish h w = Return a h' w' ->
  stack_inv h' w' (held w' ((a, chunk h') :: objs)).
Proof.
  intros Hinv H.
  assert (w' = w) by (unfold obstack_finish in H; congruence). subst w'.
  destruct (finish_inv _ _ _ _ _ _ Hinv H) as [Hinv' _].
  eapply stack_inv_subset; [exact Hinv' |].
  intros o Ho. unfold held in *. apply list_elem_of_filter in Ho as [Hs Ho].
  apply elem_of_cons in Ho as [-> | Ho]; apply elem_of_cons; [auto |].
  right. apply list_elem_of_filter. auto.
Qed.

Lemma exec_inv o h w objs r h' w' :
  stack_inv h w objs ->
  frees_held o objs ->
  exec o h w = Return r h' w' ->
  well_behaved_allocator (trace w') ->
  stack_inv h' w' (held w' (record r h' objs)).
Proof.
  intros Hinv Hfree H Hwb.
  destruct o; unfold exec, no_value, value in H; split_bind H;
    injection H as <- <- <-;
    try match goal with a : unit |- _ => destruct a end;
    cbn [record].
  - unfold obstack_make_room in Hfirst.
    eapply proj1, ensure_room_inv; eauto using wrap_range.
  - eapply blank_inv; eauto.
  - unfold obstack_1grow, obstack_1grow_fast in Hfirst.
    after_room Hfirst. injection Hfirst as <- <-.
    eapply (growth_inv h 1); eauto; try reflexivity.
    apply small_range. lia.
  - unfold obstack_ptr_grow, obstack_ptr_grow_fast in Hfirst.
    after_room Hfirst. injection Hfirst as <- <-.
    eapply (growth_inv h sizeof_void_p); eauto; try reflexivity.
    apply small_range. unfold sizeof_void_p. lia.
  - unfold obstack_int_grow, obstack_int_grow_fast in Hfirst.
    after_room Hfirst. injection Hfirst as <- <-.
    eapply (growth_inv h sizeof_int); eauto; try reflexivity.
    apply small_range. unfold sizeof_int. lia.
  - eapply grow_inv; eauto.
  - eapply grow0_inv; eauto.
  - eapply finish_held; [| exact Hfirst].
    eapply stack_inv_subset; [exact Hinv | apply held_subset].
  - unfold obstack_alloc in Hfirst. split_bind Hfirst.
    match goal with a : unit |- _ => destruct a end.
    eapply finish_held; [| exact Hfirst].
    unfold obstack_finish in Hfirst. injection Hfirst as _ _ <-.
    eapply blank_inv; eauto.
  - unfold obstack_copy in Hfirst. split_bind Hfirst.
    match goal with a : unit |- _ => destruct a end.
    eapply finish_held; [| exact Hfirst].
    unfold obstack_finish in Hfirst. injection Hfirst as _ _ <-.
    eapply grow_inv; eauto.
  - unfold obstack_copy0 in Hfirst. split_bind Hfirst.
    match goal with a : unit |- _ => destruct a end.
    eapply finish_held; [| exact Hfirst].
    unfold obstack_finish in Hfirst. injection Hfirst as _ _ <-.
    eapply grow0_inv; eauto.
  - destruct Hfree as (Hp & c & Hc). eapply free_macro_inv; eauto.
  - destruct Hfree as (Hp & c & Hc). eapply free_function_inv; eauto.
Qed.

Lemma begin_worker_inv h0 size alignment w0 r h w :
  in_range size ->
  _obstack_begin_worker h0 size alignment w0 = Return r h w ->
  is_mask (alignment_mask h) ->
  well_behaved_allocator (trace w) ->
  stack_inv h w [].
Proof.
  intros Hsize H Hmask Hwb. apply begin_worker_return in H. cbv zeta in H.
  destruct H as (Hnc & Hh & Hhd & Htr & _ & _).
  set (nc := hd 0 (oracle w0)) in *.
  set (mask := wrap ((if alignment =? 0 then DEFAULT_ALIGNMENT
                      else alignment) - 1)) in *.
  set (csize := if size =? 0 then wrap (4096 - default_extra) else size) in *.
  rewrite Htr in Hwb. apply well_behaved_head in Hwb.
  destruct (Hwb Hnc) as (Hnc0 & Hend & _).
  assert (Hcs : 0 < csize).
  { unfold csize. destruct (size =? 0) eqn:Hz; [vm_compute; reflexivity |].
    apply Z.eqb_neq in Hz. unfold in_range in Hsize. lia. }
  assert (Hlim : wrap (nc + csize) = nc + csize).
  { apply wrap_small. unfold in_range. lia. }
  rewrite Hlim in *.
  assert (Hmh : alignment_mask h = mask) by (rewrite Hh; reflexivity).
  rewrite Hmh in Hmask.
  assert (Hnew : hdrs w !! nc = Some (mk_chunk (nc + csize) 0))
    by (rewrite Hhd; apply lookup_insert_eq).
  subst h. unfold stack_inv. cbn.
  split; [exact Hmask |]. split; [exact Hcs |].
  split; [intros c1 Hc1; rewrite Hnew in Hc1; injection Hc1 as <-;
          reflexivity |].
  split; [left; apply ptr_align_aligned, Hmask |].
  exists [nc]. unfold chain_inv. cbn.
  split; [econstructor; [exact Hnc | exact Hnew | constructor] |].
  split; [discriminate |].
  split.
  { intros x cx Hx Hcx. apply list_elem_of_singleton in Hx as ->.
    rewrite Hnew in Hcx. injection Hcx as <-. cbn [limit].
    split; [lia |]. split; [| unfold in_range; lia].
    rewrite Htr, live_blocks_snoc. cbn [replay].
    apply Z.eqb_neq in Hnc. rewrite Hnc, lookup_insert_eq. f_equal. lia. }
  split.
  { intros x y cx cy Hx Hy Hxy.
    apply list_elem_of_singleton in Hx as ->.
    apply list_elem_of_singleton in Hy as ->. contradiction. }
  intros a c Hin. inversion Hin.
Qed.

Lemma history_inv h w objs : history h w objs -> stack_inv h w objs.
Proof.
  induction 1 as [h0 w0 size alignment cf ff r h w Hsz Hb Hm Hwb
                 | h0 w0 size alignment cf ff arg r h w Hsz Hb Hm Hwb
                 | h w objs o r h' w' _ IH Hfree Hex Hwb
                 | h w objs o h' w' _ IH Hfree Hex Hwb].
  - eapply begin_worker_inv; eauto.
  - eapply begin_worker_inv; eauto.
  - eapply exec_inv; eauto.
  - apply exec_failed in Hex as (-> & Hhd & _ & Hlive).
    eapply stack_inv_frame; eauto.
Qed.

Lemma well_behaved_nil : well_behaved_allocator [].
Proof. intros [| e1 t1] e t2 H; discriminate. Qed.

Lemma well_behaved_snoc t e :
  well_behaved_allocator t -> fresh_event (live_blocks t) e ->
  well_behaved_allocator (t ++ [e]).
Proof.
  intros Ht He t1 e' t2 Heq.
  induction t2 as [| e2 t2' _] using rev_ind.
  - apply app_inj_tail in Heq as [-> ->]. exact He.
  - replace (t1 ++ e' :: t2' ++ [e2]) with ((t1 ++ e' :: t2') ++ [e2]) in Heq
      by (rewrite <- app_assoc; reflexivity).
    apply app_inj_tail in Heq as [-> _]. apply (Ht t1 e' t2'). reflexivity.
Qed.

(** ** [_obstack_allocated_p] on a chain *)

(** On a chain that ends at the null pointer the loop has fuel enough and
    the function returns: 1 when a chunk of the chain contains [obj], 0
    when none does. *)
Lemma allocated_p_chain h obj w cs :
  chain (hdrs w) (chunk h) cs ->
  ((forall x cx, x ∈ cs -> hdrs w !! x = Some cx -> ~ inside obj x cx) ->
   _obstack_allocated_p h obj w = Some 0)
  /\ (forall c ch, c ∈ cs -> hdrs w !! c = Some ch -> inside obj c ch ->
      _obstack_allocated_p h obj w = Some 1).
Proof.
  intros Hchain. pose proof (chain_length _ _ _ Hchain) as Hlen.
  assert (Hfound : forall newer c ch older,
             cs = newer ++ c :: older -> hdrs w !! c = Some ch ->
             inside obj c ch ->
             (forall x cx, x ∈ newer -> hdrs w !! x = Some cx ->
                           ~ inside obj x cx) ->
             _obstack_allocated_p h obj w = Some 1).
  { intros newer c ch older -> Hc Hin Hnew. unfold _obstack_allocated_p.
    rewrite (allocated_loop_spec obj (hdrs w) newer (chunk h) _ (c :: older));
      auto.
    - cbn [hd].
      assert (Hne : c <> 0).
      { eapply chain_lookup; [exact Hchain |]. apply elem_of_app. right.
        apply elem_of_cons. auto. }
      apply Z.eqb_neq in Hne. rewrite Hne. reflexivity.
    - intros x cx [= <-] Hx. congruence.
    - rewrite length_app in Hlen. lia. }
  split.
  - intros Hall. unfold _obstack_allocated_p.
    rewrite (allocated_loop_spec obj (hdrs w) cs (chunk h) _ []);
      rewrite ?app_nil_r; auto.
    intros x cx [=].
  - intros c ch Hc Hch Hin.
    destruct (chain_split_inside (hdrs w) obj cs (chunk h) Hchain)
      as [Hall | (newer & c' & ch' & older & Heq & Hc' & Hin' & Hnew)].
    + exfalso. exact (Hall c ch Hc Hch Hin).
    + eapply Hfound; eauto.
Qed.

(** ** Bulk free *)

(** C1, as the source has it, at a concrete input.  The allocator puts the
    first chunk at 2000 and the second at 1000.  An object [p] is finished
    in the first chunk, then an object [q] in the second: [q < p].  Freeing
    [p] hands the chunk of [q] to the free function: the object at the
    lower address is gone. *)
Lemma free_releases_object_below :
  exists h1 w1 h2 w2 h3 w3 h4 w4,
    let p := 2016 in
    let q := 1016 in
    _obstack_begin blank_stack 64 8 1 2 (fresh_world [2000; 1000])
    = Return 1 h1 w1
    /\ obstack_copy h1 5000 8 w1 = Return p h2 w2
    /\ obstack_alloc h2 100 w2 = Return q h3 w3
    /\ q < p
    /\ object_kept w3 q
    /\ obstack_free h3 p w3 = Return tt h4 w4
    /\ object_base h4 = p
    /\ ~ object_kept w4 q
    /\ trace w4 = trace w3 ++ [EvFree 2 None 1000].
Proof.
  eexists _, _, _, _, _, _, _, _. cbv zeta.
  split; [vm_compute; reflexivity |].
  split; [vm_compute; reflexivity |].
  split; [vm_compute; reflexivity |].
  split; [reflexivity |].
  split.
  { exists 1000, (mk_chunk 1207 2000). split; [vm_compute; reflexivity |].
    cbn [limit]. lia. }
  split; [vm_compute; reflexivity |].
  split; [reflexivity |].
  split; [| vm_compute; reflexivity].
  intros (d & c & Hd & Hq).
  match type of Hd with
  | hdrs ?w !! _ = _ =>
      assert (Hw : hdrs w = {[2000 := mk_chunk 2064 0]})
        by (vm_compute; reflexivity)
  end.
  rewrite Hw in Hd. apply lookup_singleton_Some in Hd as [<- <-]. lia.
Qed.

(** C1, amended: [p] is inside the chunk [c] of the stack, whose chunks
    occupy disjoint address ranges.  After [free (stack, p)], by the macro
    and by the function alike, [object_base] and [next_free] are [p],
    [chunk] is [c] and [chunk_limit] its limit; the chunks newer than [c],
    and no other, were handed to the free function, in order; [c] and the
    older chunks stay allocated with their headers and still form the
    chain; and no byte of the memory changed, so that every object
    finished in [c] below [p] or in an older chunk keeps its address and
    its contents. *)
Theorem free_rewinds_to_object (h : obstack) (w : world) (p : Z)
    (newer : list Z) (c : Z) (older : list Z) (ch : _obstack_chunk) :
  chain (hdrs w) (chunk h) (newer ++ c :: older) ->
  disjoint_chunks (hdrs w) (newer ++ c :: older) ->
  (forall c0, hdrs w !! chunk h = Some c0 -> chunk_limit h = limit c0) ->
  hdrs w !! c = Some ch -> inside p c ch ->
  exists h' w',
    obstack_free h p w = Return tt h' w'
    /\ _obstack_free h p w = Return tt h' w'
    /\ object_base h' = p /\ next_free h' = p
    /\ chunk h' = c /\ chunk_limit h' = limit ch
    /\ trace w' = trace w ++ map (EvFree (freefun h) (call_arg h)) newer
    /\ (forall x, x ∈ newer -> hdrs w' !! x = None)
    /\ (forall x, x ∉ newer -> hdrs w' !! x = hdrs w !! x)
    /\ chain (hdrs w') c (c :: older)
    /\ mem w' = mem w.
Proof.
  intros Hchain Hdisj Hlim Hc Hin.
  pose proof (chain_NoDup _ _ _ Hchain) as Hnd.
  assert (Hcin : c ∈ newer ++ c :: older)
    by (apply elem_of_app; right; apply elem_of_cons; auto).
  assert (Hfresh : c ∉ newer).
  { apply NoDup_app in Hnd as (_ & Hd & _). intros Hx.
    apply (Hd c Hx), elem_of_cons. auto. }
  assert (Hout : forall x cx,
             x ∈ newer -> hdrs w !! x = Some cx -> ~ inside p x cx).
  { intros x cx Hx Hcx.
    apply (disjoint_not_inside (hdrs w) (newer ++ c :: older) c ch p x cx);
      auto.
    - apply elem_of_app. auto.
    - intros ->. contradiction. }
  pose proof (free_found h p w newer c older ch Hchain Hout Hc Hin) as Hfree.
  eexists _, _. split; [| split; [exact Hfree |]].
  - unfold obstack_free.
    destruct ((chunk h <? p) && (p <? chunk_limit h)) eqn:Hfast;
      [| exact Hfree].
    apply andb_true_iff in Hfast as [Hlo Hhi].
    apply Z.ltb_lt in Hlo. apply Z.ltb_lt in Hhi.
    destruct newer as [| x newer].
    + cbn [app] in Hchain.
      apply chain_cons_inv in Hchain as (Hcur & _).
      cbn [release foldl]. f_equal.
      specialize (Hlim ch). rewrite Hcur in Hlim. specialize (Hlim Hc).
      destruct h; cbn in *; subst; reflexivity.
    + exfalso. cbn [app] in Hchain.
      apply chain_cons_inv in Hchain as (Hcur & _ & cx & Hcx & _).
      apply (Hout x cx); [apply elem_of_cons; auto | exact Hcx |].
      specialize (Hlim cx). rewrite Hcur in Hlim. specialize (Hlim Hcx).
      unfold inside. lia.
  - split; [reflexivity |]. split; [reflexivity |].
    split; [reflexivity |]. split; [reflexivity |].
    split; [apply trace_release |].
    split; [intros x Hx; apply hdrs_release_in, Hx |].
    split; [intros x Hx; apply hdrs_release_out, Hx |].
    split; [| apply mem_release].
    apply chain_app in Hchain. cbn [hd] in Hchain.
    apply chain_release; [exact Hchain |].
    apply NoDup_app in Hnd as (_ & Hd & _). exact Hd.
Qed.

Lemma free_rewinds_to_object_witness :
  exists h' w',
    obstack_free two_chunk_stack 2016 two_chunk_world = Return tt h' w'
    /\ _obstack_free two_chunk_stack 2016 two_chunk_world = Return tt h' w'
    /\ object_base h' = 2016 /\ next_free h' = 2016
    /\ chunk h' = 2000 /\ chunk_limit h' = 2064
    /\ trace w' = trace two_chunk_world ++ [EvFree 2 None 1000]
    /\ hdrs w' !! 1000 = None
    /\ hdrs w' !! 2000 = Some (mk_chunk 2064 0)
    /\ mem w' = mem two_chunk_world.
Proof.
  destruct (free_rewinds_to_object two_chunk_stack two_chunk_world 2016
              [1000] 2000 [] (mk_chunk 2064 0) two_chunk_chain
              two_chunk_disjoint)
    as (h' & w' & H1 & H2 & H3 & H4 & H5 & H6 & H7 & H8 & H9 & _ & H10).
  - intros c0 Hc0. vm_compute in Hc0. injection Hc0 as <-. reflexivity.
  - reflexivity.
  - unfold inside. cbn [limit]. lia.
  - exists h', w'. repeat split; try assumption.
    + apply H8, elem_of_cons. auto.
    + rewrite H9; [reflexivity |].
      intros Hx. apply elem_of_cons in Hx as [Hx | Hx];
        [discriminate | inversion Hx].
Defined.

(** ** Recycling of the old chunk *)



(** ** Alignment of the objects *)

(** C3, as the source has it, at a concrete input: a chunk of 100 bytes at
    2000, alignment 8.  An object of 82 bytes is finished at 2016; the
    padding after it would pass the end of the chunk at 2100, so the guard
    of [finish] puts [next_free], and with it [object_base], at
    [chunk_limit].  The next [finish] returns 2100, the address of an
    empty object, which is not a multiple of 8. *)
Lemma finish_returns_unaligned_address :
  exists h1 w1 h2 w2 h3 w3,
    _obstack_begin blank_stack 100 8 1 2 (fresh_world [2000]) = Return 1 h1 w1
    /\ alignment_mask h1 + 1 = 8
    /\ obstack_alloc h1 82 w1 = Return 2016 h2 w2
    /\ obstack_finish h2 w2 = Return 2100 h3 w3
    /\ 2100 mod (alignment_mask h2 + 1) <> 0.
Proof.
  eexists _, _, _, _, _, _.
  split; [vm_compute; reflexivity |].
  split; [reflexivity |].
  split; [vm_compute; reflexivity |].
  split; [vm_compute; reflexivity |].
  vm_compute. discriminate.
Qed.

Lemma finish_fields h w a h' w' :
  obstack_finish h w = Return a h' w' ->
  a = object_base h /\ w' = w
  /\ alignment_mask h' = alignment_mask h
  /\ chunk_limit h' = chunk_limit h.
Proof.
  unfold obstack_finish. intros [= <- <- <-].
  destruct (next_free h =? object_base h);
    cbn [chunk_limit chunk next_free set_next_free alignment_mask
         set_maybe_empty_object];
    destruct (_ <? _); auto.
Qed.

Lemma finish_at_history h w objs a h' w' :
  history h w objs ->
  obstack_finish h w = Return a h' w' ->
  a mod (alignment_mask h' + 1) = 0
  \/ (a = chunk_limit h'
      /\ exists h1, obstack_finish h1 w' = Return a h' w'
                    /\ next_free h1 = object_base h1).
Proof.
  intros Hhist Hfin. apply history_inv in Hhist.
  destruct (finish_inv _ _ _ _ _ _ Hhist Hfin) as [_ Hret].
  destruct (finish_fields _ _ _ _ _ Hfin) as (Ha & -> & Hmask & Hlim).
  rewrite Hmask, Hlim.
  destruct Hret as [Hal | [Hat Hnf]]; [left; exact Hal |].
  right. split; [exact Hat |]. exists h. split; [exact Hfin | congruence].
Qed.

(** C3, amended: the stack was initialized with a chunk size that has
    room for the header of a chunk and the padding of the first object,
    so that no object lies on the header of a chunk, and is in
    disciplined use (the alignment is a power of two, the allocator
    returns blocks of at most [PTRDIFF_MAX] bytes that overlap no block
    the stack still holds, and [free] is only given non-null addresses
    that [finish] returned, from chunks that the stack still holds).
    Then every address that [finish], [alloc], [copy] or [copy0] returns
    is a multiple of the alignment, unless it is the [chunk_limit] of the
    current chunk and the object that was finished there is empty. *)
Theorem finish_aligned_or_at_limit (h : obstack) (w : world)
    (objs : list (Z * Z)) (o : op) (a : Z) (h' : obstack) (w' : world) :
  reachable h w ->
  history h w objs ->
  exec o h w = Return (Some a) h' w' ->
  sane_allocator w' ->
  well_behaved_allocator (trace w') ->
  a mod (alignment_mask h' + 1) = 0
  \/ (a = chunk_limit h'
      /\ exists h1, obstack_finish h1 w' = Return a h' w'
                    /\ next_free h1 = object_base h1).
Proof.
  intros _ Hhist Hex _ Hwb.
  destruct o; unfold exec, no_value, value in Hex; split_bind Hex;
    injection Hex as <- <- <-.
  - eapply finish_at_history; eauto.
  - unfold obstack_alloc in Hfirst. split_bind Hfirst.
    match goal with u : unit |- _ => destruct u end.
    destruct (finish_fields _ _ _ _ _ Hfirst) as (_ & -> & _ & _).
    eapply finish_at_history; [| exact Hfirst].
    apply (hist_return h w objs (Blank length) None h1 w1 Hhist I);
      [| exact Hwb].
    unfold exec, no_value. rewrite Hfirst0. reflexivity.
  - unfold obstack_copy in Hfirst. split_bind Hfirst.
    match goal with u : unit |- _ => destruct u end.
    destruct (finish_fields _ _ _ _ _ Hfirst) as (_ & -> & _ & _).
    eapply finish_at_history; [| exact Hfirst].
    apply (hist_return h w objs (Grow where_ length) None h1 w1 Hhist I);
      [| exact Hwb].
    unfold exec, no_value. rewrite Hfirst0. reflexivity.
  - unfold obstack_copy0 in Hfirst. split_bind Hfirst.
    match goal with u : unit |- _ => destruct u end.
    destruct (finish_fields _ _ _ _ _ Hfirst) as (_ & -> & _ & _).
    eapply finish_at_history; [| exact Hfirst].
    apply (hist_return h w objs (Grow0 where_ length) None h1 w1 Hhist I);
      [| exact Hwb].
    unfold exec, no_value. rewrite Hfirst0. reflexivity.
Qed.

Lemma finish_aligned_or_at_limit_witness :
  exists h',
    exec Finish tail_stack tail_world = Return (Some 2100) h' tail_world
    /\ alignment_mask h' + 1 = 8
    /\ (2100 mod (alignment_mask h' + 1) = 0
        \/ (2100 = chunk_limit h'
            /\ exists h1, obstack_finish h1 tail_world
                          = Return 2100 h' tail_world
                          /\ next_free h1 = object_base h1)).
Proof.
  assert (Hwb : well_behaved_allocator (trace tail_world)).
  { apply (well_behaved_snoc []); [apply well_behaved_nil |].
    intros _. rewrite size_modulus_eq.
    split; [lia |]. split; [lia |].
    intros b sz Hb. cbn in Hb. rewrite lookup_empty in Hb. discriminate. }
  assert (Hhist : history tail_stack tail_world
                    (held tail_world (record (Some 2016) tail_stack []))).
  { apply (hist_return begun_stack tail_world [] (Alloc 82)).
    - apply (hist_begin blank_stack (fresh_world [2000]) 100 8 1 2 1).
      + unfold in_range. rewrite size_modulus_eq. lia.
      + vm_compute. reflexivity.
      + exists 3. split; [unfold size_bits; lia | reflexivity].
      + exact Hwb.
    - exact I.
    - vm_compute. reflexivity.
    - exact Hwb. }
  assert (Hreach : reachable tail_stack tail_world).
  { apply (reach_return begun_stack tail_world (Alloc 82) (Some 2016)).
    - apply (reach_begin blank_stack (fresh_world [2000]) 100 8 1 2 1).
      + apply fresh_world_typed.
      + vm_compute. reflexivity.
      + vm_compute. discriminate.
      + sane_trace.
    - vm_compute. reflexivity.
    - sane_trace. }
  eexists. split; [vm_compute; reflexivity |]. split; [reflexivity |].
  apply (finish_aligned_or_at_limit tail_stack tail_world _ Finish 2100 _
           tail_world Hreach Hhist);
    [vm_compute; reflexivity | sane_trace | exact Hwb].
Defined.

(** ** Overflow of the size of the new chunk *)

(** When the first two sums did not overflow and the headroom addition
    does, the size falls back to the second sum, raised to the preferred
    chunk size when that is larger; the second sum is then larger than
    [PTRDIFF_MAX]. *)
Lemma newchunk_fallback_size (h : obstack) (length : Z) :
  in_range length -> in_range (alignment_mask h) ->
  let obj_size := obstack_object_size h in
  let sum2 := obj_size + length + alignment_mask h in
  sum2 < size_modulus ->
  size_modulus <= sum2 + Z.shiftr obj_size 3 + 100 ->
  wrap (obj_size + length) = obj_size + length
  /\ wrap (obj_size + length + alignment_mask h) = sum2
  /\ newchunk_size h length = Z.max sum2 (chunk_size h)
  /\ ptrdiff_max < sum2.
Proof.
  intros Hlen Hmask obj_size sum2 Hsum2 Hover.
  pose proof (wrap_range (next_free h - object_base h)) as Hobj.
  fold (obstack_object_size h) in Hobj. fold obj_size in Hobj.
  destruct (shiftr3_bounds obj_size (proj1 Hobj)) as [Hsh0 Hsh].
  assert (E1 : wrap (obj_size + length) = obj_size + length).
  { apply wrap_small. unfold in_range in *. lia. }
  assert (E2 : wrap (obj_size + length + alignment_mask h) = sum2).
  { apply wrap_small. unfold in_range in *. unfold sum2. lia. }
  assert (E3 : wrap (sum2 + Z.shiftr obj_size 3 + 100)
               = sum2 + Z.shiftr obj_size 3 + 100 - size_modulus).
  { rewrite <- wrap_sub_modulus. apply wrap_small.
    unfold in_range in *. rewrite size_modulus_eq in *. lia. }
  split; [exact E1 |]. split; [exact E2 |]. split.
  - unfold newchunk_size. fold (obstack_object_size h). fold obj_size.
    rewrite E1, E2, E3.
    replace (sum2 + Z.shiftr obj_size 3 + 100 - size_modulus <? sum2)
      with true by (symmetry; apply Z.ltb_lt; unfold in_range in *;
          rewrite size_modulus_eq in *; lia).
    destruct (sum2 <? chunk_size h) eqn:Hcs.
    + apply Z.ltb_lt in Hcs. lia.
    + apply Z.ltb_ge in Hcs. lia.
  - rewrite ptrdiff_max_eq. unfold in_range in *.
    rewrite size_modulus_eq in *. unfold sum2 in *. lia.
Qed.

(** C4: an overflow of any of the three additions of the size computation
    ends in the failure handler, with the stack, the chunk headers and
    the bytes untouched.  An overflow of [obj_size + length] or of the
    addition of the alignment mask is caught by the two comparisons and
    the allocator is not called.  An overflow of the headroom addition
    alone is caught by the third comparison, which puts the size back to
    the second sum (or the preferred chunk size when that is larger):
    this size is above [PTRDIFF_MAX], the allocator is called with it
    once and, being sane, answers with the null pointer. *)
Theorem newchunk_overflow_is_failure (h : obstack) (length : Z) (w : world) :
  in_range length -> in_range (alignment_mask h) ->
  let obj_size := obstack_object_size h in
  let sum1 := wrap (obj_size + length) in
  let sum2 := wrap (sum1 + alignment_mask h) in
  size_modulus <= obj_size + length
  \/ size_modulus <= sum1 + alignment_mask h
  \/ size_modulus <= sum2 + Z.shiftr obj_size 3 + 100 ->
  sane_event
    (EvAlloc (chunkfun h) (call_arg h) (newchunk_size h length)
       (hd 0 (oracle w))) ->
  exists w',
    _obstack_newchunk h length w = AllocFailed h w'
    /\ hdrs w' = hdrs w /\ mem w' = mem w
    /\ (size_modulus <= obj_size + length
        \/ size_modulus <= sum1 + alignment_mask h ->
        w' = w)
    /\ (obj_size + length < size_modulus ->
        sum1 + alignment_mask h < size_modulus ->
        ptrdiff_max < newchunk_size h length
        /\ newchunk_size h length = Z.max sum2 (chunk_size h)
        /\ trace w'
           = trace w
             ++ [EvAlloc (chunkfun h) (call_arg h) (newchunk_size h length)
                   0]).
Proof.
  intros Hlen Hmask obj_size sum1 sum2 Hover Hsane.
  pose proof (wrap_range (next_free h - object_base h)) as Hobj.
  fold (obstack_object_size h) in Hobj. fold obj_size in Hobj.
  pose proof (wrap_range (obj_size + length)) as Hs1. fold sum1 in Hs1.
  destruct (Z_lt_le_dec (obj_size + length) size_modulus) as [H1 | H1];
    [destruct (Z_lt_le_dec (sum1 + alignment_mask h) size_modulus)
       as [H2 | H2] |].
  - (* only the headroom addition overflows *)
    assert (Hover3 : size_modulus <= sum2 + Z.shiftr obj_size 3 + 100)
      by (destruct Hover as [? | [? | ?]]; [lia | lia | assumption]).
    assert (E1 : sum1 = obj_size + length)
      by (apply wrap_small; unfold in_range in *; lia).
    assert (E2 : sum2 = obj_size + length + alignment_mask h)
      by (unfold sum2; rewrite E1; apply wrap_small;
          unfold in_range in *; lia).
    destruct (newchunk_fallback_size h length Hlen Hmask)
      as (_ & _ & Hsize & Hmax);
      [fold obj_size; lia | fold obj_size; lia |].
    fold obj_size in Hsize, Hmax. rewrite <- E2 in Hsize, Hmax.
    assert (Hbig : ptrdiff_max < newchunk_size h length)
      by (rewrite Hsize; lia).
    assert (Hret : hd 0 (oracle w) = 0).
    { destruct (decide (hd 0 (oracle w) = 0)) as [E | Hne]; [exact E |].
      destruct (Hsane Hne) as (_ & _ & Hle). lia. }
    assert (Hc : (obj_size <=? sum1) && (sum1 <=? sum2) = true).
    { apply andb_true_iff.
      split; apply Z.leb_le; unfold in_range in *; lia. }
    eexists. split.
    { rewrite newchunk_eq. cbv zeta. fold obj_size. fold sum1. fold sum2.
      rewrite Hc. unfold call_chunkfun. rewrite Hret. reflexivity. }
    cbn [hdrs mem trace].
    split; [reflexivity |]. split; [reflexivity |].
    split; [intros [? | ?]; lia |].
    intros _ _. auto.
  - (* the addition of the alignment mask overflows *)
    assert (Hc : (obj_size <=? sum1) && (sum1 <=? sum2) = false).
    { apply andb_false_iff. right. apply Z.leb_gt.
      destruct (wrap_add_cases _ _ Hs1 Hmask) as [[H E] | [H E]];
        [lia |].
      unfold sum2. rewrite E. unfold in_range in *. lia. }
    exists w. split.
    { rewrite newchunk_eq. cbv zeta. fold obj_size. fold sum1. fold sum2.
      rewrite Hc. reflexivity. }
    split; [reflexivity |]. split; [reflexivity |].
    split; [reflexivity | intros; lia].
  - (* the first addition overflows *)
    assert (Hc : (obj_size <=? sum1) && (sum1 <=? sum2) = false).
    { apply andb_false_iff. left. apply Z.leb_gt.
      destruct (wrap_add_cases obj_size length Hobj Hlen) as [[H E] | [H E]];
        [lia |].
      unfold sum1. rewrite E. unfold in_range in *. lia. }
    exists w. split.
    { rewrite newchunk_eq. cbv zeta. fold obj_size. fold sum1. fold sum2.
      rewrite Hc. reflexivity. }
    split; [reflexivity |]. split; [reflexivity |].
    split; [reflexivity | intros; lia].
Qed.

Lemma newchunk_overflow_is_failure_witness :
  exists w',
    _obstack_newchunk overflow_stack overflow_length
      (mk_world (hdrs overflow_world) (mem overflow_world) [] [])
    = AllocFailed overflow_stack w'
    /\ ptrdiff_max < newchunk_size overflow_stack overflow_length
    /\ trace w'
       = [EvAlloc 1 None (newchunk_size overflow_stack overflow_length) 0].
Proof.
  assert (Hl : in_range overflow_length)
    by (vm_compute; split; [discriminate | reflexivity]).
  assert (Hm : in_range (alignment_mask overflow_stack))
    by (vm_compute; split; [discriminate | reflexivity]).
  destruct (newchunk_overflow_is_failure overflow_stack overflow_length
              (mk_world (hdrs overflow_world) (mem overflow_world) [] [])
              Hl Hm) as (w' & Hfail & _ & _ & _ & Hcall).
  - right. right. vm_compute. discriminate.
  - intros Hne. exfalso. apply Hne. reflexivity.
  - destruct Hcall as (Hbig & _ & Htrace);
      [vm_compute; reflexivity | vm_compute; reflexivity |].
    exists w'. split; [exact Hfail |]. split; [exact Hbig | exact Htrace].
Defined.

(** The assumption on the allocator is needed.  The object is empty, the
    mask is 0 and [length] is [size_modulus - 100]: the headroom addition
    wraps around to 0 and the size falls back to the second sum.  If the
    allocator grants these [size_modulus - 100] bytes, more than
    [PTRDIFF_MAX], the migration returns. *)
Lemma newchunk_headroom_overflow_returns :
  size_modulus
  <= obstack_object_size overflow_stack + overflow_length
     + alignment_mask overflow_stack
     + Z.shiftr (obstack_object_size overflow_stack) 3 + 100
  /\ ptrdiff_max < overflow_length
  /\ exists h' w',
       _obstack_newchunk overflow_stack overflow_length overflow_world
       = Return tt h' w'
       /\ trace w' = [EvAlloc 1 None overflow_length 16].
Proof.
  split; [vm_compute; discriminate |].
  split; [vm_compute; reflexivity |].
  eexists _, _. split; vm_compute; reflexivity.
Qed.

(** ** A pointer at the limit of a chunk *)

(** C5, as the source has it, at a concrete input: the pointer 2064 is the
    limit of the chunk at 2000.  The walk of [_obstack_free] releases the
    newer chunk at 1000 and stops at the chunk at 2000, which stays
    allocated and becomes the current chunk; [_obstack_allocated_p]
    answers 1. *)
Lemma pointer_at_limit_not_released :
  hdrs two_chunk_world !! 2000 = Some (mk_chunk 2064 0)
  /\ exists h' w',
       _obstack_free two_chunk_stack 2064 two_chunk_world = Return tt h' w'
       /\ chunk h' = 2000 /\ object_base h' = 2064
       /\ hdrs w' !! 2000 = Some (mk_chunk 2064 0)
       /\ trace w' = trace two_chunk_world ++ [EvFree 2 None 1000]
       /\ _obstack_allocated_p two_chunk_stack 2064 two_chunk_world = Some 1.
Proof.
  split; [reflexivity |].
  eexists _, _. split; [vm_compute; reflexivity |].
  repeat split; vm_compute; reflexivity.
Qed.

(** C5, amended: the walk of [_obstack_free] over the chain keeps the
    chunk [c], the first that the newer chunks do not contain [obj] in,
    exactly when [c < obj <= limit]: a pointer equal to the limit is
    inside, the walk stops at [c] without releasing it, and
    [_obstack_allocated_p] answers 1.  When [obj] is at or below the
    address of [c], or strictly above its limit, the walk hands [c] to
    the free function and goes on with the older chunks: it returns in
    one of them, or ends in [abort ()] when none contains [obj], and
    [_obstack_allocated_p] answers 1 or 0 accordingly. *)
Theorem chunk_kept_iff_pointer_inside (h : obstack) (w : world) (obj : Z)
    (newer : list Z) (c : Z) (older : list Z) (ch : _obstack_chunk) :
  chain (hdrs w) (chunk h) (newer ++ c :: older) ->
  hdrs w !! c = Some ch ->
  obj <> 0 ->
  (forall x cx, x ∈ newer -> hdrs w !! x = Some cx -> ~ inside obj x cx) ->
  (c < obj <= limit ch ->
   exists h' w',
     _obstack_free h obj w = Return tt h' w'
     /\ chunk h' = c /\ object_base h' = obj /\ next_free h' = obj
     /\ hdrs w' !! c = Some ch
     /\ trace w' = trace w ++ map (EvFree (freefun h) (call_arg h)) newer
     /\ _obstack_allocated_p h obj w = Some 1)
  /\ (obj <= c \/ limit ch < obj ->
      exists h' w' released kept,
        older = released ++ kept
        /\ hdrs w' !! c = None
        /\ trace w'
           = trace w
             ++ map (EvFree (freefun h) (call_arg h))
                  (newer ++ c :: released)
        /\ ((_obstack_free h obj w = Return tt h' w'
             /\ head kept = Some (chunk h')
             /\ _obstack_allocated_p h obj w = Some 1)
            \/ (_obstack_free h obj w = Aborted h' w'
                /\ kept = []
                /\ _obstack_allocated_p h obj w = Some 0))).
Proof.
  intros Hchain Hc Hobj Hnew.
  pose proof (chain_NoDup _ _ _ Hchain) as Hnd.
  assert (Hcin : c ∈ newer ++ c :: older)
    by (apply elem_of_app; right; apply elem_of_cons; auto).
  destruct (allocated_p_chain h obj w _ Hchain) as [Hnone Hsome].
  split.
  - intros Hin.
    assert (Hfresh : c ∉ newer).
    { apply NoDup_app in Hnd as (_ & Hd & _). intros Hx.
      apply (Hd c Hx), elem_of_cons. auto. }
    pose proof (free_found h obj w newer c older ch Hchain Hnew Hc Hin)
      as Hfree.
    eexists _, _. split; [exact Hfree |].
    split; [reflexivity |]. split; [reflexivity |]. split; [reflexivity |].
    split; [rewrite hdrs_release_out by exact Hfresh; exact Hc |].
    split; [apply trace_release |].
    apply (Hsome c ch Hcin Hc Hin).
  - intros Hout.
    assert (Hcout : ~ inside obj c ch) by (unfold inside; lia).
    assert (Hrest : chain (hdrs w) (prev ch) older).
    { apply chain_app in Hchain. cbn [hd] in Hchain.
      apply chain_cons_inv in Hchain as (_ & _ & ch' & Hch' & Hrest).
      rewrite Hc in Hch'. injection Hch' as <-. exact Hrest. }
    destruct (chain_split_inside (hdrs w) obj older (prev ch) Hrest)
      as [Hall | (o1 & d & dh & o2 & -> & Hd & Hdin & Ho1)].
    + assert (Hevery : forall x cx,
                 x ∈ newer ++ c :: older -> hdrs w !! x = Some cx ->
                 ~ inside obj x cx).
      { intros x cx Hx Hcx. apply elem_of_app in Hx as [Hx | Hx];
          [exact (Hnew x cx Hx Hcx) |].
        apply elem_of_cons in Hx as [-> | Hx];
          [| exact (Hall x cx Hx Hcx)].
        rewrite Hc in Hcx. injection Hcx as <-. exact Hcout. }
      pose proof (free_exhausted h obj w _ Hchain Hevery) as Hfree.
      cbv zeta in Hfree. apply Z.eqb_neq in Hobj. rewrite Hobj in Hfree.
      eexists _, _, older, []. split; [rewrite app_nil_r; reflexivity |].
      split; [apply hdrs_release_in, Hcin |].
      split; [apply trace_release |].
      right. split; [exact Hfree |]. split; [reflexivity |].
      apply Hnone, Hevery.
    + assert (Hassoc : newer ++ c :: o1 ++ d :: o2
                       = (newer ++ c :: o1) ++ d :: o2)
        by (rewrite <- app_assoc; reflexivity).
      assert (Hbefore : forall x cx,
                 x ∈ newer ++ c :: o1 -> hdrs w !! x = Some cx ->
                 ~ inside obj x cx).
      { intros x cx Hx Hcx. apply elem_of_app in Hx as [Hx | Hx];
          [exact (Hnew x cx Hx Hcx) |].
        apply elem_of_cons in Hx as [-> | Hx];
          [| exact (Ho1 x cx Hx Hcx)].
        rewrite Hc in Hcx. injection Hcx as <-. exact Hcout. }
      assert (Hchain' : chain (hdrs w) (chunk h)
                          ((newer ++ c :: o1) ++ d :: o2))
        by (rewrite <- Hassoc; exact Hchain).
      pose proof (free_found h obj w _ d o2 dh Hchain' Hbefore Hd Hdin)
        as Hfree.
      eexists _, _, o1, (d :: o2). split; [reflexivity |].
      split.
      { apply hdrs_release_in. apply elem_of_app. right.
        apply elem_of_cons. auto. }
      split; [apply trace_release |].
      left. split; [exact Hfree |]. split; [reflexivity |].
      apply (Hsome d dh); [| exact Hd | exact Hdin].
      apply elem_of_app. right. apply elem_of_cons. right.
      apply elem_of_app. right. apply elem_of_cons. auto.
Qed.

Lemma chunk_kept_iff_pointer_inside_witness :
  (exists h' w',
     _obstack_free two_chunk_stack 2064 two_chunk_world = Return tt h' w'
     /\ chunk h' = 2000
     /\ hdrs w' !! 2000 = Some (mk_chunk 2064 0)
     /\ trace w' = trace two_chunk_world ++ [EvFree 2 None 1000])
  /\ (exists h' w',
        _obstack_free two_chunk_stack 2065 two_chunk_world = Aborted h' w'
        /\ hdrs w' !! 2000 = None
        /\ trace w'
           = trace two_chunk_world
             ++ [EvFree 2 None 1000; EvFree 2 None 2000]).
Proof.
  assert (Hnewer : forall obj, 1207 < obj ->
            forall x cx, x ∈ [1000] -> hdrs two_chunk_world !! x = Some cx ->
                         ~ inside obj x cx).
  { intros obj Hobj x cx Hx Hcx.
    apply elem_of_cons in Hx as [-> | Hx]; [| inversion Hx].
    vm_compute in Hcx. injection Hcx as <-. unfold inside. cbn [limit]. lia. }
  split.
  - destruct (chunk_kept_iff_pointer_inside two_chunk_stack two_chunk_world
                2064 [1000] 2000 [] (mk_chunk 2064 0) two_chunk_chain)
      as [Hkept _].
    + reflexivity.
    + discriminate.
    + apply Hnewer. lia.
    + destruct Hkept as (h' & w' & Hfree & Hcur & _ & _ & Hhdr & Htr & _);
        [cbn [limit]; lia |].
      exists h', w'. auto.
  - destruct (chunk_kept_iff_pointer_inside two_chunk_stack two_chunk_world
                2065 [1000] 2000 [] (mk_chunk 2064 0) two_chunk_chain)
      as [_ Hgone].
    + reflexivity.
    + discriminate.
    + apply Hnewer. lia.
    + destruct Hgone as (h' & w' & released & kept & Hsplit & Hhdr & Htr & Hout);
        [right; cbn [limit]; lia |].
      destruct released; [| discriminate].
      destruct Hout as [(_ & Hk & _) | (Hfree & _ & _)].
      * destruct kept; discriminate.
      * exists h', w'. auto.
Defined.

(** ** Allocation failure during migration *)

(** C6: when the allocator answers with the null pointer, the failure
    handler is entered with the stack exactly as [_obstack_newchunk] found
    it: no field was written, no header and no byte changed, and what held
    at rest before the call still holds. *)
Theorem newchunk_failure_leaves_stack (h : obstack) (length : Z) (w : world) :
  hd 0 (oracle w) = 0 ->
  exists w',
    _obstack_newchunk h length w = AllocFailed h w'
    /\ hdrs w' = hdrs w /\ mem w' = mem w
    /\ (resting h w -> resting h w').
Proof.
  intros Hnull. unfold _obstack_newchunk.
  match goal with
  | |- context [if ?c then call_chunkfun _ _ _ else _] => destruct c
  end.
  - unfold call_chunkfun. rewrite Hnull. cbn [Z.eqb].
    eexists. split; [reflexivity |].
    split; [reflexivity |]. split; [reflexivity |]. exact (fun H => H).
  - cbn [Z.eqb]. exists w.
    split; [reflexivity |]. split; [reflexivity |]. split; [reflexivity |].
    exact (fun H => H).
Qed.

Lemma newchunk_failure_leaves_stack_witness :
  exists w',
    _obstack_newchunk zero_growth_stack 8 zero_growth_world
    = AllocFailed zero_growth_stack w'
    /\ hdrs w' = hdrs zero_growth_world /\ mem w' = mem zero_growth_world
    /\ (resting zero_growth_stack zero_growth_world
        -> resting zero_growth_stack w').
Proof.
  apply (newchunk_failure_leaves_stack zero_growth_stack 8 zero_growth_world).
  reflexivity.
Defined.

(** ** The ordering of the cursors *)

(** C7, as the source has it, at a concrete input: [_obstack_begin] with a
    chunk size of 8 bytes, less than the header of a chunk.  The allocator
    answers as it should, and the stack starts with [object_base] and
    [next_free] at 2016, past [chunk_limit] at 2008. *)
Lemma begin_small_chunk_not_ordered :
  exists h w,
    _obstack_begin blank_stack 8 0 1 2 (fresh_world [2000]) = Return 1 h w
    /\ sane_allocator w
    /\ object_base h = 2016 /\ next_free h = 2016 /\ chunk_limit h = 2008
    /\ ~ ordered h.
Proof.
  eexists _, _. split; [vm_compute; reflexivity |].
  split.
  { repeat constructor; cbn; rewrite ?size_modulus_eq, ?ptrdiff_max_eq; lia. }
  repeat split. unfold ordered. cbn. lia.
Qed.

(** C7, amended: when the chunk size given to [_obstack_begin] has room
    for the header of a chunk and the alignment padding, and the allocator
    returns blocks inside the address space of at most [PTRDIFF_MAX] bytes,
    [object_base <= next_free <= chunk_limit] holds after initialization
    and after every operation that checks for room ([make_room], [blank],
    the [grow] family, [finish], [alloc], [copy], [copy0], [free] by the
    macro and by the function, with the migrations they trigger), also when
    an operation leaves through the failure handler. *)
Theorem reachable_ordered (h : obstack) (w : world) :
  reachable h w -> ordered h.
Proof.
  intros Hr. apply reachable_cursors in Hr.
  destruct Hr as (_ & _ & _ & _ & Hord & _). exact Hord.
Qed.

Lemma reachable_ordered_witness :
  exists h w,
    reachable h w
    /\ chunk h = 1000 /\ object_base h = 1120 /\ chunk_limit h = 1207
    /\ ordered h.
Proof.
  assert (Hrun : exists h w,
             reachable h w
             /\ chunk h = 1000 /\ object_base h = 1120 /\ chunk_limit h = 1207).
  { eexists _, _. split.
    - eapply (reach_return _ _ (Alloc 100)).
      + eapply (reach_return _ _ (Copy 5000 8)).
        * eapply (reach_begin blank_stack (fresh_world [2000; 1000]) 64 8 1 2).
          -- apply fresh_world_typed.
          -- vm_compute. reflexivity.
          -- vm_compute. discriminate.
          -- sane_trace.
        * vm_compute. reflexivity.
        * sane_trace.
      + vm_compute. reflexivity.
      + sane_trace.
    - repeat split. }
  destruct Hrun as (h & w & Hr & H1 & H2 & H3).
  exists h, w. repeat (split; [assumption |]).
  apply (reachable_ordered h w Hr).
Defined.

(** ** A pointer that no chunk contains *)

(** C8: when [obj] is not the null pointer and is inside none of the
    chunks of the stack, [_obstack_free] ends in [abort ()]: every chunk
    was handed to the free function on the way, and the call does not
    return.  So does the macro [obstack_free] on a stack at rest, whose
    [chunk_limit] is the limit of its current chunk. *)
Theorem free_foreign_pointer_aborts (h : obstack) (obj : Z) (w : world)
    (cs : list Z) :
  chain (hdrs w) (chunk h) cs ->
  obj <> 0 ->
  (forall x cx, x ∈ cs -> hdrs w !! x = Some cx -> ~ inside obj x cx) ->
  exists h' w',
    _obstack_free h obj w = Aborted h' w'
    /\ trace w' = trace w ++ map (EvFree (freefun h) (call_arg h)) cs
    /\ (chunk h <> 0 ->
        (forall c0, hdrs w !! chunk h = Some c0 -> chunk_limit h = limit c0) ->
        obstack_free h obj w = Aborted h' w').
Proof.
  intros Hchain Hobj Hout.
  pose proof (free_exhausted h obj w cs Hchain Hout) as Hfree.
  cbv zeta in Hfree. apply Z.eqb_neq in Hobj. rewrite Hobj in Hfree.
  eexists _, _. split; [exact Hfree |]. split; [apply trace_release |].
  intros Hcur Hlim. unfold obstack_free.
  destruct ((chunk h <? obj) && (obj <? chunk_limit h)) eqn:Hfast;
    [| exact Hfree].
  exfalso. apply andb_true_iff in Hfast as [Hlo Hhi].
  apply Z.ltb_lt in Hlo. apply Z.ltb_lt in Hhi.
  destruct cs as [| x cs].
  - apply chain_nil_inv in Hchain. contradiction.
  - apply chain_cons_inv in Hchain as (Hx & _ & cx & Hcx & _).
    apply (Hout x cx); [apply elem_of_cons; auto | exact Hcx |].
    rewrite Hx in *. rewrite (Hlim cx Hcx) in Hhi. unfold inside. lia.
Qed.

Lemma free_foreign_pointer_aborts_witness :
  exists h' w',
    _obstack_free two_chunk_stack 5000 two_chunk_world = Aborted h' w'
    /\ obstack_free two_chunk_stack 5000 two_chunk_world = Aborted h' w'
    /\ trace w'
       = trace two_chunk_world ++ [EvFree 2 None 1000; EvFree 2 None 2000].
Proof.
  destruct (free_foreign_pointer_aborts two_chunk_stack 5000 two_chunk_world
              [1000; 2000] two_chunk_chain) as (h' & w' & Hfn & Htr & Hmacro).
  - discriminate.
  - intros x cx Hx Hcx. unfold inside.
    destruct (two_chunk_headers x cx Hx Hcx) as [[-> ->] | [-> ->]];
      cbn [limit]; lia.
  - exists h', w'. split; [exact Hfn |]. split; [| exact Htr].
    apply Hmacro; [discriminate |].
    intros c0 Hc0. vm_compute in Hc0. injection Hc0 as <-. reflexivity.
Defined.

(** ** Formatted output longer than the buffer *)

(** When there is room, the object grows by the length that [vsnprintf]
    reports, whatever the size of the array. *)
Lemma printf_grows_by_reported_length h buf out w :
  let len := Z.of_nat (length out) in
  len < size_modulus -> len <= obstack_room h ->
  exists w',
    obstack_printf h buf out w
    = Return len (set_next_free (wrap (next_free h + len)) h) w'.
Proof.
  intros len Hlen Hroom. unfold obstack_printf, vsnprintf, obstack_grow.
  fold len.
  assert (Hw : wrap len = len).
  { apply wrap_small. unfold in_range, len. lia. }
  rewrite Hw.
  replace (obstack_room h <? len) with false
    by (symmetry; apply Z.ltb_ge; exact Hroom).
  cbn [bind]. eexists. reflexivity.
Qed.

(** C9, at a failing input: a text of 1030 bytes.  [vsnprintf] stores 1023
    of them and a null byte in the array of 1024 bytes and returns 1030;
    [obstack_grow] then copies 1030 bytes from the array.  The object grows
    by 1030 bytes, not by the truncated text: after the 1023 bytes of the
    text and the null byte come the six bytes that follow the array in
    memory.  [obstack_vprintf] does the same. *)
Theorem printf_copies_past_buffer :
  let out := repeat 120 1030 in
  match obstack_printf printf_stack 9000 out printf_world with
  | Return len h' w' =>
      len = 1030
      /\ obstack_object_size h' = 1030
      /\ load_bytes (mem w') (object_base h') 1030
         = repeat 120 1023 ++ [0] ++ [83; 69; 67; 82; 69; 84]
  | _ => False
  end
  /\ obstack_vprintf printf_stack 9000 out printf_world
     = obstack_printf printf_stack 9000 out printf_world.
Proof.
  split; [| reflexivity].
  vm_compute. repeat split; reflexivity.
Qed.

(** ** Growth by zero bytes *)

(** C10: [grow], [blank] and [make_room] with length 0 return the stack and
    the world as they were: no field changes, no byte is written and the
    allocator is not called, whatever room is left.  [next_free] is a
    pointer, hence in range. *)
Theorem zero_length_growth_is_identity (h : obstack) (where_ : Z) (w : world) :
  in_range (next_free h) ->
  obstack_grow h where_ 0 w = Return tt h w
  /\ obstack_blank h 0 w = Return tt h w
  /\ obstack_make_room h 0 w = Return tt h w.
Proof.
  intros Hnf.
  assert (Hroom : (obstack_room h <? wrap 0) = false).
  { apply Z.ltb_ge. rewrite wrap_0. apply wrap_range. }
  assert (Hnf' : wrap (next_free h + wrap 0) = next_free h).
  { rewrite wrap_0, Z.add_0_r. apply wrap_small, Hnf. }
  unfold obstack_grow, obstack_blank, obstack_make_room, obstack_blank_fast.
  rewrite Hroom. cbn [bind]. rewrite Hnf'.
  rewrite wrap_0, memcpy_zero, set_mem_id, set_next_free_id. auto.
Qed.

Lemma zero_length_growth_is_identity_witness :
  let w := zero_growth_world in
  obstack_room zero_growth_stack = 0
  /\ obstack_grow zero_growth_stack 5000 0 w = Return tt zero_growth_stack w
  /\ obstack_blank zero_growth_stack 0 w = Return tt zero_growth_stack w
  /\ obstack_make_room zero_growth_stack 0 w = Return tt zero_growth_stack w.
Proof.
  intros w. split; [reflexivity |].
  apply (zero_length_growth_is_identity zero_growth_stack 5000 w).
  unfold in_range. rewrite size_modulus_eq. simpl. lia.
Defined.
(** * Further properties *)

(** ** Rounding up to the alignment *)

(** [__PTR_ALIGN] with a mask of low bits, whatever the base [B]: when
    [P + A] does not pass the end of the address space, the result is the
    least multiple of the alignment [A + 1] that is at least [P], at most
    [A] bytes above [P]; when it does, the sum wraps around and the
    result, still a multiple, is below [P]. *)
Theorem ptr_align_least_multiple (B P A : Z) :
  is_mask A -> in_range P ->
  let r := __PTR_ALIGN B P A in
  r mod (A + 1) = 0
  /\ (P + A < size_modulus ->
      P <= r <= P + A
      /\ forall q, P <= q -> q mod (A + 1) = 0 -> r <= q)
  /\ (size_modulus <= P + A -> r < P).
Proof.
  intros Hmask HP r.
  pose proof (mask_range A Hmask) as HA.
  split; [apply ptr_align_aligned, Hmask |]. split.
  - intros Hsum.
    assert (Hb : P <= r <= P + A)
      by (apply ptr_align_bounds; unfold in_range in *; auto; lia).
    split; [exact Hb |]. intros q Hq Hmod.
    pose proof (ptr_align_aligned B P A Hmask) as Hr. fold r in Hr.
    assert (Hpos : 0 < A + 1) by (unfold in_range in HA; lia).
    apply Z.mod_divide in Hr; [| lia]. apply Z.mod_divide in Hmod; [| lia].
    destruct Hr as [i Hi]. destruct Hmod as [j Hj].
    destruct (Z_le_gt_dec r q) as [Hle | Hgt]; [exact Hle | exfalso].
    assert (j < i) by nia. nia.
  - intros Hsum. unfold r. rewrite ptr_align_eq.
    assert (Hw : wrap (P + A) = P + A - size_modulus).
    { rewrite <- wrap_sub_modulus. apply wrap_small.
      unfold in_range in *. lia. }
    rewrite Hw.
    pose proof (land_bounds (P + A - size_modulus) A (proj1 HA)).
    unfold in_range in *. lia.
Qed.

Lemma ptr_align_least_multiple_witness :
  __PTR_ALIGN 2000 2021 7 = 2024
  /\ 2024 mod (7 + 1) = 0
  /\ (2021 + 7 < size_modulus ->
      2021 <= 2024 <= 2021 + 7
      /\ forall q, 2021 <= q -> q mod (7 + 1) = 0 -> 2024 <= q)
  /\ (size_modulus <= 2021 + 7 -> 2024 < 2021).
Proof.
  split; [reflexivity |].
  apply (ptr_align_least_multiple 2000 2021 7).
  - exists 3. split; [unfold size_bits; lia | reflexivity].
  - unfold in_range. rewrite size_modulus_eq. lia.
Defined.

(** ** Initialization *)

Lemma wrap_wrap z : wrap (wrap z) = wrap z.
Proof. apply wrap_small, wrap_range. Qed.

Lemma wrap_add_sub a b : wrap (wrap (a + b) - a) = wrap b.
Proof.
  unfold wrap. rewrite Zminus_mod_idemp_l. f_equal. lia.
Qed.

Lemma memory_used_loop_eq fuel hs lp nbytes :
  memory_used_loop fuel hs lp nbytes
  = if lp =? 0 then Some nbytes else
    match hs !! lp, fuel with
    | Some c, S fuel' =>
        memory_used_loop fuel' hs (prev c)
          (wrap (nbytes + wrap (limit c - lp)))
    | _, _ => None
    end.
Proof. destruct fuel; reflexivity. Qed.

(** The state after a successful [_obstack_begin_worker]. *)
Lemma begin_worker_empty h0 size alignment w0 r h w :
  _obstack_begin_worker h0 size alignment w0 = Return r h w ->
  r = 1
  /\ chunk h <> 0
  /\ hdrs w !! chunk h = Some (mk_chunk (chunk_limit h) 0)
  /\ chunk_limit h = wrap (chunk h + chunk_size h)
  /\ object_base h
     = __PTR_ALIGN (chunk h) (contents (chunk h)) (alignment_mask h)
  /\ next_free h = object_base h
  /\ maybe_empty_object h = false
  /\ alloc_failed h = false.
Proof.
  intros H.
  assert (Hr : r = 1).
  { unfold _obstack_begin_worker, call_chunkfun in H.
    destruct (_ =? 0) in H; [discriminate |]. congruence. }
  apply begin_worker_return in H. cbv zeta in H.
  destruct H as (Hnc & -> & Hhd & _).
  cbn. rewrite Hhd, lookup_insert_eq. auto 10.
Qed.

(** After [obstack_specify_allocation] or
    [obstack_specify_allocation_with_arg] returns, that is [_obstack_begin]
    or [_obstack_begin_1], which it does with the value 1, the stack has
    one chunk, whose header holds the limit [chunk + chunk_size] and a null
    [prev]; the growing object is empty and starts at the aligned start of
    the contents; [obstack_empty_p] answers 1 and [_obstack_memory_used]
    the chunk size. *)
Theorem begin_starts_empty (h0 : obstack) (sz alignment cf ff arg : Z)
    (w0 : world) (r : Z) (h : obstack) (w : world) :
  obstack_specify_allocation h0 sz alignment cf ff w0 = Return r h w
  \/ obstack_specify_allocation_with_arg h0 sz alignment cf ff arg w0
     = Return r h w ->
  r = 1
  /\ chain (hdrs w) (chunk h) [chunk h]
  /\ hdrs w !! chunk h = Some (mk_chunk (wrap (chunk h + chunk_size h)) 0)
  /\ chunk_limit h = wrap (chunk h + chunk_size h)
  /\ object_base h
     = __PTR_ALIGN (chunk h) (contents (chunk h)) (alignment_mask h)
  /\ obstack_object_size h = 0
  /\ maybe_empty_object h = false
  /\ obstack_empty_p h w = Some true
  /\ _obstack_memory_used h w = Some (wrap (chunk_size h)).
Proof.
  intros H.
  assert (Hw : exists h1, _obstack_begin_worker h1 sz alignment w0
                          = Return r h w)
    by (destruct H as [H | H]; eexists; exact H).
  clear H. destruct Hw as (h1 & H).
  apply begin_worker_empty in H.
  destruct H as (-> & Hnz & Hhd & Hlim & Hob & Hnf & Hmeo & _).
  rewrite <- Hlim.
  split; [reflexivity |].
  split; [econstructor; [exact Hnz | exact Hhd | constructor] |].
  split; [exact Hhd |]. split; [reflexivity |]. split; [exact Hob |].
  split; [unfold obstack_object_size; rewrite Hnf, Z.sub_diag; reflexivity |].
  split; [exact Hmeo |]. split.
  - unfold obstack_empty_p. rewrite Hhd. cbn [prev].
    rewrite Hnf, Hob, !Z.eqb_refl. reflexivity.
  - unfold _obstack_memory_used.
    destruct (size (hdrs w)) as [| fuel] eqn:Hsize.
    { exfalso. apply (map_size_ne_0_lookup_2 (hdrs w) (chunk h)); eauto. }
    apply Z.eqb_neq in Hnz.
    rewrite memory_used_loop_eq, Hnz, Hhd. cbn [prev limit].
    rewrite memory_used_loop_eq. cbn [Z.eqb].
    rewrite Z.add_0_l, wrap_wrap, Hlim, wrap_add_sub. reflexivity.
Qed.

Lemma begin_starts_empty_witness :
  exists h w,
    obstack_specify_allocation blank_stack 100 8 1 2 (fresh_world [2000])
    = Return 1 h w
    /\ chunk h = 2000 /\ object_base h = 2016
    /\ obstack_empty_p h w = Some true
    /\ _obstack_memory_used h w = Some 100.
Proof.
  eexists _, _. split; [vm_compute; reflexivity |].
  split; [reflexivity |]. split; [reflexivity |].
  eapply (begin_starts_empty blank_stack 100 8 1 2 0 (fresh_world [2000])).
  left. vm_compute. reflexivity.
Defined.

(** [_obstack_begin] and [_obstack_begin_1] call the allocator once, with
    the chunk size, and never return 0: when the allocator answers with the
    null pointer they enter the failure handler, before any header is
    written and with the chunk and cursor fields of the stack untouched;
    otherwise they return 1. *)
Theorem begin_calls_allocator_once (h0 : obstack) (size alignment cf ff arg : Z)
    (w0 : world) :
  let csize := if size =? 0 then wrap (4096 - default_extra) else size in
  let nc := hd 0 (oracle w0) in
  (nc = 0 ->
   exists h w h1 w1,
     _obstack_begin h0 size alignment cf ff w0 = AllocFailed h w
     /\ _obstack_begin_1 h0 size alignment cf ff arg w0 = AllocFailed h1 w1
     /\ hdrs w = hdrs w0 /\ hdrs w1 = hdrs w0
     /\ mem w = mem w0 /\ mem w1 = mem w0
     /\ trace w = trace w0 ++ [EvAlloc cf None csize 0]
     /\ trace w1 = trace w0 ++ [EvAlloc cf (Some arg) csize 0]
     /\ chunk h = chunk h0 /\ object_base h = object_base h0
     /\ next_free h = next_free h0 /\ chunk_limit h = chunk_limit h0
     /\ chunk h1 = chunk h0 /\ object_base h1 = object_base h0
     /\ next_free h1 = next_free h0 /\ chunk_limit h1 = chunk_limit h0)
  /\ (nc <> 0 ->
      exists h w h1 w1,
        _obstack_begin h0 size alignment cf ff w0 = Return 1 h w
        /\ _obstack_begin_1 h0 size alignment cf ff arg w0 = Return 1 h1 w1
        /\ trace w = trace w0 ++ [EvAlloc cf None csize nc]
        /\ trace w1 = trace w0 ++ [EvAlloc cf (Some arg) csize nc]
        /\ chunk h = nc /\ chunk h1 = nc
        /\ chunk_size h = csize /\ chunk_size h1 = csize).
Proof.
  intros csize nc. split; intros Hnc.
  - unfold _obstack_begin, _obstack_begin_1, _obstack_begin_worker,
      call_chunkfun. fold nc. rewrite Hnc. cbn [Z.eqb].
    eexists _, _, _, _. repeat split; reflexivity.
  - unfold _obstack_begin, _obstack_begin_1, _obstack_begin_worker,
      call_chunkfun. fold nc. apply Z.eqb_neq in Hnc. rewrite Hnc.
    eexists _, _, _, _. repeat split; reflexivity.
Qed.

Lemma begin_calls_allocator_once_witness :
  exists h w h1 w1,
    _obstack_begin blank_stack 0 0 1 2 (fresh_world []) = AllocFailed h w
    /\ _obstack_begin_1 blank_stack 0 0 1 2 9 (fresh_world [])
       = AllocFailed h1 w1
    /\ trace w = [EvAlloc 1 None 4064 0]
    /\ trace w1 = [EvAlloc 1 (Some 9) 4064 0]
    /\ hdrs w = ∅ /\ chunk h = 0.
Proof.
  destruct (begin_calls_allocator_once blank_stack 0 0 1 2 9 (fresh_world []))
    as [H _].
  destruct (H eq_refl)
    as (h & w & h1 & w1 & E1 & E2 & H1 & _ & _ & _ & H2 & H3 & H4 & _).
  exists h, w, h1, w1. auto 10.
Defined.

(** [obstack_begin] and [obstack_init], which is [obstack_begin] with the
    size 0: the alignment is the default, 16, that of [long double]; the
    chunk size is the size given or, for the size 0, the default of 4064
    bytes, what is left of 4096 after the 32 bytes of overhead of the old
    GNU malloc, and it is the size asked of the allocator.  With a chunk
    that the allocator aligned to 16 bytes, the first object starts right
    after the header of the chunk. *)
Theorem init_default_parameters (h0 : obstack) (sz alloc free_ : Z)
    (w0 : world) (r : Z) (h : obstack) (w : world) :
  obstack_begin h0 sz alloc free_ w0 = Return r h w
  \/ (sz = 0 /\ obstack_init h0 alloc free_ w0 = Return r h w) ->
  obstack_chunk_size h = (if sz =? 0 then 4064 else sz)
  /\ obstack_alignment_mask h = 15
  /\ trace w = trace w0 ++ [EvAlloc alloc None (chunk_size h) (chunk h)]
  /\ chunk_limit h = wrap (chunk h + chunk_size h)
  /\ (chunk h mod 16 = 0 -> chunk h + 16 < size_modulus ->
      0 <= chunk h -> object_base h = chunk h + 16).
Proof.
  intros H.
  assert (H' : _obstack_begin h0 sz 0 alloc free_ w0 = Return r h w)
    by (destruct H as [H | [-> H]]; exact H).
  clear H. unfold _obstack_begin in H'.
  apply begin_worker_return in H'. cbv zeta in H'.
  destruct H' as (Hnc & -> & _ & Htr & _).
  cbn. split; [reflexivity |]. split; [reflexivity |].
  split; [exact Htr |]. split; [reflexivity |].
  intros Hal Hfit Hpos.
  set (nc := hd 0 (oracle w0)) in *.
  assert (Hc : contents nc = nc + 16).
  { apply wrap_small. unfold in_range. change (2 * sizeof_void_p) with 16.
    lia. }
  rewrite Hc, ptr_align_eq.
  change (wrap (alignof_long_double - 1)) with 15.
  assert (Hw : wrap (nc + 16 + 15) = nc + 16 + 15).
  { apply wrap_small. unfold in_range. rewrite size_modulus_eq in *.
    apply Z.mod_divide in Hal; [| lia]. destruct Hal as [k Hk]. lia. }
  rewrite Hw.
  replace (Z.land (nc + 16 + 15) 15) with ((nc + 16 + 15) mod 2 ^ 4)
    by (symmetry; apply (Z.land_ones _ 4); lia).
  replace (nc + 16 + 15) with (15 + (nc / 16 + 1) * 2 ^ 4).
  - rewrite Z.mod_add by lia. change (15 mod 2 ^ 4) with 15.
    change (2 ^ 4) with 16.
    pose proof (Z.div_mod nc 16 ltac:(lia)) as Hd. lia.
  - change (2 ^ 4) with 16.
    pose proof (Z.div_mod nc 16 ltac:(lia)) as Hd. lia.
Qed.

Lemma init_default_parameters_witness :
  exists h w,
    obstack_init blank_stack 1 2 (fresh_world [4096]) = Return 1 h w
    /\ obstack_chunk_size h = 4064
    /\ obstack_alignment_mask h = 15
    /\ trace w = [EvAlloc 1 None 4064 4096]
    /\ object_base h = 4112.
Proof.
  eexists _, _. split; [vm_compute; reflexivity |].
  edestruct (init_default_parameters blank_stack 0 1 2 (fresh_world [4096]) 1)
    as (H1 & H2 & H3 & _ & H4).
  - right. split; [reflexivity |]. vm_compute. reflexivity.
  - split; [exact H1 |]. split; [exact H2 |]. split; [exact H3 |].
    apply H4; [reflexivity | rewrite size_modulus_eq; cbn; lia | cbn; lia].
Defined.

(** ** The queries over the chain of chunks *)

Lemma wrap_add_l a b : wrap (wrap a + b) = wrap (a + b).
Proof.
  unfold wrap. apply Z.add_mod_idemp_l. rewrite size_modulus_eq. lia.
Qed.

Lemma wrap_add_r a b : wrap (a + wrap b) = wrap (a + b).
Proof.
  unfold wrap. apply Z.add_mod_idemp_r. rewrite size_modulus_eq. lia.
Qed.

Lemma memory_used_loop_chain hs :
  forall cs lp fuel nbytes,
    chain hs lp cs -> (length cs <= fuel)%nat -> in_range nbytes ->
    memory_used_loop fuel hs lp nbytes
    = Some (wrap (nbytes + chain_bytes hs cs)).
Proof.
  induction cs as [| x cs IH]; intros lp fuel nbytes Hchain Hfuel Hn;
    rewrite memory_used_loop_eq.
  - apply chain_nil_inv in Hchain as ->. cbn [Z.eqb chain_bytes foldr].
    rewrite Z.add_0_r, wrap_small by exact Hn. reflexivity.
  - apply chain_cons_inv in Hchain as (-> & Hne & c & Hc & Hrest).
    apply Z.eqb_neq in Hne. rewrite Hne, Hc.
    destruct fuel as [| fuel]; [cbn [length] in Hfuel; lia |].
    rewrite (IH (prev c) fuel); [| exact Hrest | cbn [length] in Hfuel; lia
                                 | apply wrap_range].
    cbn [chain_bytes foldr]. rewrite Hc. fold (chain_bytes hs cs).
    rewrite wrap_add_l.
    replace (nbytes + wrap (limit c - x) + chain_bytes hs cs)
      with (nbytes + chain_bytes hs cs + wrap (limit c - x)) by lia.
    rewrite wrap_add_r. f_equal. f_equal. lia.
Qed.

(** [_obstack_memory_used] on a stack whose [prev] links end at the null
    pointer returns, and its value is the sum of [limit - address] over the
    chunks of the stack, headers included, modulo the range of [size_t];
    it is 0 for a stack without chunk. *)
Theorem memory_used_sums_chunks (h : obstack) (w : world) (cs : list Z) :
  chain (hdrs w) (chunk h) cs ->
  _obstack_memory_used h w = Some (wrap (chain_bytes (hdrs w) cs))
  /\ obstack_memory_used h w = Some (wrap (chain_bytes (hdrs w) cs)).
Proof.
  intros Hchain.
  assert (H : _obstack_memory_used h w
              = Some (wrap (chain_bytes (hdrs w) cs))).
  { unfold _obstack_memory_used.
    rewrite (memory_used_loop_chain (hdrs w) cs); auto.
    - apply chain_length in Hchain. exact Hchain.
    - unfold in_range. rewrite size_modulus_eq. lia. }
  split; exact H.
Qed.

Lemma memory_used_sums_chunks_witness :
  chain_bytes (hdrs two_chunk_world) [1000; 2000] = 271
  /\ _obstack_memory_used two_chunk_stack two_chunk_world = Some 271
  /\ obstack_memory_used two_chunk_stack two_chunk_world = Some 271.
Proof.
  split; [reflexivity |].
  apply (memory_used_sums_chunks two_chunk_stack two_chunk_world [1000; 2000]).
  apply (chain_link _ 1000 (mk_chunk 1207 2000)); [discriminate | reflexivity |].
  apply (chain_link _ 2000 (mk_chunk 2064 0)); [discriminate | reflexivity |].
  apply chain_null.
Defined.

(** [_obstack_allocated_p] tells what [_obstack_free] will do with a
    pointer that is not null, on a stack whose [prev] links end at the null
    pointer: when it answers 0, [_obstack_free] ends in [abort ()]; when it
    answers 1, [_obstack_free] returns with both cursors at the pointer.
    It answers one or the other. *)
Theorem free_aborts_iff_not_allocated (h : obstack) (obj : Z) (w : world)
    (cs : list Z) :
  chain (hdrs w) (chunk h) cs -> obj <> 0 ->
  (_obstack_allocated_p h obj w = Some 0
   /\ exists h' w', _obstack_free h obj w = Aborted h' w')
  \/ (_obstack_allocated_p h obj w = Some 1
      /\ exists h' w',
           _obstack_free h obj w = Return tt h' w'
           /\ object_base h' = obj /\ next_free h' = obj).
Proof.
  intros Hchain Hobj.
  destruct (allocated_p_chain h obj w cs Hchain) as [Hnone Hsome].
  destruct (chain_split_inside (hdrs w) obj cs (chunk h) Hchain)
    as [Hall | (newer & c & ch & older & -> & Hc & Hin & Hnew)].
  - left. split; [apply Hnone, Hall |].
    pose proof (free_exhausted h obj w cs Hchain Hall) as Hfree.
    cbv zeta in Hfree. apply Z.eqb_neq in Hobj. rewrite Hobj in Hfree.
    eauto.
  - right. split.
    + apply (Hsome c ch); [| exact Hc | exact Hin].
      apply elem_of_app. right. apply elem_of_cons. auto.
    + eexists _, _. split.
      * apply (free_found h obj w newer c older ch); assumption.
      * split; reflexivity.
Qed.

Lemma free_aborts_iff_not_allocated_witness :
  _obstack_allocated_p two_chunk_stack 5000 two_chunk_world = Some 0
  /\ _obstack_allocated_p two_chunk_stack 2016 two_chunk_world = Some 1
  /\ ((_obstack_allocated_p two_chunk_stack 5000 two_chunk_world = Some 0
       /\ exists h' w',
            _obstack_free two_chunk_stack 5000 two_chunk_world
            = Aborted h' w')
      \/ (_obstack_allocated_p two_chunk_stack 5000 two_chunk_world = Some 1
          /\ exists h' w',
               _obstack_free two_chunk_stack 5000 two_chunk_world
               = Return tt h' w'
               /\ object_base h' = 5000 /\ next_free h' = 5000)).
Proof.
  split; [reflexivity |]. split; [reflexivity |].
  apply (free_aborts_iff_not_allocated two_chunk_stack 5000 two_chunk_world
           [1000; 2000]).
  - apply (chain_link _ 1000 (mk_chunk 1207 2000));
      [discriminate | reflexivity |].
    apply (chain_link _ 2000 (mk_chunk 2064 0));
      [discriminate | reflexivity |].
    apply chain_null.
  - discriminate.
Defined.

(** ** More on [obstack_free] *)

(** Where the walk of [_obstack_free] stops, at a chunk and not at the
    null pointer, the header of the chunk is allocated and the pointer is
    inside the chunk. *)
Lemma free_loop_stops fuel :
  forall h obj lp w lp' h' w',
    free_loop fuel h obj lp w = Some (Return lp' h' w') ->
    lp' <> 0 ->
    exists c, hdrs w' !! lp' = Some c /\ inside obj lp' c.
Proof.
  induction fuel as [| fuel IH]; intros h obj lp w lp' h' w' H Hne;
    rewrite free_loop_eq in H;
    (destruct (lp =? 0) eqn:Hz;
     [injection H as <- <- <-; apply Z.eqb_eq in Hz; contradiction |]);
    (destruct (hdrs w !! lp) as [c |] eqn:Hc; [| discriminate]);
    (destruct ((obj <=? lp) || (limit c <? obj)) eqn:Htest;
     [| injection H as <- <- <-; apply inside_test in Htest; eauto]).
  - discriminate.
  - eapply IH; eauto.
Qed.

(** The macro [obstack_free] and the function [_obstack_free], which the
    alias at the end of obstack.c exports under the name of the macro, have
    the same outcome for every pointer, on a stack at rest: the current
    chunk is allocated and [chunk_limit] is its limit.  The macro only
    saves the call when the pointer is in the current chunk. *)
Theorem free_macro_is_free_function (h : obstack) (obj : Z) (w : world)
    (c : _obstack_chunk) :
  chunk h <> 0 -> hdrs w !! chunk h = Some c -> chunk_limit h = limit c ->
  obstack_free h obj w = _obstack_free h obj w.
Proof.
  intros Hnz Hc Hlim. unfold obstack_free.
  destruct ((chunk h <? obj) && (obj <? chunk_limit h)) eqn:Hfast;
    [| reflexivity].
  apply andb_true_iff in Hfast as [Hlo Hhi].
  apply Z.ltb_lt in Hlo. apply Z.ltb_lt in Hhi.
  unfold _obstack_free. rewrite free_loop_eq.
  apply Z.eqb_neq in Hnz. rewrite Hnz, Hc.
  assert (Hin : (obj <=? chunk h) || (limit c <? obj) = false).
  { apply inside_test. unfold inside. lia. }
  rewrite Hin. cbn [bind]. rewrite Hnz, Hc, <- Hlim. reflexivity.
Qed.

Lemma free_macro_is_free_function_witness :
  obstack_free two_chunk_stack 1016 two_chunk_world
  = _obstack_free two_chunk_stack 1016 two_chunk_world
  /\ obstack_free two_chunk_stack 2016 two_chunk_world
     = _obstack_free two_chunk_stack 2016 two_chunk_world.
Proof.
  split.
  - apply (free_macro_is_free_function two_chunk_stack 1016 two_chunk_world
             (mk_chunk 1207 2000)); [discriminate | reflexivity | reflexivity].
  - apply (free_macro_is_free_function two_chunk_stack 2016 two_chunk_world
             (mk_chunk 1207 2000)); [discriminate | reflexivity | reflexivity].
Defined.

(** [free] with the null pointer, by the function and by the macro,
    hands every chunk of the stack to the free function, newest first, and
    returns.  The fields of the stack keep their values, [chunk] pointing
    to the chunk that was just freed: the header that [obstack_empty_p]
    would read is gone, and the stack cannot be used before it is
    initialized again. *)
Theorem free_null_releases_every_chunk (h : obstack) (w : world)
    (cs : list Z) :
  chain (hdrs w) (chunk h) cs ->
  (forall x, x ∈ cs -> 0 <= x) ->
  exists h' w',
    _obstack_free h 0 w = Return tt h' w'
    /\ obstack_free h 0 w = Return tt h' w'
    /\ trace w' = trace w ++ map (EvFree (freefun h) (call_arg h)) cs
    /\ (forall x, x ∈ cs -> hdrs w' !! x = None)
    /\ (forall x, x ∉ cs -> hdrs w' !! x = hdrs w !! x)
    /\ mem w' = mem w
    /\ chunk h' = chunk h /\ object_base h' = object_base h
    /\ next_free h' = next_free h /\ chunk_limit h' = chunk_limit h
    /\ (cs <> [] ->
        maybe_empty_object h' = true /\ obstack_empty_p h' w' = None).
Proof.
  intros Hchain Hpos.
  assert (Hout : forall x cx,
             x ∈ cs -> hdrs w !! x = Some cx -> ~ inside 0 x cx).
  { intros x cx Hx _. specialize (Hpos x Hx). unfold inside. lia. }
  pose proof (free_exhausted h 0 w cs Hchain Hout) as Hfree.
  cbv zeta in Hfree. cbn [Z.eqb] in Hfree.
  eexists _, _. split; [exact Hfree |]. split.
  { unfold obstack_free.
    assert (Hlo : (chunk h <? 0) = false).
    { apply Z.ltb_ge. destruct cs as [| x cs'].
      - apply chain_nil_inv in Hchain. lia.
      - apply chain_cons_inv in Hchain as (-> & _).
        apply Hpos, elem_of_cons. auto. }
    rewrite Hlo. exact Hfree. }
  split; [apply trace_release |].
  split; [intros x Hx; apply hdrs_release_in, Hx |].
  split; [intros x Hx; apply hdrs_release_out, Hx |].
  split; [apply mem_release |].
  destruct cs as [| x cs']; [repeat split; contradiction |].
  do 4 (split; [reflexivity |]). intros _. split; [reflexivity |].
  unfold obstack_empty_p. cbn [chunk set_maybe_empty_object].
  apply chain_cons_inv in Hchain as (-> & _).
  rewrite hdrs_release_in by (apply elem_of_cons; auto). reflexivity.
Qed.

Lemma free_null_releases_every_chunk_witness :
  exists h' w',
    _obstack_free two_chunk_stack 0 two_chunk_world = Return tt h' w'
    /\ obstack_free two_chunk_stack 0 two_chunk_world = Return tt h' w'
    /\ trace w'
       = trace two_chunk_world ++ [EvFree 2 None 1000; EvFree 2 None 2000]
    /\ hdrs w' = ∅
    /\ chunk h' = 1000.
Proof.
  destruct (free_null_releases_every_chunk two_chunk_stack two_chunk_world
              [1000; 2000])
    as (h' & w' & H1 & H2 & H3 & _).
  - apply (chain_link _ 1000 (mk_chunk 1207 2000));
      [discriminate | reflexivity |].
    apply (chain_link _ 2000 (mk_chunk 2064 0));
      [discriminate | reflexivity |].
    apply chain_null.
  - intros x Hx. apply elem_of_cons in Hx as [-> | Hx]; [lia |].
    apply elem_of_cons in Hx as [-> | Hx]; [lia | inversion Hx].
  - exists h', w'. split; [exact H1 |]. split; [exact H2 |].
    split; [exact H3 |].
    assert (E : _obstack_free two_chunk_stack 0 two_chunk_world
                = Return tt
                    (set_maybe_empty_object true two_chunk_stack)
                    (mk_world ∅ ∅ []
                       (trace two_chunk_world
                        ++ [EvFree 2 None 1000; EvFree 2 None 2000])))
      by (vm_compute; reflexivity).
    rewrite E in H1. injection H1 as <- <-. split; reflexivity.
Defined.

(** After [_obstack_free] returned for a pointer that is not null, the
    stack is at rest in the chunk that holds the pointer, the growing
    object is empty, [_obstack_allocated_p] answers 1 for the pointer, and
    freeing the same pointer again, by the function or by the macro,
    changes nothing. *)
Theorem free_again_changes_nothing (h : obstack) (p : Z) (w : world)
    (h' : obstack) (w' : world) :
  _obstack_free h p w = Return tt h' w' -> p <> 0 ->
  (exists c, hdrs w' !! chunk h' = Some c /\ chunk_limit h' = limit c
             /\ inside p (chunk h') c)
  /\ object_base h' = p /\ next_free h' = p
  /\ obstack_object_size h' = 0
  /\ _obstack_allocated_p h' p w' = Some 1
  /\ _obstack_free h' p w' = Return tt h' w'
  /\ obstack_free h' p w' = Return tt h' w'.
Proof.
  intros H Hp. unfold _obstack_free in H.
  destruct (free_loop (base.size (hdrs w)) h p (chunk h) w) as [o |] eqn:Hloop;
    [| discriminate].
  destruct o as [lp h1 w1 | | |]; cbn [bind] in H; try discriminate.
  destruct (lp =? 0) eqn:Hz.
  { apply Z.eqb_neq in Hp. rewrite Hp in H. discriminate. }
  apply Z.eqb_neq in Hz.
  destruct (free_loop_stops _ _ _ _ _ _ _ _ Hloop Hz) as (c & Hc & Hin).
  rewrite Hc in H. injection H as <- <-.
  cbn [chunk chunk_limit object_base next_free set_chunk set_chunk_limit
       set_next_free set_object_base].
  assert (Htest : (p <=? lp) || (limit c <? p) = false)
    by (apply inside_test; exact Hin).
  apply Z.eqb_neq in Hz.
  set (h' := set_chunk lp
               (set_chunk_limit (limit c)
                  (set_next_free p (set_object_base p h1)))).
  assert (Hfree : _obstack_free h' p w1 = Return tt h' w1).
  { unfold _obstack_free. rewrite free_loop_eq.
    change (chunk h') with lp. rewrite Hz, Hc, Htest. cbn [bind].
    rewrite Hz, Hc. reflexivity. }
  split; [eauto |]. split; [reflexivity |]. split; [reflexivity |].
  split; [unfold obstack_object_size; cbn; rewrite Z.sub_diag; reflexivity |].
  split.
  { unfold _obstack_allocated_p. rewrite allocated_loop_eq.
    change (chunk h') with lp. rewrite Hz, Hc, Htest, Hz. reflexivity. }
  split; [exact Hfree |].
  unfold obstack_free. destruct (_ && _); [reflexivity | exact Hfree].
Qed.

Lemma free_again_changes_nothing_witness :
  exists h' w',
    _obstack_free two_chunk_stack 2016 two_chunk_world = Return tt h' w'
    /\ chunk h' = 2000
    /\ _obstack_allocated_p h' 2016 w' = Some 1
    /\ _obstack_free h' 2016 w' = Return tt h' w'
    /\ obstack_free h' 2016 w' = Return tt h' w'.
Proof.
  eexists _, _. split; [vm_compute; reflexivity |].
  split; [reflexivity |].
  eapply (free_again_changes_nothing two_chunk_stack 2016 two_chunk_world).
  - vm_compute. reflexivity.
  - discriminate.
Defined.

(** ** Bytes *)

Lemma load_bytes_length m n : forall a, length (load_bytes m a n) = n.
Proof.
  induction n as [| n IH]; intros a; [reflexivity |].
  cbn [load_bytes length]. rewrite IH. reflexivity.
Qed.

Lemma wrap_succ a n :
  0 <= a -> a + Z.of_nat (S n) <= size_modulus ->
  n <> O -> wrap (a + 1) = a + 1.
Proof.
  intros Ha Hfit Hn. apply wrap_small. unfold in_range. lia.
Qed.

(** Two memories that agree on a range give the same bytes. *)
Lemma load_bytes_ext m1 m2 n :
  forall a,
    0 <= a -> a + Z.of_nat n <= size_modulus ->
    (forall x, a <= x < a + Z.of_nat n -> load_byte m1 x = load_byte m2 x) ->
    load_bytes m1 a n = load_bytes m2 a n.
Proof.
  induction n as [| n IH]; intros a Ha Hfit Hsame; [reflexivity |].
  cbn [load_bytes]. f_equal; [apply Hsame; lia |].
  destruct n as [| n']; [reflexivity |].
  rewrite (wrap_succ a (S n')) by (auto; lia).
  apply IH; [lia | lia |]. intros x Hx. apply Hsame. lia.
Qed.

Lemma load_bytes_app m n1 :
  forall a n2,
    0 <= a -> a + Z.of_nat (n1 + n2)%nat <= size_modulus ->
    load_bytes m a (n1 + n2)%nat
    = load_bytes m a n1 ++ load_bytes m (a + Z.of_nat n1) n2.
Proof.
  induction n1 as [| n1 IH]; intros a n2 Ha Hfit.
  - cbn [Nat.add load_bytes app]. rewrite Z.add_0_r. reflexivity.
  - cbn [Nat.add load_bytes app]. f_equal.
    destruct (Nat.eq_dec (n1 + n2)%nat O) as [Hz | Hnz].
    + assert (n1 = O) by lia. assert (n2 = O) by lia. subst. reflexivity.
    + rewrite (wrap_succ a (n1 + n2)%nat) by (auto; lia).
      rewrite IH by lia. f_equal. f_equal. lia.
Qed.

(** A store leaves the bytes outside its range as they were. *)
Lemma store_bytes_out bs :
  forall m a x,
    0 <= a -> a + Z.of_nat (length bs) <= size_modulus ->
    ~ (a <= x < a + Z.of_nat (length bs)) ->
    load_byte (store_bytes m a bs) x = load_byte m x.
Proof.
  induction bs as [| b bs IH]; intros m a x Ha Hfit Hout; [reflexivity |].
  cbn [store_bytes]. cbn [length] in Hfit, Hout.
  destruct bs as [| b' bs'].
  - cbn [store_bytes]. unfold load_byte.
    rewrite lookup_insert_ne by lia. reflexivity.
  - rewrite (wrap_succ a (length (b' :: bs'))) by (auto; discriminate).
    rewrite IH by lia. unfold load_byte.
    rewrite lookup_insert_ne by lia. reflexivity.
Qed.

(** The bytes of a store read back. *)
Lemma store_bytes_in bs :
  forall m a,
    0 <= a -> a + Z.of_nat (length bs) <= size_modulus ->
    load_bytes (store_bytes m a bs) a (length bs) = bs.
Proof.
  induction bs as [| b bs IH]; intros m a Ha Hfit; [reflexivity |].
  cbn [store_bytes length load_bytes]. cbn [length] in Hfit.
  destruct bs as [| b' bs'].
  - cbn [store_bytes length load_bytes]. unfold load_byte.
    rewrite lookup_insert_eq. reflexivity.
  - rewrite (wrap_succ a (length (b' :: bs'))) by (auto; discriminate).
    f_equal.
    + rewrite store_bytes_out by lia. unfold load_byte.
      rewrite lookup_insert_eq. reflexivity.
    + apply IH; lia.
Qed.

Lemma memcpy_in dst src n m :
  0 <= dst -> 0 <= n -> dst + n <= size_modulus ->
  load_bytes (memcpy dst src n m) dst (Z.to_nat n)
  = load_bytes m src (Z.to_nat n).
Proof.
  intros Hd Hn Hfit. unfold memcpy.
  rewrite <- (load_bytes_length m (Z.to_nat n) src) at 2.
  apply store_bytes_in; [exact Hd |]. rewrite load_bytes_length. lia.
Qed.

Lemma memcpy_out dst src n m x :
  0 <= dst -> 0 <= n -> dst + n <= size_modulus ->
  ~ (dst <= x < dst + n) ->
  load_byte (memcpy dst src n m) x = load_byte m x.
Proof.
  intros Hd Hn Hfit Hout. unfold memcpy.
  apply store_bytes_out; rewrite ?load_bytes_length; lia.
Qed.

Lemma encode_le_length n : forall v, length (encode_le n v) = n.
Proof.
  induction n as [| n IH]; intros v; [reflexivity |].
  cbn [encode_le length]. rewrite IH. reflexivity.
Qed.

(** Decoding what was encoded gives the value back, cut to the width. *)
Lemma decode_encode_le n :
  forall v, decode_le (encode_le n v) = v mod 2 ^ (8 * Z.of_nat n).
Proof.
  induction n as [| n IH]; intros v.
  - cbn [encode_le decode_le]. rewrite Z.mul_0_r, Z.pow_0_r, Z.mod_1_r.
    reflexivity.
  - cbn [encode_le decode_le]. rewrite IH.
    change 255 with (Z.ones 8). rewrite Z.land_ones by lia.
    rewrite Z.shiftr_div_pow2 by lia.
    replace (8 * Z.of_nat (S n)) with (8 + 8 * Z.of_nat n) by lia.
    rewrite Z.pow_add_r by lia. change (2 ^ 8) with 256.
    rewrite Z.rem_mul_r by lia. reflexivity.
Qed.

(** ** The contents of the growing object *)

Lemma cursors_object_size h w :
  cursors_in_chunk h w ->
  obstack_object_size h = next_free h - object_base h
  /\ 0 <= next_free h - object_base h
  /\ 0 < object_base h /\ next_free h < size_modulus.
Proof.
  intros (Hm & Hcs & Hc & Hcob & [Hob Hnf] & Hcl & Hty).
  split; [apply wrap_small; unfold in_range; lia | lia].
Qed.

(** The check for room that opens every growth macro keeps the bytes of
    the growing object, which a migration copies to the new chunk, and
    writes nowhere else. *)
Lemma ensure_room_object h len w h1 w1 :
  cursors_in_chunk h w -> in_range len ->
  (if obstack_room h <? len then _obstack_newchunk h len w
   else Return tt h w) = Return tt h1 w1 ->
  sane_allocator w1 ->
  cursors_in_chunk h1 w1 /\ next_free h1 + len <= chunk_limit h1
  /\ next_free h1 - object_base h1 = next_free h - object_base h
  /\ object_bytes h1 w1 = object_bytes h w
  /\ (forall x, ~ (object_base h1 <= x < next_free h1) ->
                load_byte (mem w1) x = load_byte (mem w) x).
Proof.
  intros Hinv Hlen Hret Hsane.
  destruct (ensure_room_cursors h len w h1 w1 Hinv Hlen Hret Hsane)
    as [Hinv1 Hfit].
  split; [exact Hinv1 |]. split; [exact Hfit |].
  destruct (obstack_room h <? len) eqn:Hroom.
  - destruct (cursors_object_size h w Hinv) as (Hsz & Hsz0 & Hob0 & Hnf).
    destruct (cursors_object_size h1 w1 Hinv1) as (Hsz1 & Hsz10 & Hob1 & Hnf1).
    apply newchunk_return in Hret. cbv zeta in Hret.
    destruct Hret as (_ & _ & Hh1 & Hmem & _).
    set (base := __PTR_ALIGN (hd 0 (oracle w)) (contents (hd 0 (oracle w)))
                   (alignment_mask h)) in *.
    assert (Eob : object_base h1 = base) by (rewrite Hh1; reflexivity).
    assert (Enf : next_free h1 = wrap (base + obstack_object_size h))
      by (rewrite Hh1; reflexivity).
    rewrite Eob in *. rewrite Hsz in *.
    assert (Enf' : next_free h1 = base + (next_free h - object_base h)).
    { rewrite Enf.
      assert (Hb : in_range base) by (unfold in_range; lia).
      assert (Hs : in_range (next_free h - object_base h))
        by (unfold in_range; lia).
      destruct (wrap_add_cases _ _ Hb Hs) as [[_ E] | [_ E]]; [exact E |].
      rewrite Enf, E in Hsz10. unfold in_range in *. lia. }
    split; [lia |]. split.
    + unfold object_bytes. rewrite Hsz1, Eob, Enf', Hsz, Hmem.
      replace (base + (next_free h - object_base h) - base)
        with (next_free h - object_base h) by lia.
      apply memcpy_in; lia.
    + intros x Hx. rewrite Hmem. apply memcpy_out; lia.
  - injection Hret as <- <-. auto.
Qed.

(** Bytes stored at [next_free], for which there is room, are appended to
    the growing object. *)
Lemma append_object h w bs :
  cursors_in_chunk h w ->
  next_free h + Z.of_nat (length bs) <= chunk_limit h ->
  let h' := set_next_free (wrap (next_free h + Z.of_nat (length bs))) h in
  let w' := set_mem (store_bytes (mem w) (next_free h) bs) w in
  next_free h' = next_free h + Z.of_nat (length bs)
  /\ object_bytes h' w' = object_bytes h w ++ bs
  /\ (forall x, ~ (next_free h <= x < next_free h + Z.of_nat (length bs)) ->
                load_byte (mem w') x = load_byte (mem w) x).
Proof.
  intros Hinv Hfit h' w'.
  destruct (cursors_object_size h w Hinv) as (Hsz & Hsz0 & Hob0 & Hnf).
  pose proof Hinv as (_ & _ & _ & _ & _ & Hcl & _).
  assert (Enf : next_free h' = next_free h + Z.of_nat (length bs)).
  { cbn. apply wrap_small. unfold in_range. lia. }
  split; [exact Enf |]. split.
  - unfold object_bytes, obstack_object_size.
    change (object_base h') with (object_base h). rewrite Enf.
    fold (obstack_object_size h). rewrite Hsz.
    rewrite (wrap_small (_ - _)) by (unfold in_range; lia).
    replace (Z.to_nat (next_free h + Z.of_nat (length bs) - object_base h))
      with (Z.to_nat (next_free h - object_base h) + length bs)%nat by lia.
    rewrite load_bytes_app by lia.
    rewrite Z2Nat.id by lia.
    replace (object_base h + (next_free h - object_base h))
      with (next_free h) by lia.
    f_equal.
    + apply load_bytes_ext; [lia | lia |].
      intros x Hx. cbn [mem set_mem w']. apply store_bytes_out; lia.
    + cbn [mem set_mem w']. apply store_bytes_in; lia.
  - intros x Hx. cbn [mem set_mem w']. apply store_bytes_out; lia.
Qed.

(** The common part of the growth macros: the check for room, then a
    store of [bs] at [next_free], which moves up by their number. *)
Lemma growth_appends h len w h1 w1 bs :
  cursors_in_chunk h w -> in_range len ->
  (if obstack_room h <? len then _obstack_newchunk h len w
   else Return tt h w) = Return tt h1 w1 ->
  sane_allocator w1 ->
  Z.of_nat (length bs) <= len ->
  let h' := set_next_free (wrap (next_free h1 + Z.of_nat (length bs))) h1 in
  let w' := set_mem (store_bytes (mem w1) (next_free h1) bs) w1 in
  object_bytes h' w' = object_bytes h w ++ bs
  /\ obstack_object_size h'
     = obstack_object_size h + Z.of_nat (length bs)
  /\ next_free h' = next_free h1 + Z.of_nat (length bs)
  /\ (forall x, ~ (object_base h' <= x < next_free h') ->
                load_byte (mem w') x = load_byte (mem w) x)
  /\ (forall x, ~ (object_base h1 <= x < next_free h1) ->
                load_byte (mem w1) x = load_byte (mem w) x)
  /\ cursors_in_chunk h' w'.
Proof.
  intros Hinv Hlen Hret Hsane Hbs h' w'.
  destruct (ensure_room_object h len w h1 w1 Hinv Hlen Hret Hsane)
    as (Hinv1 & Hfit & Hsize & Hbytes & Hframe).
  assert (Hfit' : next_free h1 + Z.of_nat (length bs) <= chunk_limit h1)
    by lia.
  destruct (append_object h1 w1 bs Hinv1 Hfit') as (Enf & Happ & Hframe').
  fold h' in Enf, Happ. fold w' in Happ, Hframe'.
  destruct (cursors_object_size h w Hinv) as (Hsz & Hsz0 & _).
  destruct (cursors_object_size h1 w1 Hinv1) as (Hsz1 & Hsz10 & Hob1 & Hnf1).
  assert (Hinv' : cursors_in_chunk h' w').
  { apply (bump_cursors h1 w1 w'); auto; [| lia].
    apply typed_headers_set_mem. eapply cursors_typed, Hinv1. }
  split; [rewrite Happ, Hbytes; reflexivity |]. split.
  { destruct (cursors_object_size h' w' Hinv') as (Hsz' & _).
    rewrite Hsz', Hsz, Enf. change (object_base h') with (object_base h1).
    lia. }
  split; [exact Enf |]. split; [| split; [exact Hframe | exact Hinv']].
  intros x Hx. change (object_base h') with (object_base h1) in Hx.
  rewrite Hframe' by lia. apply Hframe. lia.
Qed.

(** A run used in the examples: a memory with the bytes of a text at
    5000, and the stack right after [_obstack_begin] with chunks of 40
    bytes and the alignment 8, when the allocator answered 2000. *)
Lemma text_reachable : reachable text_stack text_world.
Proof.
  apply (reach_begin blank_stack
           (mk_world ∅ (mem text_world) [2000; 3000] []) 40 8 1 2 1).
  - intros c ch H. cbn in H. rewrite lookup_empty in H. discriminate.
  - vm_compute. reflexivity.
  - vm_compute. discriminate.
  - sane_trace.
Defined.

(** After [obstack_make_room (h, n)] there is room for [n] bytes: the
    fast growth macros may add up to [n] bytes without a check.  The
    growing object has the bytes and the size it had, and no other byte
    of the memory changed. *)
Theorem make_room_gives_room (h : obstack) (n : Z) (w : world)
    (h' : obstack) (w' : world) :
  reachable h w ->
  obstack_make_room h n w = Return tt h' w' ->
  sane_allocator w' ->
  wrap n <= obstack_room h'
  /\ obstack_room h' = chunk_limit h' - next_free h'
  /\ obstack_object_size h' = obstack_object_size h
  /\ object_bytes h' w' = object_bytes h w
  /\ (forall x, ~ (object_base h' <= x < next_free h') ->
                load_byte (mem w') x = load_byte (mem w) x).
Proof.
  intros Hr H Hsane. apply reachable_cursors in Hr.
  unfold obstack_make_room in H.
  destruct (ensure_room_object h (wrap n) w h' w' Hr (wrap_range n) H Hsane)
    as (Hinv1 & Hfit & Hsize & Hbytes & Hframe).
  rewrite (room_eq h' w' Hinv1).
  destruct (cursors_object_size h w Hr) as (Hsz & _).
  destruct (cursors_object_size h' w' Hinv1) as (Hsz1 & _).
  split; [lia |]. split; [reflexivity |]. split; [lia |]. auto.
Qed.

Lemma make_room_gives_room_witness :
  exists h' w',
    obstack_make_room text_stack 30 text_world = Return tt h' w'
    /\ chunk h' = 3000
    /\ 30 <= obstack_room h'.
Proof.
  eexists _, _. split; [vm_compute; reflexivity |].
  split; [reflexivity |].
  eapply (make_room_gives_room text_stack 30 text_world).
  - exact text_reachable.
  - vm_compute. reflexivity.
  - sane_trace.
Defined.

Lemma blank_spec (h : obstack) (n : Z) (w : world)
    (h' : obstack) (w' : world) :
  cursors_in_chunk h w ->
  obstack_blank h n w = Return tt h' w' ->
  sane_allocator w' ->
  obstack_object_size h' = obstack_object_size h + wrap n
  /\ load_bytes (mem w') (object_base h')
       (Z.to_nat (obstack_object_size h)) = object_bytes h w
  /\ (forall x,
        ~ (object_base h' <= x < object_base h' + obstack_object_size h) ->
        load_byte (mem w') x = load_byte (mem w) x)
  /\ next_free h' <= chunk_limit h'.
Proof.
  intros Hr H Hsane.
  unfold obstack_blank, obstack_blank_fast in H.
  after_room H. injection H as <- <-.
  pose proof (wrap_range n) as Hn.
  destruct (ensure_room_object h (wrap n) w h0 w0 Hr Hn Hroom Hsane)
    as (Hinv1 & Hfit & Hsize & Hbytes & Hframe).
  destruct (cursors_object_size h w Hr) as (Hsz & Hsz0 & _).
  destruct (cursors_object_size h0 w0 Hinv1) as (Hsz1 & Hsz10 & Hob1 & Hnf1).
  pose proof Hinv1 as (_ & _ & _ & _ & _ & Hcl & _).
  assert (Enf : wrap (next_free h0 + wrap n) = next_free h0 + wrap n).
  { apply wrap_small. unfold in_range in *. lia. }
  cbn [next_free object_base set_next_free]. rewrite Enf.
  split.
  { unfold obstack_object_size at 1. cbn [next_free object_base set_next_free].
    rewrite ?Enf, Hsz, wrap_small; unfold in_range in *; lia. }
  split.
  { rewrite <- Hbytes. unfold object_bytes. rewrite Hsz1, Hsz, Hsize.
    reflexivity. }
  split; [| cbn [chunk_limit set_next_free]; lia].
  intros x Hx. apply Hframe. unfold in_range in *. lia.
Qed.

(** [obstack_blank (h, n)] makes the growing object [n] bytes longer: the
    bytes it had are its first bytes, moved to a new chunk if there was no
    room; the new bytes are not written, and no byte outside the former
    contents of the object changed. *)
Theorem blank_extends_object (h : obstack) (n : Z) (w : world)
    (h' : obstack) (w' : world) :
  reachable h w ->
  obstack_blank h n w = Return tt h' w' ->
  sane_allocator w' ->
  obstack_object_size h' = obstack_object_size h + wrap n
  /\ load_bytes (mem w') (object_base h')
       (Z.to_nat (obstack_object_size h)) = object_bytes h w
  /\ (forall x,
        ~ (object_base h' <= x < object_base h' + obstack_object_size h) ->
        load_byte (mem w') x = load_byte (mem w) x)
  /\ next_free h' <= chunk_limit h'.
Proof.
  intros Hr. apply blank_spec. apply reachable_cursors, Hr.
Qed.

Lemma blank_extends_object_witness :
  exists h' w',
    obstack_blank text_stack 20 text_world = Return tt h' w'
    /\ obstack_object_size h' = 0 + 20
    /\ next_free h' <= chunk_limit h'.
Proof.
  eexists _, _. split; [vm_compute; reflexivity |].
  destruct (blank_extends_object text_stack 20 text_world
              (set_next_free 2036 text_stack) text_world)
    as (H1 & _ & _ & H2).
  - exact text_reachable.
  - vm_compute. reflexivity.
  - sane_trace.
  - split; [exact H1 | exact H2].
Defined.

Lemma grow_spec (h : obstack) (src n : Z) (w : world)
    (h' : obstack) (w' : world) :
  cursors_in_chunk h w ->
  obstack_grow h src n w = Return tt h' w' ->
  sane_allocator w' ->
  (0 <= src -> src + wrap n <= size_modulus ->
   src + wrap n <= object_base h' \/ next_free h' <= src ->
   object_bytes h' w'
   = object_bytes h w ++ load_bytes (mem w) src (Z.to_nat (wrap n)))
  /\ obstack_object_size h' = obstack_object_size h + wrap n
  /\ (forall x, ~ (object_base h' <= x < next_free h') ->
                load_byte (mem w') x = load_byte (mem w) x).
Proof.
  intros Hr H Hsane.
  unfold obstack_grow in H. after_room H. injection H as <- <-.
  pose proof (wrap_range n) as Hn.
  set (bs := load_bytes (mem w0) src (Z.to_nat (wrap n))).
  assert (Hlen : Z.of_nat (length bs) = wrap n).
  { unfold bs. rewrite load_bytes_length. unfold in_range in Hn. lia. }
  pose proof (growth_appends h (wrap n) w h0 w0 bs Hr Hn Hroom Hsane
                ltac:(lia)) as G.
  cbv zeta in G. rewrite Hlen in G.
  destruct G as (Happ & Hsz & Enf & Hframe & Hframe1 & _).
  cbn [next_free object_base set_next_free] in Enf.
  split; [| split; [exact Hsz | exact Hframe]].
  intros Hsrc Hend Hdisj. cbn [next_free object_base set_next_free] in Hdisj.
  unfold memcpy. fold bs. rewrite Happ. f_equal.
  unfold bs. apply load_bytes_ext; [exact Hsrc | unfold in_range in Hn; lia |].
  intros x Hx. apply Hframe1. rewrite Z2Nat.id in Hx by apply Hn.
  destruct (cursors_object_size h0 w0) as (_ & Hsz0 & _).
  { eapply ensure_room_cursors; eauto. }
  unfold in_range in Hn. lia.
Qed.

(** [obstack_grow (h, src, n)] appends the [n] bytes at [src] to the
    growing object, which is moved to a new chunk first if there was no
    room, and changes no byte outside the object.  The stack holds its
    current chunk; the source is an array of the address space that the
    resulting object does not overlap and that lies in no block that the
    migration obtained or released: the macro reads it after the
    migration. *)
Theorem grow_appends_bytes (h : obstack) (src n : Z) (w : world)
    (h' : obstack) (w' : world) :
  reachable h w ->
  is_Some (hdrs w !! chunk h) ->
  obstack_grow h src n w = Return tt h' w' ->
  sane_allocator w' ->
  0 <= src -> src + wrap n <= size_modulus ->
  src + wrap n <= object_base h' \/ next_free h' <= src ->
  source_apart w w' src (wrap n) ->
  object_bytes h' w'
  = object_bytes h w ++ load_bytes (mem w) src (Z.to_nat (wrap n))
  /\ obstack_object_size h' = obstack_object_size h + wrap n
  /\ (forall x, ~ (object_base h' <= x < next_free h') ->
                load_byte (mem w') x = load_byte (mem w) x).
Proof.
  intros Hr _ H Hsane Hsrc Hend Hdisj _.
  destruct (grow_spec h src n w h' w' (reachable_cursors _ _ Hr) H Hsane)
    as (Hbytes & Hsz & Hframe).
  auto.
Qed.

Lemma grow_appends_bytes_witness :
  exists h' w',
    obstack_grow text_stack 5000 30 text_world = Return tt h' w'
    /\ trace w'
       = trace text_world ++ [EvAlloc 1 None 137 3000; EvFree 2 None 2000]
    /\ object_bytes h' w'
       = object_bytes text_stack text_world
         ++ load_bytes (mem text_world) 5000 (Z.to_nat (wrap 30))
    /\ obstack_object_size h' = obstack_object_size text_stack + wrap 30.
Proof.
  eexists _, _. split; [vm_compute; reflexivity |].
  split; [reflexivity |].
  edestruct (grow_appends_bytes text_stack 5000 30 text_world)
    as (H1 & H2 & _).
  - exact text_reachable.
  - vm_compute. eauto.
  - vm_compute. reflexivity.
  - sane_trace.
  - lia.
  - rewrite size_modulus_eq. vm_compute. discriminate.
  - right. vm_compute. discriminate.
  - unfold source_apart. cbn [trace text_world length drop app].
    change (wrap 30) with 30.
    apply Forall_cons_2; [intros _ x Hx; lia |].
    apply Forall_cons_2; [| apply Forall_nil_2].
    intros ch Hc x Hx.
    cbn [hdrs text_world] in Hc. apply lookup_singleton_Some in Hc as [_ <-].
    cbn [limit]. lia.
  - split; [exact H1 | exact H2].
Defined.

Lemma grow0_spec (h : obstack) (src n : Z) (w : world)
    (h' : obstack) (w' : world) :
  cursors_in_chunk h w ->
  obstack_grow0 h src n w = Return tt h' w' ->
  sane_allocator w' ->
  wrap n + 1 < size_modulus ->
  (0 <= src -> src + wrap n <= size_modulus ->
   src + wrap n <= object_base h' \/ next_free h' <= src ->
   object_bytes h' w'
   = object_bytes h w ++ load_bytes (mem w) src (Z.to_nat (wrap n)) ++ [0])
  /\ obstack_object_size h' = obstack_object_size h + wrap n + 1
  /\ (forall x, ~ (object_base h' <= x < next_free h') ->
                load_byte (mem w') x = load_byte (mem w) x).
Proof.
  intros Hr H Hsane Hend.
  unfold obstack_grow0 in H. after_room H. injection H as <- <-.
  pose proof (wrap_range n) as Hn.
  assert (Hone : wrap (wrap n + 1) = wrap n + 1)
    by (apply wrap_small; unfold in_range in *; lia).
  rewrite Hone in Hroom.
  assert (Hn1 : in_range (wrap n + 1)) by (unfold in_range in *; lia).
  set (bs := load_bytes (mem w0) src (Z.to_nat (wrap n))).
  assert (Hlen : Z.of_nat (length bs) = wrap n).
  { unfold bs. rewrite load_bytes_length. unfold in_range in Hn. lia. }
  set (h2 := set_next_free (wrap (next_free h0 + wrap n)) h0).
  set (w2 := set_mem (store_bytes (mem w0) (next_free h0) bs) w0).
  set (h3 := set_next_free (wrap (next_free h2 + 1)) h2).
  set (w3 := set_mem (store_bytes (mem w2) (next_free h2) [0]) w2).
  change ((0 <= src -> src + wrap n <= size_modulus ->
           src + wrap n <= object_base h0 \/ next_free h3 <= src ->
           object_bytes h3 w3
           = object_bytes h w
             ++ load_bytes (mem w) src (Z.to_nat (wrap n)) ++ [0])
          /\ obstack_object_size h3 = obstack_object_size h + wrap n + 1
          /\ (forall x, ~ (object_base h0 <= x < next_free h3) ->
                        load_byte (mem w3) x = load_byte (mem w) x)).
  pose proof (growth_appends h (wrap n + 1) w h0 w0 bs Hr Hn1 Hroom Hsane
                ltac:(lia)) as G.
  cbv zeta in G. rewrite Hlen in G. fold h2 in G. fold w2 in G.
  destruct G as (Happ & Hsz & Enf & Hframe & Hframe1 & Hinv2).
  change (object_base h2) with (object_base h0) in Hframe.
  destruct (ensure_room_cursors h (wrap n + 1) w h0 w0 Hr Hn1 Hroom Hsane)
    as [Hinv1 Hfit].
  assert (Hfit2 : next_free h2 + Z.of_nat (length [0]) <= chunk_limit h2).
  { rewrite Enf. cbn [length]. change (chunk_limit h2) with (chunk_limit h0).
    lia. }
  destruct (append_object h2 w2 [0] Hinv2 Hfit2) as (Enf3 & Happ3 & Hframe3).
  cbn [length] in Enf3, Happ3, Hframe3.
  change (Z.of_nat 1) with 1 in *.
  fold h3 in Enf3, Happ3. fold w3 in Happ3, Hframe3.
  destruct (cursors_object_size h w Hr) as (Hs & _).
  destruct (cursors_object_size h0 w0 Hinv1) as (Hs0 & Hs00 & Hob0 & _).
  pose proof Hinv1 as (_ & _ & _ & _ & _ & Hcl & _).
  split; [| split].
  - intros Hsrc Hend' Hdisj.
    assert (Hsrc_same : bs = load_bytes (mem w) src (Z.to_nat (wrap n))).
    { apply load_bytes_ext; [exact Hsrc | unfold in_range in Hn; lia |].
      intros x Hx. apply Hframe1. rewrite Z2Nat.id in Hx by apply Hn.
      unfold in_range in Hn. lia. }
    rewrite Happ3, Happ, Hsrc_same, <- app_assoc. reflexivity.
  - unfold obstack_object_size at 1. rewrite Enf3, Enf.
    change (object_base h3) with (object_base h0).
    unfold obstack_object_size in Hsz at 1.
    change (object_base h2) with (object_base h0) in Hsz.
    rewrite Enf in Hsz.
    rewrite wrap_small by (unfold in_range in *; lia).
    rewrite wrap_small in Hsz by (unfold in_range in *; lia). lia.
  - intros x Hx. rewrite Hframe3 by lia. apply Hframe. lia.
Qed.

(** [obstack_grow0] appends the [n] bytes at [src] and a null byte, under
    the same conditions on the stack and on the source as
    [obstack_grow]: the stack holds its current chunk, and the source
    overlaps neither the resulting object nor a block that the migration
    obtained or released. *)
Theorem grow0_appends_terminated (h : obstack) (src n : Z) (w : world)
    (h' : obstack) (w' : world) :
  reachable h w ->
  is_Some (hdrs w !! chunk h) ->
  obstack_grow0 h src n w = Return tt h' w' ->
  sane_allocator w' ->
  0 <= src -> src + wrap n + 1 < size_modulus ->
  src + wrap n <= object_base h' \/ next_free h' <= src ->
  source_apart w w' src (wrap n) ->
  object_bytes h' w'
  = object_bytes h w ++ load_bytes (mem w) src (Z.to_nat (wrap n)) ++ [0]
  /\ obstack_object_size h' = obstack_object_size h + wrap n + 1
  /\ (forall x, ~ (object_base h' <= x < next_free h') ->
                load_byte (mem w') x = load_byte (mem w) x).
Proof.
  intros Hr _ H Hsane Hsrc Hend Hdisj _.
  destruct (grow0_spec h src n w h' w' (reachable_cursors _ _ Hr) H Hsane
              ltac:(lia)) as (Hbytes & Hsz & Hframe).
  split; [apply Hbytes; auto; lia | auto].
Qed.

Lemma grow0_appends_terminated_witness :
  exists h' w',
    obstack_grow0 text_stack 5000 30 text_world = Return tt h' w'
    /\ trace w'
       = trace text_world ++ [EvAlloc 1 None 138 3000; EvFree 2 None 2000]
    /\ object_bytes h' w'
       = object_bytes text_stack text_world
         ++ load_bytes (mem text_world) 5000 (Z.to_nat (wrap 30)) ++ [0]
    /\ obstack_object_size h'
       = obstack_object_size text_stack + wrap 30 + 1.
Proof.
  eexists _, _. split; [vm_compute; reflexivity |].
  split; [reflexivity |].
  edestruct (grow0_appends_terminated text_stack 5000 30 text_world)
    as (H1 & H2 & _).
  - exact text_reachable.
  - vm_compute. eauto.
  - vm_compute. reflexivity.
  - sane_trace.
  - lia.
  - rewrite size_modulus_eq. vm_compute. reflexivity.
  - right. vm_compute. discriminate.
  - unfold source_apart. cbn [trace text_world length drop app].
    change (wrap 30) with 30.
    apply Forall_cons_2; [intros _ x Hx; lia |].
    apply Forall_cons_2; [| apply Forall_nil_2].
    intros ch Hc x Hx.
    cbn [hdrs text_world] in Hc. apply lookup_singleton_Some in Hc as [_ <-].
    cbn [limit]. lia.
  - split; [exact H1 | exact H2].
Defined.

Lemma land_255 d : Z.land d 255 = d mod 256.
Proof. change 255 with (Z.ones 8). apply Z.land_ones. lia. Qed.

Lemma object_bytes_length h w :
  length (object_bytes h w) = Z.to_nat (obstack_object_size h).
Proof. apply load_bytes_length. Qed.

(** [obstack_1grow] appends one byte, the character cut to 8 bits. *)
Theorem grow1_appends_byte (h : obstack) (d : Z) (w : world)
    (h' : obstack) (w' : world) :
  reachable h w ->
  obstack_1grow h d w = Return tt h' w' ->
  sane_allocator w' ->
  object_bytes h' w' = object_bytes h w ++ [d mod 256]
  /\ obstack_object_size h' = obstack_object_size h + 1
  /\ (forall x, ~ (object_base h' <= x < next_free h') ->
                load_byte (mem w') x = load_byte (mem w) x).
Proof.
  intros Hr H Hsane. apply reachable_cursors in Hr.
  unfold obstack_1grow, obstack_1grow_fast in H.
  after_room H. injection H as <- <-.
  assert (H1 : in_range 1) by (unfold in_range; rewrite size_modulus_eq; lia).
  pose proof (growth_appends h 1 w h0 w0 [Z.land d 255] Hr H1 Hroom Hsane
                ltac:(cbn [length]; lia)) as G.
  cbv zeta in G. cbn [length] in G. change (Z.of_nat 1) with 1 in G.
  destruct G as (Happ & Hsz & _ & Hframe & _).
  rewrite <- land_255. exact (conj Happ (conj Hsz Hframe)).
Qed.

Lemma grow1_appends_byte_witness :
  exists h' w',
    obstack_1grow text_stack 321 text_world = Return tt h' w'
    /\ object_bytes h' w' = [] ++ [65]
    /\ obstack_object_size h' = 0 + 1.
Proof.
  eexists _, _. split; [vm_compute; reflexivity |].
  destruct (grow1_appends_byte text_stack 321 text_world
              (set_next_free 2017 text_stack)
              (set_mem (<[2016 := 65]> (mem text_world)) text_world))
    as (H1 & H2 & _).
  - exact text_reachable.
  - vm_compute. reflexivity.
  - sane_trace.
  - split; [exact H1 | exact H2].
Defined.

(** [obstack_ptr_grow] appends the 8 bytes of a pointer: the bytes that
    follow the former contents of the object, read as a number, least
    significant byte first, are the pointer. *)
Theorem ptr_grow_appends_pointer (h : obstack) (d : Z) (w : world)
    (h' : obstack) (w' : world) :
  reachable h w ->
  obstack_ptr_grow h d w = Return tt h' w' ->
  sane_allocator w' ->
  object_bytes h' w' = object_bytes h w ++ encode_le 8 d
  /\ decode_le (drop (Z.to_nat (obstack_object_size h)) (object_bytes h' w'))
     = wrap d
  /\ obstack_object_size h' = obstack_object_size h + sizeof_void_p
  /\ (forall x, ~ (object_base h' <= x < next_free h') ->
                load_byte (mem w') x = load_byte (mem w) x).
Proof.
  intros Hr H Hsane. apply reachable_cursors in Hr.
  unfold obstack_ptr_grow, obstack_ptr_grow_fast in H.
  after_room H. injection H as <- <-.
  assert (H8 : in_range sizeof_void_p)
    by (unfold in_range, sizeof_void_p; rewrite size_modulus_eq; lia).
  pose proof (growth_appends h sizeof_void_p w h0 w0
                (encode_le (Z.to_nat sizeof_void_p) d) Hr H8 Hroom Hsane
                ltac:(rewrite encode_le_length; reflexivity)) as G.
  cbv zeta in G. rewrite encode_le_length in G.
  change (Z.of_nat (Z.to_nat sizeof_void_p)) with sizeof_void_p in G.
  destruct G as (Happ & Hsz & _ & Hframe & _).
  change (Z.to_nat sizeof_void_p) with 8%nat in *.
  assert (Hd : decode_le
                 (drop (Z.to_nat (obstack_object_size h))
                    (object_bytes h w ++ encode_le 8 d)) = wrap d).
  { rewrite <- (object_bytes_length h w), drop_app_length, decode_encode_le.
    reflexivity. }
  rewrite <- Happ in Hd.
  exact (conj Happ (conj Hd (conj Hsz Hframe))).
Qed.

Lemma ptr_grow_appends_pointer_witness :
  exists h' w',
    obstack_ptr_grow text_stack 5000 text_world = Return tt h' w'
    /\ object_bytes h' w' = [] ++ [136; 19; 0; 0; 0; 0; 0; 0]
    /\ decode_le (drop 0 (object_bytes h' w')) = 5000.
Proof.
  eexists _, _. split; [vm_compute; reflexivity |].
  destruct (ptr_grow_appends_pointer text_stack 5000 text_world
              (set_next_free 2024 text_stack)
              (set_mem (store_bytes (mem text_world) 2016
                          [136; 19; 0; 0; 0; 0; 0; 0]) text_world))
    as (H1 & H2 & _).
  - exact text_reachable.
  - vm_compute. reflexivity.
  - sane_trace.
  - split; [exact H1 | exact H2].
Defined.

(** [obstack_int_grow] appends the 4 bytes of an [int]: read back, they
    give the value modulo [2 ^ 32]. *)
Theorem int_grow_appends_int (h : obstack) (d : Z) (w : world)
    (h' : obstack) (w' : world) :
  reachable h w ->
  obstack_int_grow h d w = Return tt h' w' ->
  sane_allocator w' ->
  object_bytes h' w' = object_bytes h w ++ encode_le 4 d
  /\ decode_le (drop (Z.to_nat (obstack_object_size h)) (object_bytes h' w'))
     = d mod 2 ^ 32
  /\ obstack_object_size h' = obstack_object_size h + sizeof_int
  /\ (forall x, ~ (object_base h' <= x < next_free h') ->
                load_byte (mem w') x = load_byte (mem w) x).
Proof.
  intros Hr H Hsane. apply reachable_cursors in Hr.
  unfold obstack_int_grow, obstack_int_grow_fast in H.
  after_room H. injection H as <- <-.
  assert (H4 : in_range sizeof_int)
    by (unfold in_range, sizeof_int; rewrite size_modulus_eq; lia).
  pose proof (growth_appends h sizeof_int w h0 w0
                (encode_le (Z.to_nat sizeof_int) d) Hr H4 Hroom Hsane
                ltac:(rewrite encode_le_length; reflexivity)) as G.
  cbv zeta in G. rewrite encode_le_length in G.
  change (Z.of_nat (Z.to_nat sizeof_int)) with sizeof_int in G.
  destruct G as (Happ & Hsz & _ & Hframe & _).
  change (Z.to_nat sizeof_int) with 4%nat in *.
  assert (Hd : decode_le
                 (drop (Z.to_nat (obstack_object_size h))
                    (object_bytes h w ++ encode_le 4 d)) = d mod 2 ^ 32).
  { rewrite <- (object_bytes_length h w), drop_app_length, decode_encode_le.
    reflexivity. }
  rewrite <- Happ in Hd.
  exact (conj Happ (conj Hd (conj Hsz Hframe))).
Qed.

Lemma int_grow_appends_int_witness :
  exists h' w',
    obstack_int_grow text_stack (-2) text_world = Return tt h' w'
    /\ object_bytes h' w' = [] ++ [254; 255; 255; 255]
    /\ decode_le (drop 0 (object_bytes h' w')) = 4294967294.
Proof.
  eexists _, _. split; [vm_compute; reflexivity |].
  destruct (int_grow_appends_int text_stack (-2) text_world
              (set_next_free 2020 text_stack)
              (set_mem (store_bytes (mem text_world) 2016
                          [254; 255; 255; 255]) text_world))
    as (H1 & H2 & _).
  - exact text_reachable.
  - vm_compute. reflexivity.
  - sane_trace.
  - split; [exact H1 | exact H2].
Defined.

(** ** Finishing an object *)

Lemma same_setup_refl h : same_setup h h.
Proof. unfold same_setup. auto 10. Qed.

Lemma same_setup_trans h1 h2 h3 :
  same_setup h1 h2 -> same_setup h2 h3 -> same_setup h1 h3.
Proof.
  unfold same_setup. intros (A1 & A2 & A3 & A4 & A5 & A6)
    (B1 & B2 & B3 & B4 & B5 & B6).
  repeat split; congruence.
Qed.

Lemma ensure_room_setup h len w h1 w1 :
  (if obstack_room h <? len then _obstack_newchunk h len w
   else Return tt h w) = Return tt h1 w1 ->
  same_setup h h1.
Proof.
  destruct (obstack_room h <? len).
  - intros H. apply newchunk_return in H. cbv zeta in H.
    destruct H as (_ & _ & -> & _). unfold same_setup. cbn. auto 10.
  - intros [= <- <-]. apply same_setup_refl.
Qed.

Lemma finish_spec h w a h' w' :
  cursors_in_chunk h w ->
  next_free h + alignment_mask h < size_modulus ->
  obstack_finish h w = Return a h' w' ->
  a = object_base h /\ w' = w
  /\ next_free h <= object_base h' <= next_free h + alignment_mask h
  /\ object_base h' <= chunk_limit h'
  /\ next_free h' = object_base h'
  /\ chunk h' = chunk h /\ chunk_limit h' = chunk_limit h
  /\ same_setup h h'
  /\ maybe_empty_object h'
     = (if next_free h =? object_base h then true else maybe_empty_object h)
  /\ (let nf := __PTR_ALIGN (object_base h) (next_free h)
                  (alignment_mask h) in
      (object_base h' = nf /\ nf <= chunk_limit h)
      \/ (object_base h' = chunk_limit h /\ chunk_limit h < nf)).
Proof.
  intros (Hm & Hcs & Hc & Hcob & [Hob Hnf] & Hcl & Hty) Hnowrap H.
  unfold obstack_finish in H. injection H as <- <- <-.
  set (h1 := if next_free h =? object_base h
             then set_maybe_empty_object true h else h).
  assert (E : chunk h1 = chunk h /\ object_base h1 = object_base h
              /\ next_free h1 = next_free h /\ chunk_limit h1 = chunk_limit h
              /\ same_setup h h1
              /\ maybe_empty_object h1
                 = (if next_free h =? object_base h then true
                    else maybe_empty_object h)).
  { unfold h1, same_setup.
    destruct (next_free h =? object_base h); cbn; auto 12. }
  destruct E as (E1 & E2 & E3 & E4 & E5 & E6).
  pose proof E5 as (E7 & _).
  set (nf1 := __PTR_ALIGN (object_base h1) (next_free h1) (alignment_mask h1)).
  assert (Hb : next_free h <= nf1 <= next_free h + alignment_mask h).
  { unfold nf1. rewrite E3, E7. apply ptr_align_bounds; [exact Hm | lia |].
    exact Hnowrap. }
  assert (Enf1 : nf1 = __PTR_ALIGN (object_base h) (next_free h)
                         (alignment_mask h)).
  { unfold nf1. rewrite E2, E3, E7. reflexivity. }
  cbn [chunk_limit chunk next_free set_next_free].
  rewrite E1, E4.
  rewrite !wrap_small by (unfold in_range; lia).
  split; [reflexivity |]. split; [reflexivity |].
  destruct (chunk_limit h - chunk h <? nf1 - chunk h) eqn:Htest;
    [apply Z.ltb_lt in Htest | apply Z.ltb_ge in Htest];
    cbn; rewrite ?E1, ?E4;
    (split; [lia |]); (split; [lia |]); (split; [reflexivity |]);
    (split; [reflexivity |]); (split; [reflexivity |]);
    (split; [exact E5 |]); (split; [exact E6 |]);
    cbv zeta; rewrite <- Enf1; [right | left]; split; lia.
Qed.

(** [obstack_finish] returns the address of the growing object and writes
    no byte.  The next object is empty and starts where the finished one
    ends, rounded up to the alignment but to no more than [chunk_limit]:
    the two objects do not overlap.  [maybe_empty_object] is set when the
    finished object is empty.  The addresses of the chunk are not within
    the alignment of the end of the address space. *)
Theorem finish_closes_object (h : obstack) (w : world) (a : Z)
    (h' : obstack) (w' : world) :
  reachable h w ->
  next_free h + alignment_mask h < size_modulus ->
  obstack_finish h w = Return a h' w' ->
  a = object_base h /\ w' = w
  /\ a + obstack_object_size h <= object_base h'
  /\ object_base h' <= a + obstack_object_size h + alignment_mask h
  /\ object_base h' <= chunk_limit h'
  /\ obstack_object_size h' = 0
  /\ chunk h' = chunk h /\ chunk_limit h' = chunk_limit h
  /\ maybe_empty_object h'
     = (if obstack_object_size h =? 0 then true else maybe_empty_object h).
Proof.
  intros Hr Hnowrap H. apply reachable_cursors in Hr.
  destruct (cursors_object_size h w Hr) as (Hsz & Hsz0 & _).
  destruct (finish_spec h w a h' w' Hr Hnowrap H)
    as (Ha & Hw & Hb & Hlim & Hnf & Hc & Hcl & _ & Hmeo & _).
  rewrite Hsz, Ha.
  split; [reflexivity |]. split; [exact Hw |].
  split; [lia |]. split; [lia |]. split; [exact Hlim |].
  split; [unfold obstack_object_size; rewrite Hnf, Z.sub_diag; reflexivity |].
  split; [exact Hc |]. split; [exact Hcl |].
  rewrite Hmeo.
  destruct (next_free h =? object_base h) eqn:E1;
    destruct (next_free h - object_base h =? 0) eqn:E2; try reflexivity;
    [apply Z.eqb_eq in E1; apply Z.eqb_neq in E2
    | apply Z.eqb_neq in E1; apply Z.eqb_eq in E2]; lia.
Qed.

Lemma finish_closes_object_witness :
  exists h' w',
    obstack_finish (set_next_free 2019 text_stack) text_world
    = Return 2016 h' w'
    /\ object_base h' = 2024
    /\ 2016 + obstack_object_size (set_next_free 2019 text_stack)
       <= object_base h'
    /\ obstack_object_size h' = 0.
Proof.
  eexists _, _. split; [vm_compute; reflexivity |].
  split; [reflexivity |].
  destruct (finish_closes_object (set_next_free 2019 text_stack) text_world
              2016
              (set_object_base 2024 (set_next_free 2024 text_stack))
              text_world)
    as (_ & _ & H1 & _ & _ & H2 & _).
  - apply (reach_return text_stack text_world (Blank 3) None).
    + exact text_reachable.
    + vm_compute. reflexivity.
    + sane_trace.
  - rewrite size_modulus_eq. vm_compute. reflexivity.
  - vm_compute. reflexivity.
  - split; [exact H1 | exact H2].
Defined.

Lemma ptr_align_fixed B P A :
  is_mask A -> 0 <= P -> P + A < size_modulus -> P mod (A + 1) = 0 ->
  __PTR_ALIGN B P A = P.
Proof.
  intros Hmask HP Hsum Hal.
  pose proof (mask_range A Hmask) as HA.
  pose proof (ptr_align_bounds B P A HA HP Hsum) as Hb.
  pose proof (ptr_align_aligned B P A Hmask) as Hr.
  assert (Hpos : 0 < A + 1) by (unfold in_range in HA; lia).
  apply Z.mod_divide in Hr; [| lia]. apply Z.mod_divide in Hal; [| lia].
  destruct Hr as [i Hi]. destruct Hal as [j Hj].
  rewrite Hi in *. subst P. assert (i = j) by nia. subst i. reflexivity.
Qed.

(** Finishing an empty object moves nothing: [obstack_finish] returns
    [object_base] and only sets [maybe_empty_object], so that the next
    object, empty or not, gets the same address.  The object starts at a
    multiple of the alignment or at [chunk_limit], as it does in
    disciplined use. *)
Theorem finish_empty_object_stays (h : obstack) (w : world) :
  reachable h w ->
  is_mask (alignment_mask h) ->
  next_free h + alignment_mask h < size_modulus ->
  next_free h = object_base h ->
  object_base h mod (alignment_mask h + 1) = 0
  \/ object_base h = chunk_limit h ->
  obstack_finish h w
  = Return (object_base h) (set_maybe_empty_object true h) w.
Proof.
  intros Hr Hmask Hnowrap Hempty Hal. apply reachable_cursors in Hr.
  pose proof Hr as (Hm & Hcs & Hc0 & Hcob & [Hob Hnfl] & Hcll & Hty).
  unfold obstack_finish.
  replace (next_free h =? object_base h) with true
    by (symmetry; apply Z.eqb_eq; exact Hempty).
  cbn [chunk_limit chunk next_free set_next_free object_base
       set_maybe_empty_object alignment_mask].
  set (nf1 := __PTR_ALIGN (object_base h) (next_free h) (alignment_mask h)).
  assert (Hb : next_free h <= nf1 <= next_free h + alignment_mask h)
    by (apply ptr_align_bounds; [exact Hm | lia | exact Hnowrap]).
  assert (Hfix : object_base h mod (alignment_mask h + 1) = 0 ->
                 nf1 = object_base h).
  { intros Hal'. unfold nf1. rewrite Hempty.
    apply ptr_align_fixed; auto; lia. }
  clearbody nf1.
  rewrite !wrap_small by (unfold in_range; lia).
  destruct (chunk_limit h - chunk h <? nf1 - chunk h) eqn:Htest;
    [apply Z.ltb_lt in Htest | apply Z.ltb_ge in Htest].
  - assert (Hat : object_base h = chunk_limit h).
    { destruct Hal as [Hal | Hat]; [| exact Hat].
      specialize (Hfix Hal). lia. }
    cbn. f_equal. clear - Hempty Hat.
    destruct h; cbn in *; subst; reflexivity.
  - assert (Hsame : nf1 = object_base h).
    { destruct Hal as [Hal | Hat]; [exact (Hfix Hal) | lia]. }
    cbn. rewrite Hsame. f_equal. clear - Hempty.
    destruct h; cbn in *; subst; reflexivity.
Qed.

Lemma finish_empty_object_stays_witness :
  obstack_finish text_stack text_world
  = Return 2016 (set_maybe_empty_object true text_stack) text_world
  /\ obstack_finish (set_maybe_empty_object true text_stack) text_world
     = Return 2016 (set_maybe_empty_object true text_stack) text_world.
Proof.
  split; [| vm_compute; reflexivity].
  apply (finish_empty_object_stays text_stack text_world).
  - exact text_reachable.
  - exists 3. split; [unfold size_bits; lia | reflexivity].
  - rewrite size_modulus_eq. vm_compute. reflexivity.
  - reflexivity.
  - left. reflexivity.
Defined.

(** ** Growing and finishing in one step *)

Lemma set_next_free_setup h v : same_setup h (set_next_free v h).
Proof. unfold same_setup. cbn. auto 10. Qed.

Lemma blank_setup h n w h' w' :
  obstack_blank h n w = Return tt h' w' -> same_setup h h'.
Proof.
  unfold obstack_blank, obstack_blank_fast. intros H. after_room H.
  injection H as <- <-.
  eapply same_setup_trans; [eapply ensure_room_setup; eauto |].
  apply set_next_free_setup.
Qed.

Lemma grow_setup h p n w h' w' :
  obstack_grow h p n w = Return tt h' w' -> same_setup h h'.
Proof.
  unfold obstack_grow. intros H. after_room H. injection H as <- <-.
  eapply same_setup_trans; [eapply ensure_room_setup; eauto |].
  apply set_next_free_setup.
Qed.

Lemma grow0_setup h p n w h' w' :
  obstack_grow0 h p n w = Return tt h' w' -> same_setup h h'.
Proof.
  unfold obstack_grow0. intros H. after_room H. injection H as <- <-.
  eapply same_setup_trans; [eapply ensure_room_setup; eauto |].
  eapply same_setup_trans; apply set_next_free_setup.
Qed.

(** What [obstack_finish] adds to a growth that returned in the state
    [h0], [w0] with an object of [size] bytes. *)
Lemma finish_after_growth h h0 w0 size a h' w' :
  cursors_in_chunk h0 w0 -> same_setup h h0 ->
  obstack_object_size h0 = size ->
  obstack_finish h0 w0 = Return a h' w' ->
  a + size + alignment_mask h < size_modulus ->
  a = object_base h0 /\ w' = w0
  /\ chunk h' <= a
  /\ a + size <= object_base h' <= chunk_limit h'
  /\ obstack_object_size h' = 0.
Proof.
  intros Hinv0 (Hmask & _) Hsize H Hnowrap.
  assert (Ha : a = object_base h0) by (unfold obstack_finish in H; congruence).
  destruct (cursors_object_size h0 w0 Hinv0) as (Hs0 & Hs00 & _).
  assert (Hnw : next_free h0 + alignment_mask h0 < size_modulus)
    by (rewrite Hmask; lia).
  destruct (finish_spec h0 w0 a h' w' Hinv0 Hnw H)
    as (_ & Hw & Hb & Hlim & Hnf & Hc & _).
  pose proof Hinv0 as (_ & _ & _ & Hcob & _).
  split; [exact Ha |]. split; [exact Hw |].
  split; [lia |]. split; [lia |].
  unfold obstack_object_size. rewrite Hnf, Z.sub_diag. reflexivity.
Qed.

(** [obstack_alloc (h, n)] returns the address of [n] bytes, after the
    bytes that the growing object had, if any: a block inside the current
    chunk that ends at or before the start of the next object.  It writes
    no byte of the block, and no byte at all unless the object it extends
    had to be moved to a new chunk. *)
Theorem alloc_returns_block (h : obstack) (n : Z) (w : world) (a : Z)
    (h' : obstack) (w' : world) :
  reachable h w ->
  obstack_alloc h n w = Return a h' w' ->
  sane_allocator w' ->
  a + (obstack_object_size h + wrap n) + alignment_mask h < size_modulus ->
  chunk h' <= a
  /\ a + (obstack_object_size h + wrap n) <= object_base h'
  /\ object_base h' <= chunk_limit h'
  /\ obstack_object_size h' = 0
  /\ load_bytes (mem w') a (Z.to_nat (obstack_object_size h))
     = object_bytes h w
  /\ (forall x, ~ (a <= x < a + obstack_object_size h) ->
                load_byte (mem w') x = load_byte (mem w) x).
Proof.
  intros Hr H Hsane Hnowrap. apply reachable_cursors in Hr.
  unfold obstack_alloc in H.
  destruct (obstack_blank h n w) as [[] h0 w0 | | |] eqn:Hblank;
    cbn [bind] in H; try discriminate.
  assert (Hw : w' = w0) by (unfold obstack_finish in H; congruence).
  subst w'.
  pose proof (blank_cursors h n w h0 w0 Hr Hblank Hsane) as Hinv0.
  destruct (blank_spec h n w h0 w0 Hr Hblank Hsane)
    as (Hsz & Hbytes & Hframe & _).
  destruct (finish_after_growth h h0 w0 _ a h' w0 Hinv0
              (blank_setup _ _ _ _ _ Hblank) Hsz H ltac:(lia))
    as (-> & _ & Hc & Hb & Hsz').
  split; [exact Hc |]. split; [lia |]. split; [lia |].
  split; [exact Hsz' |]. split; [exact Hbytes | exact Hframe].
Qed.

Lemma alloc_returns_block_witness :
  exists h' w',
    obstack_alloc text_stack 30 text_world = Return 3016 h' w'
    /\ chunk h' = 3000 /\ object_base h' = 3048
    /\ 3016 + (obstack_object_size text_stack + wrap 30) <= object_base h'
    /\ object_base h' <= chunk_limit h'.
Proof.
  eexists _, _. split; [vm_compute; reflexivity |].
  split; [reflexivity |]. split; [reflexivity |].
  edestruct (alloc_returns_block text_stack 30 text_world 3016)
    as (_ & H1 & H2 & _).
  - exact text_reachable.
  - vm_compute. reflexivity.
  - sane_trace.
  - rewrite size_modulus_eq. vm_compute. reflexivity.
  - split; [exact H1 | exact H2].
Defined.

(** [obstack_copy (h, src, n)] returns the address of an object that holds
    the bytes that the growing object had, if any, followed by a copy of
    the [n] bytes at [src]; the next object starts at or after its end, and
    no byte outside the object changed.  The stack holds its current
    chunk, and the source overlaps neither the returned object nor a
    block that the migration obtained or released. *)
Theorem copy_returns_copy (h : obstack) (src n : Z) (w : world) (a : Z)
    (h' : obstack) (w' : world) :
  reachable h w ->
  is_Some (hdrs w !! chunk h) ->
  obstack_copy h src n w = Return a h' w' ->
  sane_allocator w' ->
  0 <= src -> src + wrap n <= size_modulus ->
  src + wrap n <= a \/ a + (obstack_object_size h + wrap n) <= src ->
  source_apart w w' src (wrap n) ->
  a + (obstack_object_size h + wrap n) + alignment_mask h < size_modulus ->
  load_bytes (mem w') a (Z.to_nat (obstack_object_size h + wrap n))
  = object_bytes h w ++ load_bytes (mem w) src (Z.to_nat (wrap n))
  /\ a + (obstack_object_size h + wrap n) <= object_base h'
  /\ object_base h' <= chunk_limit h'
  /\ obstack_object_size h' = 0
  /\ (forall x, ~ (a <= x < a + (obstack_object_size h + wrap n)) ->
                load_byte (mem w') x = load_byte (mem w) x).
Proof.
  intros Hr _ H Hsane Hsrc Hend Hdisj _ Hnowrap.
  apply reachable_cursors in Hr.
  unfold obstack_copy in H.
  destruct (obstack_grow h src n w) as [[] h0 w0 | | |] eqn:Hgrow;
    cbn [bind] in H; try discriminate.
  assert (Hw : w' = w0) by (unfold obstack_finish in H; congruence).
  subst w'.
  pose proof (grow_cursors h src n w h0 w0 Hr Hgrow Hsane) as Hinv0.
  destruct (grow_spec h src n w h0 w0 Hr Hgrow Hsane)
    as (Hbytes & Hsz & Hframe).
  destruct (finish_after_growth h h0 w0 _ a h' w0 Hinv0
              (grow_setup _ _ _ _ _ _ Hgrow) Hsz H ltac:(lia))
    as (-> & _ & Hc & Hb & Hsz').
  destruct (cursors_object_size h0 w0 Hinv0) as (Hs0 & Hs00 & _).
  rewrite Hsz in Hs0.
  split.
  { rewrite <- Hbytes by lia. unfold object_bytes. rewrite Hsz.
    reflexivity. }
  split; [lia |]. split; [lia |]. split; [exact Hsz' |].
  intros x Hx. apply Hframe. lia.
Qed.

Lemma copy_returns_copy_witness :
  exists h' w',
    obstack_copy text_stack 5000 30 text_world = Return 3016 h' w'
    /\ trace w'
       = trace text_world ++ [EvAlloc 1 None 137 3000; EvFree 2 None 2000]
    /\ load_bytes (mem w') 3016
         (Z.to_nat (obstack_object_size text_stack + wrap 30))
       = object_bytes text_stack text_world
         ++ load_bytes (mem text_world) 5000 (Z.to_nat (wrap 30))
    /\ 3016 + (obstack_object_size text_stack + wrap 30) <= object_base h'.
Proof.
  eexists _, _. split; [vm_compute; reflexivity |].
  split; [reflexivity |].
  edestruct (copy_returns_copy text_stack 5000 30 text_world 3016)
    as (H1 & H2 & _).
  - exact text_reachable.
  - vm_compute. eauto.
  - vm_compute. reflexivity.
  - sane_trace.
  - lia.
  - rewrite size_modulus_eq. vm_compute. discriminate.
  - right. vm_compute. discriminate.
  - unfold source_apart. cbn [trace text_world length drop app].
    change (wrap 30) with 30.
    apply Forall_cons_2; [intros _ x Hx; lia |].
    apply Forall_cons_2; [| apply Forall_nil_2].
    intros ch Hc x Hx.
    cbn [hdrs text_world] in Hc. apply lookup_singleton_Some in Hc as [_ <-].
    cbn [limit]. lia.
  - rewrite size_modulus_eq. vm_compute. reflexivity.
  - split; [exact H1 | exact H2].
Defined.

(** [obstack_copy0] returns the address of the same object with a null
    byte after the copy: a C string when the object was empty and the
    source holds no null byte.  The conditions on the stack and on the
    source are those of [obstack_copy]. *)
Theorem copy0_returns_terminated_copy (h : obstack) (src n : Z) (w : world)
    (a : Z) (h' : obstack) (w' : world) :
  reachable h w ->
  is_Some (hdrs w !! chunk h) ->
  obstack_copy0 h src n w = Return a h' w' ->
  sane_allocator w' ->
  0 <= src -> src + wrap n + 1 < size_modulus ->
  src + wrap n <= a \/ a + (obstack_object_size h + wrap n + 1) <= src ->
  source_apart w w' src (wrap n) ->
  a + (obstack_object_size h + wrap n + 1) + alignment_mask h
  < size_modulus ->
  load_bytes (mem w') a (Z.to_nat (obstack_object_size h + wrap n + 1))
  = object_bytes h w ++ load_bytes (mem w) src (Z.to_nat (wrap n)) ++ [0]
  /\ a + (obstack_object_size h + wrap n + 1) <= object_base h'
  /\ object_base h' <= chunk_limit h'
  /\ obstack_object_size h' = 0
  /\ (forall x, ~ (a <= x < a + (obstack_object_size h + wrap n + 1)) ->
                load_byte (mem w') x = load_byte (mem w) x).
Proof.
  intros Hr _ H Hsane Hsrc Hend Hdisj _ Hnowrap.
  apply reachable_cursors in Hr.
  unfold obstack_copy0 in H.
  destruct (obstack_grow0 h src n w) as [[] h0 w0 | | |] eqn:Hgrow;
    cbn [bind] in H; try discriminate.
  assert (Hw : w' = w0) by (unfold obstack_finish in H; congruence).
  subst w'.
  pose proof (grow0_cursors h src n w h0 w0 Hr Hgrow Hsane) as Hinv0.
  destruct (grow0_spec h src n w h0 w0 Hr Hgrow Hsane ltac:(lia))
    as (Hbytes & Hsz & Hframe).
  destruct (finish_after_growth h h0 w0 _ a h' w0 Hinv0
              (grow0_setup _ _ _ _ _ _ Hgrow) Hsz H ltac:(lia))
    as (-> & _ & Hc & Hb & Hsz').
  destruct (cursors_object_size h0 w0 Hinv0) as (Hs0 & Hs00 & _).
  rewrite Hsz in Hs0.
  split.
  { rewrite <- Hbytes by lia. unfold object_bytes. rewrite Hsz.
    reflexivity. }
  split; [lia |]. split; [lia |]. split; [exact Hsz' |].
  intros x Hx. apply Hframe. lia.
Qed.

Lemma copy0_returns_terminated_copy_witness :
  exists h' w',
    obstack_copy0 text_stack 5000 30 text_world = Return 3016 h' w'
    /\ trace w'
       = trace text_world ++ [EvAlloc 1 None 138 3000; EvFree 2 None 2000]
    /\ load_bytes (mem w') 3016
         (Z.to_nat (obstack_object_size text_stack + wrap 30 + 1))
       = object_bytes text_stack text_world
         ++ load_bytes (mem text_world) 5000 (Z.to_nat (wrap 30)) ++ [0].
Proof.
  eexists _, _. split; [vm_compute; reflexivity |].
  split; [reflexivity |].
  edestruct (copy0_returns_terminated_copy text_stack 5000 30 text_world 3016)
    as (H1 & _).
  - exact text_reachable.
  - vm_compute. eauto.
  - vm_compute. reflexivity.
  - sane_trace.
  - lia.
  - rewrite size_modulus_eq. vm_compute. reflexivity.
  - right. vm_compute. discriminate.
  - unfold source_apart. cbn [trace text_world length drop app].
    change (wrap 30) with 30.
    apply Forall_cons_2; [intros _ x Hx; lia |].
    apply Forall_cons_2; [| apply Forall_nil_2].
    intros ch Hc x Hx.
    cbn [hdrs text_world] in Hc. apply lookup_singleton_Some in Hc as [_ <-].
    cbn [limit]. lia.
  - rewrite size_modulus_eq. vm_compute. reflexivity.
  - exact H1.
Defined.

(** ** The calls of the chunk functions *)

Lemma made_calls_none h w : made_calls h w h w [].
Proof.
  split; [apply same_setup_refl |]. split; [rewrite app_nil_r; reflexivity |].
  left. reflexivity.
Qed.

(** A step that calls nothing, after a run. *)
Lemma made_calls_quiet h w h1 w1 h' w' evs :
  made_calls h w h1 w1 evs ->
  same_setup h1 h' -> trace w' = trace w1 ->
  made_calls h w h' w' evs.
Proof.
  intros (Hs & Ht & Hc) Hs' Ht'.
  split; [eapply same_setup_trans; eauto |].
  split; [rewrite Ht'; exact Ht | exact Hc].
Qed.

Lemma newchunk_calls h len w h' w' :
  final_state (_obstack_newchunk h len w) = Some (h', w') ->
  exists evs, made_calls h w h' w' evs.
Proof.
  rewrite newchunk_eq. cbv zeta.
  destruct (_ && _).
  - unfold call_chunkfun.
    pose proof (newchunk_size_preferred h len) as Hsize.
    destruct (hd 0 (oracle w) =? 0) eqn:Hnull.
    + intros [= <- <-]. eexists.
      split; [apply same_setup_refl |]. split; [reflexivity |].
      right. eexists _, _. split; [exact Hsize |]. left. reflexivity.
    + apply Z.eqb_neq in Hnull. destruct (only_object_of_chunk h).
      * destruct (hdrs _ !! chunk h); [| discriminate].
        intros [= <- <-]. eexists.
        split; [unfold same_setup; cbn; auto 10 |].
        split; [autorewrite with world; cbn [trace];
                rewrite <- app_assoc; reflexivity |].
        right. eexists _, _. split; [exact Hsize |]. right.
        split; [exact Hnull | reflexivity].
      * intros [= <- <-]. eexists.
        split; [unfold same_setup; cbn; auto 10 |].
        split; [reflexivity |].
        right. eexists _, _. split; [exact Hsize |]. left. reflexivity.
  - cbn [Z.eqb final_state]. intros [= <- <-]. exists []. apply made_calls_none.
Qed.

Lemma ensure_room_calls h len w h' w' :
  final_state (if obstack_room h <? len then _obstack_newchunk h len w
               else Return tt h w) = Some (h', w') ->
  exists evs, made_calls h w h' w' evs.
Proof.
  destruct (obstack_room h <? len); [apply newchunk_calls |].
  intros [= <- <-]. exists []. apply made_calls_none.
Qed.

(** A growth macro: the check for room, then stores and a move of
    [next_free]. *)
Lemma growth_calls {A : Type} h len w (k : unit -> obstack -> world -> outcome A)
    h' w' :
  (forall u h1 w1, exists a h2 w2,
      k u h1 w1 = Return a h2 w2
      /\ same_setup h1 h2 /\ trace w2 = trace w1) ->
  final_state
    (bind (if obstack_room h <? len then _obstack_newchunk h len w
           else Return tt h w) k) = Some (h', w') ->
  exists evs, made_calls h w h' w' evs.
Proof.
  intros Hk H.
  destruct (if obstack_room h <? len then _obstack_newchunk h len w
            else Return tt h w) as [u h1 w1 | h1 w1 | h1 w1 |] eqn:Hroom;
    cbn [bind] in H.
  - destruct (ensure_room_calls h len w h1 w1) as (evs & Hevs);
      [rewrite Hroom; reflexivity |].
    destruct (Hk u h1 w1) as (a & h2 & w2 & Hk1 & Hs & Ht).
    rewrite Hk1 in H. injection H as <- <-.
    exists evs. eapply made_calls_quiet; eauto.
  - apply (ensure_room_calls h len w). rewrite Hroom. exact H.
  - apply (ensure_room_calls h len w). rewrite Hroom. exact H.
  - discriminate.
Qed.

Lemma free_loop_calls fuel :
  forall h obj lp w o h' w',
    free_loop fuel h obj lp w = Some o ->
    final_state o = Some (h', w') ->
    same_setup h h'
    /\ exists cs,
         trace w' = trace w ++ map (EvFree (freefun h) (call_arg h)) cs.
Proof.
  induction fuel as [| fuel IH]; intros h obj lp w o h' w' H Hfin;
    rewrite free_loop_eq in H;
    (destruct (lp =? 0);
     [injection H as <-; injection Hfin as <- <-;
      split; [apply same_setup_refl |]; exists [];
      rewrite app_nil_r; reflexivity |]);
    (destruct (hdrs w !! lp) as [c |];
     [| injection H as <-; discriminate]);
    (destruct ((obj <=? lp) || (limit c <? obj));
     [| injection H as <-; injection Hfin as <- <-;
        split; [apply same_setup_refl |]; exists [];
        rewrite app_nil_r; reflexivity]).
  - discriminate.
  - destruct (IH _ _ _ _ _ _ _ H Hfin) as (Hs & cs & Ht).
    split.
    { eapply same_setup_trans; [| exact Hs]. unfold same_setup. cbn. auto 10. }
    exists (lp :: cs). cbn [map].
    rewrite Ht, trace_call_freefun, <- app_assoc. reflexivity.
Qed.

Lemma free_function_calls h obj w h' w' :
  final_state (_obstack_free h obj w) = Some (h', w') ->
  same_setup h h'
  /\ exists cs, trace w' = trace w ++ map (EvFree (freefun h) (call_arg h)) cs.
Proof.
  unfold _obstack_free.
  destruct (free_loop (base.size (hdrs w)) h obj (chunk h) w) as [o |] eqn:Hloop;
    [| discriminate].
  destruct o as [lp h1 w1 | h1 w1 | h1 w1 |]; cbn [bind]; try discriminate.
  - intros H.
    destruct (free_loop_calls _ _ _ _ _ _ h1 w1 Hloop eq_refl) as (Hs & Hcs).
    destruct (lp =? 0).
    + destruct (obj =? 0); injection H as <- <-; auto.
    + destruct (hdrs w1 !! lp); [| discriminate]. injection H as <- <-.
      split; [| exact Hcs].
      eapply same_setup_trans; [exact Hs |]. unfold same_setup. cbn. auto 10.
  - intros H. eapply free_loop_calls; eauto.
  - intros H. eapply free_loop_calls; eauto.
Qed.

Lemma free_macro_calls h obj w h' w' :
  final_state (obstack_free h obj w) = Some (h', w') ->
  same_setup h h'
  /\ exists cs, trace w' = trace w ++ map (EvFree (freefun h) (call_arg h)) cs.
Proof.
  unfold obstack_free. destruct (_ && _); [| apply free_function_calls].
  intros [= <- <-]. split; [unfold same_setup; cbn; auto 10 |].
  exists []. cbn [map trace]. rewrite app_nil_r. reflexivity.
Qed.

Lemma finish_quiet h w :
  exists a h', obstack_finish h w = Return a h' w /\ same_setup h h'.
Proof.
  unfold obstack_finish. eexists _, _. split; [reflexivity |].
  unfold same_setup.
  destruct (next_free h =? object_base h); cbn; destruct (_ <? _); cbn;
    auto 10.
Qed.

Lemma final_state_bind {A B : Type} (m : outcome A)
    (k : A -> obstack -> world -> outcome B) h' w' :
  final_state (bind m k) = Some (h', w') ->
  (exists a h1 w1, m = Return a h1 w1 /\ final_state (k a h1 w1) = Some (h', w'))
  \/ ((forall a h1 w1, m <> Return a h1 w1) /\ final_state m = Some (h', w')).
Proof.
  destruct m as [a h1 w1 | h1 w1 | h1 w1 |]; cbn [bind]; intros H.
  - left. eauto.
  - right. split; [discriminate | exact H].
  - right. split; [discriminate | exact H].
  - discriminate.
Qed.

(** Finishing after a growth. *)
Lemma then_finish_calls (m : outcome unit) h w h' w' :
  (forall h1 w1, final_state m = Some (h1, w1) ->
                 exists evs, made_calls h w h1 w1 evs) ->
  final_state (bind m (fun _ h w => obstack_finish h w)) = Some (h', w') ->
  exists evs, made_calls h w h' w' evs.
Proof.
  intros Hm H. apply final_state_bind in H.
  destruct H as [(a & h1 & w1 & -> & H) | [_ H]]; [| apply Hm, H].
  destruct (Hm h1 w1 eq_refl) as (evs & Hevs).
  destruct (finish_quiet h1 w1) as (v & h2 & Hf & Hs).
  rewrite Hf in H. injection H as <- <-.
  exists evs. eapply made_calls_quiet; eauto.
Qed.

Ltac quiet_step :=
  intros [] ? ?; eexists _, _, _; split; [reflexivity |];
  split; [unfold same_setup; cbn; auto 10 | reflexivity].

Lemma blank_calls h n w h' w' :
  final_state (obstack_blank h n w) = Some (h', w') ->
  exists evs, made_calls h w h' w' evs.
Proof.
  unfold obstack_blank, obstack_blank_fast. apply growth_calls. quiet_step.
Qed.

Lemma grow_calls h p n w h' w' :
  final_state (obstack_grow h p n w) = Some (h', w') ->
  exists evs, made_calls h w h' w' evs.
Proof. unfold obstack_grow. apply growth_calls. quiet_step. Qed.

Lemma grow0_calls h p n w h' w' :
  final_state (obstack_grow0 h p n w) = Some (h', w') ->
  exists evs, made_calls h w h' w' evs.
Proof. unfold obstack_grow0. apply growth_calls. quiet_step. Qed.

Lemma final_state_no_value (m : outcome unit) :
  final_state (no_value m) = final_state m.
Proof. destruct m as [[] ? ? | ? ? | ? ? |]; reflexivity. Qed.

Lemma final_state_value (m : outcome Z) :
  final_state (value m) = final_state m.
Proof. destruct m as [? ? ? | ? ? | ? ? |]; reflexivity. Qed.

Lemma exec_calls o h w h' w' :
  final_state (exec o h w) = Some (h', w') ->
  same_setup h h'
  /\ exists evs, trace w' = trace w ++ evs /\ calls_of_op o h evs.
Proof.
  assert (Hgen : (exists evs, made_calls h w h' w' evs) ->
                 same_setup h h'
                 /\ exists evs, trace w' = trace w ++ evs
                                /\ migration_calls h evs).
  { intros (evs & Hs & Ht & Hc). eauto. }
  destruct o; unfold exec, calls_of_op;
    rewrite ?final_state_no_value, ?final_state_value; intros H.
  - apply Hgen. unfold obstack_make_room in H. eapply ensure_room_calls, H.
  - apply Hgen. eapply blank_calls, H.
  - apply Hgen. unfold obstack_1grow, obstack_1grow_fast in H.
    eapply growth_calls; [| exact H]. quiet_step.
  - apply Hgen. unfold obstack_ptr_grow, obstack_ptr_grow_fast in H.
    eapply growth_calls; [| exact H]. quiet_step.
  - apply Hgen. unfold obstack_int_grow, obstack_int_grow_fast in H.
    eapply growth_calls; [| exact H]. quiet_step.
  - apply Hgen. eapply grow_calls, H.
  - apply Hgen. eapply grow0_calls, H.
  - apply Hgen. destruct (finish_quiet h w) as (a & h1 & Hf & Hs).
    rewrite Hf in H. injection H as <- <-. exists [].
    eapply made_calls_quiet; [apply made_calls_none | exact Hs | reflexivity].
  - apply Hgen. unfold obstack_alloc in H.
    eapply then_finish_calls; [| exact H]. intros h1 w1. apply blank_calls.
  - apply Hgen. unfold obstack_copy in H.
    eapply then_finish_calls; [| exact H]. intros h1 w1. apply grow_calls.
  - apply Hgen. unfold obstack_copy0 in H.
    eapply then_finish_calls; [| exact H]. intros h1 w1. apply grow0_calls.
  - destruct (free_macro_calls h obj w h' w' H) as (Hs & cs & Hcs). eauto.
  - destruct (free_function_calls h obj w h' w' H) as (Hs & cs & Hcs). eauto.
Qed.

Lemma calls_of_op_by o h evs :
  calls_of_op o h evs ->
  Forall (call_by (chunkfun h) (freefun h) (call_arg h)) evs.
Proof.
  assert (Hm : migration_calls h evs ->
               Forall (call_by (chunkfun h) (freefun h) (call_arg h)) evs).
  { intros [-> | (size & ret & _ & [-> | [_ ->]])].
    - apply Forall_nil_2.
    - apply Forall_cons_2; [split; reflexivity | apply Forall_nil_2].
    - apply Forall_cons_2; [split; reflexivity |].
      apply Forall_cons_2; [split; reflexivity | apply Forall_nil_2]. }
  assert (Hf : (exists cs, evs = map (EvFree (freefun h) (call_arg h)) cs) ->
               Forall (call_by (chunkfun h) (freefun h) (call_arg h)) evs).
  { intros (cs & ->). clear Hm.
    induction cs as [| c cs IH]; [apply Forall_nil_2 |].
    cbn [map]. apply Forall_cons_2; [split; reflexivity | exact IH]. }
  destruct o; cbn [calls_of_op]; auto.
Qed.

(** Whatever the operation and however it ends (by returning, in the
    failure handler or in [abort ()]), the only calls it makes are calls
    of the two functions that the stack holds, with the extra argument
    when the stack was set up with one.  [free] calls the free function
    only.  Any other operation calls nothing, or the allocation function
    once, for no less than the preferred chunk size, and then at most the
    free function once, for the chunk that was current.  No operation
    changes the functions, the extra argument, the alignment or the chunk
    size. *)
Theorem operations_call_registered_functions (o : op) (h : obstack)
    (w : world) (h' : obstack) (w' : world) :
  final_state (exec o h w) = Some (h', w') ->
  same_setup h h'
  /\ exists evs,
       trace w' = trace w ++ evs
       /\ calls_of_op o h evs
       /\ Forall (call_by (chunkfun h) (freefun h) (call_arg h)) evs.
Proof.
  intros H. destruct (exec_calls o h w h' w' H) as (Hs & evs & Ht & Hshape).
  split; [exact Hs |]. exists evs. split; [exact Ht |].
  split; [exact Hshape | apply (calls_of_op_by o), Hshape].
Qed.

Lemma operations_call_registered_functions_witness :
  exists h' w',
    exec (Alloc 30) text_stack text_world = Return (Some 3016) h' w'
    /\ trace w'
       = trace text_world ++ [EvAlloc 1 None 137 3000; EvFree 2 None 2000]
    /\ same_setup text_stack h'.
Proof.
  eexists _, _. split; [vm_compute; reflexivity |].
  split; [reflexivity |].
  eapply (operations_call_registered_functions (Alloc 30) text_stack
            text_world).
  vm_compute. reflexivity.
Defined.

(** [obstack_chunkfun] and [obstack_freefun] replace one of the two
    functions of the stack and nothing else: the operations that follow
    call the new function and the other one as it was, with the extra
    argument that the stack was set up with, and keep both. *)
Theorem chunkfun_macros_replace_functions (o : op) (h : obstack) (f : Z)
    (w : world) :
  (forall h' w',
      final_state (exec o (obstack_chunkfun h f) w) = Some (h', w') ->
      chunkfun h' = f /\ freefun h' = freefun h
      /\ exists evs, trace w' = trace w ++ evs
                     /\ Forall (call_by f (freefun h) (call_arg h)) evs)
  /\ (forall h' w',
         final_state (exec o (obstack_freefun h f) w) = Some (h', w') ->
         chunkfun h' = chunkfun h /\ freefun h' = f
         /\ exists evs, trace w' = trace w ++ evs
                        /\ Forall (call_by (chunkfun h) f (call_arg h)) evs).
Proof.
  split; intros h' w' H;
    destruct (exec_calls _ _ _ _ _ H)
      as ((_ & _ & S3 & S4 & _) & evs & Ht & Hshape);
    apply calls_of_op_by in Hshape;
    (split; [exact S3 |]); (split; [exact S4 |]);
    exists evs; (split; [exact Ht | exact Hshape]).
Qed.

Lemma chunkfun_macros_replace_functions_witness :
  exists h' w',
    exec (Alloc 30) (obstack_chunkfun text_stack 7) text_world
    = Return (Some 3016) h' w'
    /\ chunkfun h' = 7 /\ freefun h' = 2
    /\ trace w'
       = trace text_world ++ [EvAlloc 7 None 137 3000; EvFree 2 None 2000].
Proof.
  eexists _, _. split; [vm_compute; reflexivity |].
  destruct (chunkfun_macros_replace_functions (Alloc 30) text_stack 7
              text_world) as [H _].
  edestruct H as (H1 & H2 & _); [vm_compute; reflexivity |].
  split; [exact H1 |]. split; [exact H2 | reflexivity].
Defined.

(** ** Disciplined use is safe *)

Lemma newchunk_defined h len w c0 :
  hdrs w !! chunk h = Some c0 -> _obstack_newchunk h len w <> Undefined.
Proof.
  intros Hc0. rewrite newchunk_eq. cbv zeta.
  destruct (_ && _); [| cbn [Z.eqb]; discriminate].
  unfold call_chunkfun. destruct (hd 0 (oracle w) =? 0); [discriminate |].
  destruct (only_object_of_chunk h); [| discriminate].
  rewrite hdrs_set_mem, store_prev_limit. cbn [hdrs].
  destruct (decide (hd 0 (oracle w) = chunk h)) as [-> | Hne].
  - rewrite lookup_insert_eq. discriminate.
  - rewrite lookup_insert_ne, Hc0 by exact Hne. discriminate.
Qed.

Lemma growth_defined {A : Type} h len w c0
    (k : unit -> obstack -> world -> outcome A) :
  hdrs w !! chunk h = Some c0 ->
  (forall u h1 w1, k u h1 w1 <> Undefined) ->
  bind (if obstack_room h <? len then _obstack_newchunk h len w
        else Return tt h w) k <> Undefined.
Proof.
  intros Hc0 Hk.
  destruct (obstack_room h <? len) eqn:Hroom; [| cbn [bind]; apply Hk].
  pose proof (newchunk_defined h len w c0 Hc0) as Hd.
  destruct (_obstack_newchunk h len w); cbn [bind];
    [apply Hk | discriminate | discriminate | contradiction].
Qed.

(** On a chain that ends at the null pointer [_obstack_free] returns or
    ends in [abort ()], with the chunks of the chain before the one it
    stops at handed to the free function. *)
Lemma free_function_chain h obj w cs :
  chain (hdrs w) (chunk h) cs ->
  exists pre post h' w',
    cs = pre ++ post
    /\ trace w' = trace w ++ map (EvFree (freefun h) (call_arg h)) pre
    /\ (_obstack_free h obj w = Return tt h' w'
        \/ _obstack_free h obj w = Aborted h' w').
Proof.
  intros Hchain.
  destruct (chain_split_inside (hdrs w) obj cs (chunk h) Hchain)
    as [Hall | (newer & c & ch & older & -> & Hc & Hin & Hnew)].
  - pose proof (free_exhausted h obj w cs Hchain Hall) as Hfree.
    cbv zeta in Hfree.
    exists cs, []. eexists _, _. split; [rewrite app_nil_r; reflexivity |].
    split; [apply trace_release |].
    destruct (obj =? 0); [left | right]; exact Hfree.
  - exists newer, (c :: older). eexists _, _. split; [reflexivity |].
    split; [apply trace_release |]. left.
    apply (free_found h obj w newer c older ch); assumption.
Qed.

Lemma stack_inv_chain h w objs :
  stack_inv h w objs ->
  exists c0 cs,
    hdrs w !! chunk h = Some c0
    /\ chain (hdrs w) (chunk h) cs
    /\ forall x, x ∈ cs -> is_Some (live_blocks (trace w) !! x).
Proof.
  intros (_ & _ & _ & _ & cs & Hcinv).
  destruct (chain_inv_head _ _ _ _ Hcinv) as (c0 & rest & -> & _ & Hc0 & _).
  destruct Hcinv as (Hchain & _ & Hblk & _).
  exists c0, (chunk h :: rest). split; [exact Hc0 |]. split; [exact Hchain |].
  intros x Hx.
  destruct (chain_lookup _ _ _ _ Hchain Hx) as [_ [cx Hcx]].
  destruct (Hblk x cx Hx Hcx) as (_ & Hlive & _). eauto.
Qed.

Lemma exec_defined o h w c0 cs :
  hdrs w !! chunk h = Some c0 -> chain (hdrs w) (chunk h) cs ->
  exec o h w <> Undefined.
Proof.
  intros Hc0 Hchain.
  assert (Hnv : forall m : outcome unit, m <> Undefined ->
                                         no_value m <> Undefined)
    by (intros [[] ? ? | ? ? | ? ? |]; cbn; congruence).
  assert (Hv : forall m : outcome Z, m <> Undefined -> value m <> Undefined)
    by (intros [? ? ? | ? ? | ? ? |]; cbn; congruence).
  assert (Hfin : forall h1 w1, obstack_finish h1 w1 <> Undefined)
    by (intros; unfold obstack_finish; discriminate).
  destruct o; unfold exec; (apply Hnv || apply Hv).
  - unfold obstack_make_room.
    destruct (_ <? _); [eapply newchunk_defined; eauto | discriminate].
  - unfold obstack_blank, obstack_blank_fast.
    eapply growth_defined; [exact Hc0 | discriminate].
  - unfold obstack_1grow, obstack_1grow_fast.
    eapply growth_defined; [exact Hc0 | discriminate].
  - unfold obstack_ptr_grow, obstack_ptr_grow_fast.
    eapply growth_defined; [exact Hc0 | discriminate].
  - unfold obstack_int_grow, obstack_int_grow_fast.
    eapply growth_defined; [exact Hc0 | discriminate].
  - unfold obstack_grow. eapply growth_defined; [exact Hc0 | discriminate].
  - unfold obstack_grow0. eapply growth_defined; [exact Hc0 | discriminate].
  - apply Hfin.
  - unfold obstack_alloc, obstack_blank, obstack_blank_fast.
    pose proof (growth_defined h (wrap length) w c0
                  (fun _ h1 w1 =>
                     Return tt (set_next_free (wrap (next_free h1 + wrap length))
                                  h1) w1) Hc0 ltac:(discriminate)) as Hd.
    unfold obstack_blank_fast.
    destruct (bind _ _); cbn [bind]; [apply Hfin | discriminate..
                                      | contradiction].
  - unfold obstack_copy.
    assert (Hd : obstack_grow h where_ length w <> Undefined)
      by (unfold obstack_grow; eapply growth_defined; [exact Hc0 | discriminate]).
    destruct (obstack_grow h where_ length w); cbn [bind];
      [apply Hfin | discriminate.. | contradiction].
  - unfold obstack_copy0.
    assert (Hd : obstack_grow0 h where_ length w <> Undefined)
      by (unfold obstack_grow0; eapply growth_defined; [exact Hc0 | discriminate]).
    destruct (obstack_grow0 h where_ length w); cbn [bind];
      [apply Hfin | discriminate.. | contradiction].
  - unfold obstack_free. destruct (_ && _); [discriminate |].
    destruct (free_function_chain h obj w cs Hchain)
      as (pre & post & h' & w' & _ & _ & [-> | ->]); discriminate.
  - destruct (free_function_chain h obj w cs Hchain)
      as (pre & post & h' & w' & _ & _ & [-> | ->]); discriminate.
Qed.

Lemma text_history : history text_stack text_world [].
Proof.
  apply (hist_begin blank_stack
           (mk_world ∅ (mem text_world) [2000; 3000] []) 40 8 1 2 1).
  - unfold in_range. rewrite size_modulus_eq. lia.
  - vm_compute. reflexivity.
  - exists 3. split; [unfold size_bits; lia | reflexivity].
  - apply (well_behaved_snoc []); [apply well_behaved_nil |].
    intros _. rewrite size_modulus_eq.
    split; [lia |]. split; [lia |].
    intros b sz Hb. cbn in Hb. rewrite lookup_empty in Hb. discriminate.
Defined.

(** In disciplined use of a stack whose chunk size has room for the
    header of a chunk and the padding of the first object, every
    operation is defined: none reads the header of a chunk that is not
    allocated, whatever the pointer given to [free].  With that chunk
    size no object lies on the header of a chunk, so that the headers
    are only written by the stack. *)
Theorem disciplined_use_is_defined (h : obstack) (w : world)
    (objs : list (Z * Z)) (o : op) :
  reachable h w -> history h w objs -> exec o h w <> Undefined.
Proof.
  intros _ Hhist. apply history_inv in Hhist.
  destruct (stack_inv_chain h w objs Hhist) as (c0 & cs & Hc0 & Hchain & _).
  eapply exec_defined; eauto.
Qed.

Lemma disciplined_use_is_defined_witness :
  exec (Free 9999) text_stack text_world <> Undefined
  /\ exec (Copy0 5000 30) text_stack text_world <> Undefined.
Proof.
  split.
  - apply (disciplined_use_is_defined text_stack text_world []);
      [exact text_reachable | exact text_history].
  - apply (disciplined_use_is_defined text_stack text_world []);
      [exact text_reachable | exact text_history].
Defined.

Lemma map_free_split fn arg cs t1 fn' arg' p t2 :
  map (EvFree fn arg) cs = t1 ++ EvFree fn' arg' p :: t2 ->
  exists l1 l2, cs = l1 ++ p :: l2 /\ t1 = map (EvFree fn arg) l1.
Proof.
  revert t1. induction cs as [| c cs IH]; intros t1 H.
  - destruct t1; discriminate.
  - destruct t1 as [| e t1]; cbn in H.
    + injection H as _ _ -> _. exists [], cs. split; reflexivity.
    + injection H as <- H. destruct (IH t1 H) as (l1 & l2 & -> & ->).
      exists (c :: l1), l2. split; reflexivity.
Qed.

Lemma releases_live t fn arg pre post :
  NoDup (pre ++ post) ->
  (forall x, x ∈ pre ++ post -> is_Some (live_blocks t !! x)) ->
  frees_live t (map (EvFree fn arg) pre).
Proof.
  intros Hnd Hlive t1 fn' arg' p t2 H.
  apply map_free_split in H as (l1 & l2 & -> & ->).
  rewrite live_blocks_frees.
  - apply Hlive. apply elem_of_app. left. apply elem_of_app. right.
    apply elem_of_cons. auto.
  - apply NoDup_app in Hnd as (Hnd & _).
    apply NoDup_app in Hnd as (_ & Hd & _).
    intros Hin. apply (Hd p Hin), elem_of_cons. auto.
Qed.

Lemma migration_live h t evs :
  migration_calls h evs -> is_Some (live_blocks t !! chunk h) ->
  frees_live t evs.
Proof.
  intros [-> | (size & ret & _ & [-> | [Hret ->]])] Hlive
    t1 fn arg p t2 H.
  - destruct t1; discriminate.
  - destruct t1 as [| e [| e' t1]]; discriminate.
  - destruct t1 as [| e [| e' t1]]; try discriminate.
    + injection H as <- <- <- <-.
      rewrite live_blocks_snoc. cbn [replay].
      apply Z.eqb_neq in Hret. rewrite Hret.
      destruct (decide (ret = chunk h)) as [-> | Hne].
      * rewrite lookup_insert_eq. eauto.
      * rewrite lookup_insert_ne by exact Hne. exact Hlive.
    + destruct t1; discriminate.
Qed.

(** In disciplined use of a stack whose chunk size has room for the
    header of a chunk and the padding of the first object, the free
    function is only given blocks that the allocator gave out and that
    were not given back since: no chunk is freed twice, and nothing is
    freed that the stack did not allocate, whatever the pointer given to
    [free] and however the operation ends. *)
Theorem frees_give_back_live_chunks (h : obstack) (w : world)
    (objs : list (Z * Z)) (o : op) (h' : obstack) (w' : world) :
  reachable h w ->
  history h w objs ->
  final_state (exec o h w) = Some (h', w') ->
  exists evs, trace w' = trace w ++ evs /\ frees_live (trace w) evs.
Proof.
  intros _ Hhist H. apply history_inv in Hhist.
  destruct (stack_inv_chain h w objs Hhist) as (c0 & cs & Hc0 & Hchain & Hlive).
  assert (Hcur : is_Some (live_blocks (trace w) !! chunk h)).
  { apply Hlive. destruct cs as [| x cs'].
    - apply chain_nil_inv in Hchain.
      destruct Hhist as (_ & _ & _ & _ & cs0 & Hcinv).
      destruct (chain_inv_head _ _ _ _ Hcinv) as (_ & _ & _ & Hnz & _).
      contradiction.
    - apply chain_cons_inv in Hchain as (-> & _). apply elem_of_cons. auto. }
  assert (Hfun : forall p h1 w1,
             final_state (_obstack_free h p w) = Some (h1, w1) ->
             exists evs, trace w1 = trace w ++ evs
                         /\ frees_live (trace w) evs).
  { intros p h1 w1 Hf.
    destruct (free_function_chain h p w cs Hchain)
      as (pre & post & h2 & w2 & -> & Ht & Hout).
    assert (E : h1 = h2 /\ w1 = w2)
      by (destruct Hout as [E | E]; rewrite E in Hf; cbn in Hf;
          split; congruence).
    destruct E as [-> ->].
    eexists. split; [exact Ht |].
    apply (releases_live _ _ _ pre post);
      [eapply chain_NoDup; eauto | exact Hlive]. }
  destruct (exec_calls o h w h' w' H) as (_ & evs & Ht & Hshape).
  destruct o; cbn [calls_of_op] in Hshape;
    try (exists evs; split; [exact Ht |];
         apply (migration_live h); assumption);
    unfold exec in H; rewrite final_state_no_value in H.
  - unfold obstack_free in H. destruct (_ && _); [| exact (Hfun _ _ _ H)].
    injection H as <- <-. exists []. split; [rewrite app_nil_r; reflexivity |].
    intros t1 fn arg p t2 E. destruct t1; discriminate.
  - exact (Hfun _ _ _ H).
Qed.

Lemma frees_give_back_live_chunks_witness :
  exists h' w' evs,
    exec (Alloc 30) text_stack text_world = Return (Some 3016) h' w'
    /\ trace w' = trace text_world ++ evs
    /\ frees_live (trace text_world) evs.
Proof.
  destruct (frees_give_back_live_chunks text_stack text_world [] (Alloc 30)
              (mk_obstack 40 3000 3048 3048 3137 0 7 1 2 0 false false false)
              (mk_world {[3000 := mk_chunk 3137 0]} (mem text_world) []
                 (trace text_world
                  ++ [EvAlloc 1 None 137 3000; EvFree 2 None 2000])))
    as (evs & Ht & Hlive).
  - exact text_reachable.
  - exact text_history.
  - vm_compute. reflexivity.
  - eexists _, _, evs. split; [vm_compute; reflexivity |].
    split; [exact Ht | exact Hlive].
Defined.

(** ** An operation that ends in the failure handler *)

Lemma newchunk_failed_call h len w h' w' :
  _obstack_newchunk h len w = AllocFailed h' w' ->
  w' = w
  \/ exists size,
       chunk_size h <= size /\ hd 0 (oracle w) = 0
       /\ trace w' = trace w ++ [EvAlloc (chunkfun h) (call_arg h) size 0].
Proof.
  rewrite newchunk_eq. cbv zeta.
  pose proof (newchunk_size_preferred h len) as Hsize.
  destruct (_ && _).
  - unfold call_chunkfun. destruct (hd 0 (oracle w) =? 0) eqn:Hnull.
    + intros [= <- <-]. apply Z.eqb_eq in Hnull. right.
      eexists. split; [exact Hsize |]. split; [exact Hnull |].
      rewrite Hnull. reflexivity.
    + destruct (only_object_of_chunk h); [destruct (_ !! _) |];
        discriminate.
  - cbn [Z.eqb]. intros [= <- <-]. left. reflexivity.
Qed.

Lemma ensure_room_failed_call h len w h' w' :
  (if obstack_room h <? len then _obstack_newchunk h len w
   else Return tt h w) = AllocFailed h' w' ->
  w' = w
  \/ exists size,
       chunk_size h <= size /\ hd 0 (oracle w) = 0
       /\ trace w' = trace w ++ [EvAlloc (chunkfun h) (call_arg h) size 0].
Proof.
  destruct (obstack_room h <? len); [apply newchunk_failed_call | discriminate].
Qed.

Lemma exec_failed_call o h w h' w' :
  exec o h w = AllocFailed h' w' ->
  is_free o = false
  /\ (w' = w
      \/ exists size,
           chunk_size h <= size /\ hd 0 (oracle w) = 0
           /\ trace w' = trace w ++ [EvAlloc (chunkfun h) (call_arg h) size 0]).
Proof.
  destruct o; unfold exec, no_value, value; intros H; split_bind H;
    injection H as <- <-; cbn [is_free].
  - unfold obstack_make_room in Hfirst.
    split; [reflexivity | eapply ensure_room_failed_call, Hfirst].
  - unfold obstack_blank in Hfirst. split_bind Hfirst.
    injection Hfirst as <- <-.
    split; [reflexivity | eapply ensure_room_failed_call; eauto].
  - unfold obstack_1grow in Hfirst. split_bind Hfirst.
    injection Hfirst as <- <-.
    split; [reflexivity | eapply ensure_room_failed_call; eauto].
  - unfold obstack_ptr_grow in Hfirst. split_bind Hfirst.
    injection Hfirst as <- <-.
    split; [reflexivity | eapply ensure_room_failed_call; eauto].
  - unfold obstack_int_grow in Hfirst. split_bind Hfirst.
    injection Hfirst as <- <-.
    split; [reflexivity | eapply ensure_room_failed_call; eauto].
  - unfold obstack_grow in Hfirst. split_bind Hfirst.
    injection Hfirst as <- <-.
    split; [reflexivity | eapply ensure_room_failed_call; eauto].
  - unfold obstack_grow0 in Hfirst. split_bind Hfirst.
    injection Hfirst as <- <-.
    split; [reflexivity | eapply ensure_room_failed_call; eauto].
  - unfold obstack_alloc in Hfirst. split_bind Hfirst.
    injection Hfirst as <- <-.
    unfold obstack_blank in Hfirst0. split_bind Hfirst0.
    injection Hfirst0 as <- <-.
    split; [reflexivity | eapply ensure_room_failed_call; eauto].
  - unfold obstack_copy in Hfirst. split_bind Hfirst.
    injection Hfirst as <- <-.
    unfold obstack_grow in Hfirst0. split_bind Hfirst0.
    injection Hfirst0 as <- <-.
    split; [reflexivity | eapply ensure_room_failed_call; eauto].
  - unfold obstack_copy0 in Hfirst. split_bind Hfirst.
    injection Hfirst as <- <-.
    unfold obstack_grow0 in Hfirst0. split_bind Hfirst0.
    injection Hfirst0 as <- <-.
    split; [reflexivity | eapply ensure_room_failed_call; eauto].
  - unfold obstack_free in Hfirst.
    destruct (_ && _); [discriminate |].
    exfalso. eapply free_function_not_failed, Hfirst.
  - exfalso. eapply free_function_not_failed, Hfirst.
Qed.

(** An operation that ends in the failure handler has done nothing else:
    it is not [free]; the fields of the stack, the chunk headers and
    every byte are as before the operation, also for the operations that
    grow an object and then finish it; and either the size of the chunk
    to ask for wrapped around and the allocator was not called, or it
    was called once, for at least [chunk_size] bytes, and answered with
    the null pointer. *)
Theorem failed_operation_changes_nothing (o : op) (h : obstack) (w : world)
    (h' : obstack) (w' : world) :
  exec o h w = AllocFailed h' w' ->
  is_free o = false
  /\ h' = h /\ hdrs w' = hdrs w /\ mem w' = mem w
  /\ (w' = w
      \/ exists size,
           chunk_size h <= size /\ hd 0 (oracle w) = 0
           /\ trace w' = trace w ++ [EvAlloc (chunkfun h) (call_arg h) size 0]).
Proof.
  intros H.
  destruct (exec_failed_call o h w h' w' H) as [Hop Hcall].
  destruct (exec_failed o h w h' w' H) as (Hh & Hhdrs & Hmem & _).
  auto 6.
Qed.

Lemma failed_operation_changes_nothing_witness :
  exists w',
    exec (Copy0 5000 30) text_stack
      (mk_world (hdrs text_world) (mem text_world) [] (trace text_world))
    = AllocFailed text_stack w'
    /\ hdrs w' = hdrs text_world /\ mem w' = mem text_world.
Proof.
  eexists. split; [vm_compute; reflexivity |].
  edestruct (failed_operation_changes_nothing (Copy0 5000 30) text_stack
               (mk_world (hdrs text_world) (mem text_world) []
                  (trace text_world))) as (_ & _ & H1 & H2 & _).
  - vm_compute. reflexivity.
  - split; [exact H1 | exact H2].
Defined.

(** ** Formatted output that fits the buffer *)

Lemma cursors_set_mem h w m :
  cursors_in_chunk h w -> cursors_in_chunk h (set_mem m w).
Proof. exact (fun H => H). Qed.

(** The text that [vsnprintf] left in the buffer, when it fits. *)
Lemma vsnprintf_fits buf out m :
  Z.of_nat (length out) < sizeof_buf ->
  0 <= buf -> buf + sizeof_buf <= size_modulus ->
  let '(len, m') := vsnprintf buf sizeof_buf out m in
  len = Z.of_nat (length out)
  /\ load_bytes m' buf (length out) = out
  /\ (forall x, ~ (buf <= x < buf + sizeof_buf) ->
                load_byte m' x = load_byte m x).
Proof.
  intros Hfit Hbuf Hend. unfold vsnprintf.
  replace (sizeof_buf =? 0) with false by reflexivity.
  rewrite take_ge by (unfold sizeof_buf in *; lia).
  assert (Hlen : Z.of_nat (length (out ++ [0])) <= sizeof_buf).
  { rewrite length_app. cbn [length]. lia. }
  split; [reflexivity |]. split.
  - pose proof (store_bytes_in (out ++ [0]) m buf Hbuf ltac:(lia)) as Hin.
    rewrite length_app in Hin. cbn [length] in Hin.
    rewrite load_bytes_app in Hin
      by (try exact Hbuf; rewrite length_app in Hlen; cbn [length] in Hlen;
          lia).
    apply app_inj_1 in Hin; [apply Hin |]. apply load_bytes_length.
  - intros x Hx. apply store_bytes_out; [exact Hbuf | lia | lia].
Qed.

Lemma printf_fits h buf out w len h' w' :
  cursors_in_chunk h w ->
  obstack_printf h buf out w = Return len h' w' ->
  sane_allocator w' ->
  Z.of_nat (length out) < sizeof_buf ->
  0 <= buf -> buf + sizeof_buf <= size_modulus ->
  buf + sizeof_buf <= object_base h \/ next_free h <= buf ->
  buf + sizeof_buf <= object_base h' \/ next_free h' <= buf ->
  len = Z.of_nat (length out)
  /\ object_bytes h' w' = object_bytes h w ++ out
  /\ obstack_object_size h' = obstack_object_size h + len
  /\ (forall x, ~ (object_base h' <= x < next_free h') ->
                ~ (buf <= x < buf + sizeof_buf) ->
                load_byte (mem w') x = load_byte (mem w) x).
Proof.
  intros Hinv H Hsane Hfit Hbuf Hend Hold Hnew.
  unfold obstack_printf in H.
  pose proof (vsnprintf_fits buf out (mem w) Hfit Hbuf Hend) as Hv.
  destruct (vsnprintf buf sizeof_buf out (mem w)) as [len0 m'].
  destruct Hv as (-> & Hread & Hout).
  destruct (obstack_grow h buf (Z.of_nat (length out)) (set_mem m' w))
    as [[] h1 w1 | | |] eqn:Hgrow; cbn [bind] in H; try discriminate.
  injection H as <- <- <-.
  assert (Hw : wrap (Z.of_nat (length out)) = Z.of_nat (length out)).
  { apply wrap_small. unfold in_range, sizeof_buf in *.
    rewrite size_modulus_eq. lia. }
  destruct (grow_spec h buf (Z.of_nat (length out)) (set_mem m' w) h1 w1
              (cursors_set_mem h w m' Hinv) Hgrow Hsane)
    as (Hbytes & Hsz & Hframe).
  rewrite Hw in *. rewrite Nat2Z.id in Hbytes.
  destruct (cursors_object_size h w Hinv) as (Hs & Hs0 & Hob & Hnf).
  split; [reflexivity |]. split; [| split; [exact Hsz |]].
  - rewrite Hbytes by (unfold sizeof_buf in *; lia).
    cbn [mem set_mem]. rewrite Hread. f_equal.
    unfold object_bytes. cbn [mem set_mem].
    apply load_bytes_ext; [lia | rewrite Hs; lia |].
    intros x Hx. apply Hout. rewrite Hs in Hx. lia.
  - intros x Hx Hnb. rewrite Hframe by exact Hx. cbn [mem set_mem].
    apply Hout, Hnb.
Qed.

(** When the text fits the buffer of 1024 bytes with its null byte,
    [obstack_printf] and [obstack_vprintf] append the text, without the
    null byte, to the growing object and return its length; besides the
    object they only write the buffer.  The buffer is an array that
    overlaps neither the object as it was nor the object as it is
    after. *)
Theorem printf_appends_text (h : obstack) (buf : Z) (out : list Z) (w : world)
    (len : Z) (h' : obstack) (w' : world) :
  reachable h w ->
  obstack_printf h buf out w = Return len h' w' ->
  sane_allocator w' ->
  Z.of_nat (length out) < sizeof_buf ->
  0 <= buf -> buf + sizeof_buf <= size_modulus ->
  buf + sizeof_buf <= object_base h \/ next_free h <= buf ->
  buf + sizeof_buf <= object_base h' \/ next_free h' <= buf ->
  obstack_vprintf h buf out w = Return len h' w'
  /\ len = Z.of_nat (length out)
  /\ object_bytes h' w' = object_bytes h w ++ out
  /\ obstack_object_size h' = obstack_object_size h + len
  /\ (forall x, ~ (object_base h' <= x < next_free h') ->
                ~ (buf <= x < buf + sizeof_buf) ->
                load_byte (mem w') x = load_byte (mem w) x).
Proof.
  intros Hr H Hsane Hfit Hbuf Hend Hold Hnew.
  split; [exact H |].
  apply (printf_fits h buf out w len h' w'); auto using reachable_cursors.
Qed.

Lemma printf_appends_text_witness :
  exists h' w',
    obstack_printf text_stack 9000 [111; 107] text_world = Return 2 h' w'
    /\ obstack_vprintf text_stack 9000 [111; 107] text_world = Return 2 h' w'
    /\ object_bytes h' w' = object_bytes text_stack text_world ++ [111; 107].
Proof.
  eexists _, _. split; [vm_compute; reflexivity |].
  edestruct (printf_appends_text text_stack 9000 [111; 107] text_world 2)
    as (H1 & _ & H2 & _).
  - exact text_reachable.
  - vm_compute. reflexivity.
  - sane_trace.
  - vm_compute. reflexivity.
  - lia.
  - rewrite size_modulus_eq. vm_compute. discriminate.
  - right. vm_compute. discriminate.
  - right. vm_compute. discriminate.
  - split; [exact H1 | exact H2].
Defined.

(** ** What an operation writes *)

Lemma finish_keeps_chunk h w a h' w' :
  obstack_finish h w = Return a h' w' ->
  a = object_base h /\ w' = w
  /\ chunk h' = chunk h /\ chunk_limit h' = chunk_limit h.
Proof.
  unfold obstack_finish. intros [= <- <- <-].
  destruct (next_free h =? object_base h);
    cbn [chunk_limit chunk next_free set_next_free alignment_mask
         set_maybe_empty_object];
    destruct (_ <? _); auto.
Qed.

Lemma free_loop_mem fuel :
  forall h obj lp w lp' h' w',
    free_loop fuel h obj lp w = Some (Return lp' h' w') -> mem w' = mem w.
Proof.
  induction fuel as [| fuel IH]; intros h obj lp w lp' h' w' H;
    rewrite free_loop_eq in H;
    (destruct (lp =? 0); [injection H as _ _ <-; reflexivity |]);
    (destruct (hdrs w !! lp) as [c |]; [| discriminate]);
    (destruct ((obj <=? lp) || (limit c <? obj));
     [| injection H as _ _ <-; reflexivity]).
  - discriminate.
  - apply IH in H. rewrite H. reflexivity.
Qed.

Lemma free_function_mem h obj w h' w' :
  _obstack_free h obj w = Return tt h' w' -> mem w' = mem w.
Proof.
  unfold _obstack_free.
  destruct (free_loop (base.size (hdrs w)) h obj (chunk h) w) as [o |] eqn:Hloop;
    [| discriminate].
  destruct o as [lp h1 w1 | | |]; cbn [bind]; try discriminate.
  apply free_loop_mem in Hloop. intros H.
  destruct (lp =? 0).
  - destruct (obj =? 0); [| discriminate]. injection H as _ <-. exact Hloop.
  - destruct (hdrs w1 !! lp); [| discriminate]. injection H as _ <-.
    exact Hloop.
Qed.

Lemma free_macro_mem h obj w h' w' :
  obstack_free h obj w = Return tt h' w' -> mem w' = mem w.
Proof.
  unfold obstack_free. destruct (_ && _); [| apply free_function_mem].
  intros [= _ <-]. reflexivity.
Qed.

(** Without a call of the allocator the check for room changes nothing. *)
Lemma ensure_room_same h len w h1 w1 :
  (if obstack_room h <? len then _obstack_newchunk h len w
   else Return tt h w) = Return tt h1 w1 ->
  trace w1 = trace w -> h1 = h /\ w1 = w.
Proof.
  destruct (obstack_room h <? len); [| intros [= <- <-]; auto].
  intros H Ht. exfalso. apply newchunk_return in H. cbv zeta in H.
  destruct H as (_ & _ & _ & _ & _ & Hcase).
  assert (Hnil : forall l : list event, trace w1 = trace w ++ l -> l = []).
  { intros l E. rewrite Ht in E. rewrite <- (app_nil_r (trace w)) in E at 1.
    apply app_inv_head in E. auto. }
  destruct (only_object_of_chunk h).
  - destruct Hcase as (oc & _ & _ & E). apply Hnil in E. discriminate.
  - destruct Hcase as (_ & E). apply Hnil in E. discriminate.
Qed.

(** What the frames of the growth macros have in common. *)
Lemma growth_written (w : world) h' w' :
  cursors_in_chunk h' w' ->
  (forall x, ~ (object_base h' <= x < next_free h') ->
             load_byte (mem w') x = load_byte (mem w) x) ->
  chunk h' <= object_base h' <= chunk_limit h'
  /\ (forall x, ~ (object_base h' <= x < chunk_limit h') ->
                load_byte (mem w') x = load_byte (mem w) x).
Proof.
  intros (_ & _ & _ & Hcob & [Hob Hnf] & _) Hframe.
  split; [lia |]. intros x Hx. apply Hframe. lia.
Qed.

(** An address returned by [finish] after a growth. *)
Lemma finished_written (w : world) h0 w0 a h' w' :
  cursors_in_chunk h0 w0 ->
  (forall x, ~ (object_base h0 <= x < next_free h0) ->
             load_byte (mem w0) x = load_byte (mem w) x) ->
  obstack_finish h0 w0 = Return a h' w' ->
  chunk h' <= a <= chunk_limit h'
  /\ (forall x, ~ (a <= x < chunk_limit h') ->
                load_byte (mem w') x = load_byte (mem w) x).
Proof.
  intros Hinv0 Hframe Hfin.
  apply finish_keeps_chunk in Hfin as (-> & -> & -> & ->).
  apply (growth_written w h0 w0 Hinv0 Hframe).
Qed.

Lemma exec_written o h w r h' w' :
  cursors_in_chunk h w ->
  exec o h w = Return r h' w' ->
  sane_allocator w' ->
  length_fits o ->
  chunk h' <= written_from r h' <= chunk_limit h'
  /\ (forall x, ~ (written_from r h' <= x < chunk_limit h') ->
                load_byte (mem w') x = load_byte (mem w) x).
Proof.
  intros Hinv H Hsane Hfits.
  pose proof (exec_cursors o h w r h' w' Hinv H Hsane) as Hinv'.
  assert (Hstep : forall k len h1 w1 bs,
             in_range len -> Z.of_nat (length bs) <= len ->
             (if obstack_room h <? len then _obstack_newchunk h len w
              else Return tt h w) = Return tt h1 w1 ->
             sane_allocator w1 ->
             k = Z.of_nat (length bs) ->
             forall x,
               ~ (object_base h1 <= x < wrap (next_free h1 + k)) ->
               load_byte (store_bytes (mem w1) (next_free h1) bs) x
               = load_byte (mem w) x).
  { intros k len h1 w1 bs Hlen Hbs Hroom Hs1 -> x Hx.
    pose proof (growth_appends h len w h1 w1 bs Hinv Hlen Hroom Hs1 Hbs) as G.
    cbv zeta in G. destruct G as (_ & _ & _ & Hframe & _).
    apply Hframe. exact Hx. }
  destruct o; unfold exec, no_value, value in H; split_bind H;
    injection H as <- <- <-;
    try match goal with a : unit |- _ => destruct a end;
    cbn [written_from].
  - unfold obstack_make_room in Hfirst.
    apply (growth_written w _ _ Hinv').
    eapply ensure_room_object; eauto using wrap_range.
  - apply (growth_written w _ _ Hinv').
    destruct (blank_spec _ _ _ _ _ Hinv Hfirst Hsane)
      as (Hsz & _ & Hframe & _).
    destruct (cursors_object_size h w Hinv) as (_ & Hs0 & _).
    destruct (cursors_object_size _ _ Hinv') as (Hs' & _).
    pose proof (wrap_range length) as Hn. unfold in_range in Hn.
    intros x Hx. apply Hframe. lia.
  - apply (growth_written w _ _ Hinv').
    unfold obstack_1grow, obstack_1grow_fast in Hfirst.
    after_room Hfirst. injection Hfirst as <- <-.
    intros x Hx.
    match type of Hroom with
    | _ = Return tt ?h1 ?w1 =>
        exact (Hstep 1 1 h1 w1 [Z.land datum 255]
                 ltac:(unfold in_range; rewrite size_modulus_eq; lia)
                 ltac:(cbn [length]; lia) Hroom Hsane eq_refl x Hx)
    end.
  - apply (growth_written w _ _ Hinv').
    unfold obstack_ptr_grow, obstack_ptr_grow_fast in Hfirst.
    after_room Hfirst. injection Hfirst as <- <-.
    intros x Hx.
    match type of Hroom with
    | _ = Return tt ?h1 ?w1 =>
        exact (Hstep sizeof_void_p sizeof_void_p h1 w1
                 (encode_le (Z.to_nat sizeof_void_p) datum)
                 ltac:(unfold in_range, sizeof_void_p;
                       rewrite size_modulus_eq; lia)
                 ltac:(rewrite encode_le_length; reflexivity) Hroom Hsane
                 ltac:(rewrite encode_le_length; reflexivity) x Hx)
    end.
  - apply (growth_written w _ _ Hinv').
    unfold obstack_int_grow, obstack_int_grow_fast in Hfirst.
    after_room Hfirst. injection Hfirst as <- <-.
    intros x Hx.
    match type of Hroom with
    | _ = Return tt ?h1 ?w1 =>
        exact (Hstep sizeof_int sizeof_int h1 w1
                 (encode_le (Z.to_nat sizeof_int) datum)
                 ltac:(unfold in_range, sizeof_int;
                       rewrite size_modulus_eq; lia)
                 ltac:(rewrite encode_le_length; reflexivity) Hroom Hsane
                 ltac:(rewrite encode_le_length; reflexivity) x Hx)
    end.
  - apply (growth_written w _ _ Hinv').
    eapply grow_spec; eauto.
  - apply (growth_written w _ _ Hinv').
    eapply grow0_spec; eauto.
  - apply finish_keeps_chunk in Hfirst as (-> & -> & Hc & Hl).
    rewrite Hc, Hl. destruct Hinv as (_ & _ & _ & Hcob & [Hob Hnf] & _).
    split; [lia | reflexivity].
  - unfold obstack_alloc in Hfirst. split_bind Hfirst.
    match goal with a : unit |- _ => destruct a end.
    match type of Hfirst with
    | obstack_finish ?hm ?wm = Return _ _ ?wf =>
        assert (Hw : wf = wm)
          by (unfold obstack_finish in Hfirst; congruence);
        subst wm;
        pose proof (blank_cursors _ _ _ _ _ Hinv Hfirst0 Hsane) as Hinv0;
        eapply (finished_written w hm wf); [exact Hinv0 | | exact Hfirst];
        destruct (blank_spec _ _ _ _ _ Hinv Hfirst0 Hsane)
          as (Hsz & _ & Hframe & _);
        destruct (cursors_object_size h w Hinv) as (_ & Hs0 & _);
        destruct (cursors_object_size _ _ Hinv0) as (Hs' & _)
    end.
    pose proof (wrap_range length) as Hn. unfold in_range in Hn.
    intros x Hx. apply Hframe. lia.
  - unfold obstack_copy in Hfirst. split_bind Hfirst.
    match goal with a : unit |- _ => destruct a end.
    match type of Hfirst with
    | obstack_finish ?hm ?wm = Return _ _ ?wf =>
        assert (Hw : wf = wm)
          by (unfold obstack_finish in Hfirst; congruence);
        subst wm;
        pose proof (grow_cursors _ _ _ _ _ _ Hinv Hfirst0 Hsane) as Hinv0;
        eapply (finished_written w hm wf); [exact Hinv0 | | exact Hfirst]
    end.
    eapply grow_spec; eauto.
  - unfold obstack_copy0 in Hfirst. split_bind Hfirst.
    match goal with a : unit |- _ => destruct a end.
    match type of Hfirst with
    | obstack_finish ?hm ?wm = Return _ _ ?wf =>
        assert (Hw : wf = wm)
          by (unfold obstack_finish in Hfirst; congruence);
        subst wm;
        pose proof (grow0_cursors _ _ _ _ _ _ Hinv Hfirst0 Hsane) as Hinv0;
        eapply (finished_written w hm wf); [exact Hinv0 | | exact Hfirst]
    end.
    eapply grow0_spec; eauto.
  - apply free_macro_mem in Hfirst. rewrite Hfirst.
    destruct Hinv' as (_ & _ & _ & Hcob & [Hob Hnf] & _).
    split; [lia | reflexivity].
  - apply free_function_mem in Hfirst. rewrite Hfirst.
    destruct Hinv' as (_ & _ & _ & Hcob & [Hob Hnf] & _).
    split; [lia | reflexivity].
Qed.

Lemma ensure_room_moved h len w h1 w1 :
  (if obstack_room h <? len then _obstack_newchunk h len w
   else Return tt h w) = Return tt h1 w1 ->
  stayed_or_moved h w None h1 w1.
Proof.
  destruct (obstack_room h <? len).
  - intros H. right. apply newchunk_return in H. cbv zeta in H.
    destruct H as (Hnc & _ & -> & _ & _ & Hcase). cbn [chunk chunk_limit
      set_maybe_empty_object set_next_free set_object_base set_chunk_limit
      set_chunk].
    destruct (only_object_of_chunk h).
    + destruct Hcase as (oc & _ & _ & ->). eexists _, _.
      split; [reflexivity |]. split; [apply newchunk_size_preferred |].
      split; [exact Hnc | reflexivity].
    + destruct Hcase as (_ & ->). eexists _, _.
      split; [reflexivity |]. split; [apply newchunk_size_preferred |].
      split; [exact Hnc | reflexivity].
  - intros [= <- <-]. left. cbn [written_from]. auto.
Qed.

(** A step that calls nothing and keeps the chunk and the start of the
    object, after a step that stayed or moved. *)
Lemma stayed_or_moved_step h w h1 w1 r h' w' :
  stayed_or_moved h w None h1 w1 ->
  trace w' = trace w1 -> chunk h' = chunk h1 ->
  chunk_limit h' = chunk_limit h1 ->
  written_from r h' = object_base h1 ->
  stayed_or_moved h w r h' w'.
Proof.
  intros [(Ht & Hc & Hl & Hb) | (size & rest & Ht & Hsz & Hnz & Hl)]
    Ht' Hc' Hl' Hb'.
  - left. cbn [written_from] in Hb. rewrite Ht', Hc', Hl', Hb'. auto.
  - right. exists size, rest. rewrite Ht', Hc', Hl'. auto.
Qed.

Lemma growth_moved h len w (k : unit -> obstack -> world -> outcome unit)
    h' w' :
  (forall u h1 w1 h2 w2,
      k u h1 w1 = Return tt h2 w2 ->
      trace w2 = trace w1 /\ chunk h2 = chunk h1
      /\ chunk_limit h2 = chunk_limit h1 /\ object_base h2 = object_base h1) ->
  bind (if obstack_room h <? len then _obstack_newchunk h len w
        else Return tt h w) k = Return tt h' w' ->
  stayed_or_moved h w None h' w'.
Proof.
  intros Hk H. after_room H.
  destruct (Hk _ _ _ _ _ H) as (Ht & Hc & Hl & Hb).
  eapply stayed_or_moved_step; eauto using ensure_room_moved.
Qed.

Ltac plain_step :=
  intros [] ? ? ? ? [= <- <-]; cbn; auto.

Lemma blank_moved h n w h' w' :
  obstack_blank h n w = Return tt h' w' -> stayed_or_moved h w None h' w'.
Proof.
  unfold obstack_blank, obstack_blank_fast. apply growth_moved. plain_step.
Qed.

Lemma grow_moved h p n w h' w' :
  obstack_grow h p n w = Return tt h' w' -> stayed_or_moved h w None h' w'.
Proof. unfold obstack_grow. apply growth_moved. plain_step. Qed.

Lemma grow0_moved h p n w h' w' :
  obstack_grow0 h p n w = Return tt h' w' -> stayed_or_moved h w None h' w'.
Proof. unfold obstack_grow0. apply growth_moved. plain_step. Qed.

Lemma then_finish_moved h w h0 w0 a h' w' :
  stayed_or_moved h w None h0 w0 ->
  obstack_finish h0 w0 = Return a h' w' ->
  stayed_or_moved h w (Some a) h' w'.
Proof.
  intros Hm Hfin. apply finish_keeps_chunk in Hfin as (-> & -> & Hc & Hl).
  eapply stayed_or_moved_step; eauto.
Qed.

Lemma exec_moved o h w r h' w' :
  is_free o = false ->
  exec o h w = Return r h' w' ->
  stayed_or_moved h w r h' w'.
Proof.
  intros Hnf H.
  destruct o; try discriminate; unfold exec, no_value, value in H;
    split_bind H; injection H as <- <- <-;
    try match goal with a : unit |- _ => destruct a end.
  - unfold obstack_make_room in Hfirst. eapply ensure_room_moved, Hfirst.
  - eapply blank_moved, Hfirst.
  - unfold obstack_1grow, obstack_1grow_fast in Hfirst.
    eapply growth_moved; [| exact Hfirst]. plain_step.
  - unfold obstack_ptr_grow, obstack_ptr_grow_fast in Hfirst.
    eapply growth_moved; [| exact Hfirst]. plain_step.
  - unfold obstack_int_grow, obstack_int_grow_fast in Hfirst.
    eapply growth_moved; [| exact Hfirst]. plain_step.
  - eapply grow_moved, Hfirst.
  - eapply grow0_moved, Hfirst.
  - eapply then_finish_moved; [| exact Hfirst].
    left. cbn [written_from]. auto.
  - unfold obstack_alloc in Hfirst. split_bind Hfirst.
    match goal with a : unit |- _ => destruct a end.
    eapply then_finish_moved; [| exact Hfirst]. eapply blank_moved, Hfirst0.
  - unfold obstack_copy in Hfirst. split_bind Hfirst.
    match goal with a : unit |- _ => destruct a end.
    eapply then_finish_moved; [| exact Hfirst]. eapply grow_moved, Hfirst0.
  - unfold obstack_copy0 in Hfirst. split_bind Hfirst.
    match goal with a : unit |- _ => destruct a end.
    eapply then_finish_moved; [| exact Hfirst]. eapply grow0_moved, Hfirst0.
Qed.

Lemma free_mem o h w r h' w' :
  is_free o = true -> exec o h w = Return r h' w' -> mem w' = mem w.
Proof.
  intros Hf H.
  destruct o; try discriminate; unfold exec, no_value in H;
    split_bind H; injection H as <- <- <-;
    match goal with a : unit |- _ => destruct a end.
  - eapply free_macro_mem, Hfirst.
  - eapply free_function_mem, Hfirst.
Qed.

(** An operation that returns changes no byte below the start of the
    object that it worked on (the object that it returned or, when it
    returned none, the growing object) nor outside the chunk that is
    current after it: whatever was finished before keeps its bytes.
    [free] changes no byte at all.  Any other operation either called
    nothing, and the object is where it was, in the same chunk, or it
    obtained the chunk that is now current from the allocator. *)
Theorem operations_write_above_object (h : obstack) (w : world) (o : op)
    (r : option Z) (h' : obstack) (w' : world) :
  reachable h w ->
  exec o h w = Return r h' w' ->
  sane_allocator w' ->
  length_fits o ->
  chunk h' <= written_from r h' <= chunk_limit h'
  /\ (forall x, ~ (written_from r h' <= x < chunk_limit h') ->
                load_byte (mem w') x = load_byte (mem w) x)
  /\ (is_free o = true -> mem w' = mem w)
  /\ (is_free o = false -> stayed_or_moved h w r h' w').
Proof.
  intros Hr H Hsane Hfits. apply reachable_cursors in Hr.
  destruct (exec_written o h w r h' w' Hr H Hsane Hfits) as [Hb Hframe].
  split; [exact Hb |]. split; [exact Hframe |].
  split; [intros Hf; eapply free_mem; eauto |].
  intros Hf. eapply exec_moved; eauto.
Qed.

Lemma operations_write_above_object_witness :
  exists h' w',
    exec (Copy0 5000 3) text_stack text_world = Return (Some 2016) h' w'
    /\ chunk h' <= 2016 <= chunk_limit h'
    /\ (forall x, ~ (2016 <= x < chunk_limit h') ->
                  load_byte (mem w') x = load_byte (mem text_world) x).
Proof.
  eexists _, _. split; [vm_compute; reflexivity |].
  edestruct (operations_write_above_object text_stack text_world
               (Copy0 5000 3) (Some 2016)) as (H1 & H2 & _).
  - exact text_reachable.
  - vm_compute. reflexivity.
  - sane_trace.
  - cbn. rewrite size_modulus_eq. vm_compute. reflexivity.
  - split; [exact H1 | exact H2].
Defined.



(** ** The two sets of macros agree *)

Lemma with_temp_twice {A : Type} t t' (m : outcome A) :
  with_temp t (with_temp t' m) = with_temp t m.
Proof. destruct m; reflexivity. Qed.

Lemma with_temp_no_value t (m : outcome unit) :
  no_value (with_temp t m) = with_temp t (no_value m).
Proof. destruct m; reflexivity. Qed.

Lemma with_temp_value t (m : outcome Z) :
  value (with_temp t m) = with_temp t (value m).
Proof. destruct m; reflexivity. Qed.

(** [_obstack_newchunk] and [_obstack_free] read [temp] nowhere. *)
Lemma newchunk_temp t h len w :
  _obstack_newchunk (set_temp t h) len w
  = with_temp t (_obstack_newchunk h len w).
Proof.
  rewrite !newchunk_eq. cbv zeta.
  change (obstack_object_size (set_temp t h)) with (obstack_object_size h).
  change (alignment_mask (set_temp t h)) with (alignment_mask h).
  change (newchunk_size (set_temp t h) len) with (newchunk_size h len).
  change (only_object_of_chunk (set_temp t h)) with (only_object_of_chunk h).
  change (call_chunkfun (set_temp t h)) with (call_chunkfun h).
  destruct (_ && _).
  - destruct (call_chunkfun h (newchunk_size h len) w) as [nc w1].
    destruct (nc =? 0); [reflexivity |].
    destruct (only_object_of_chunk h); [| reflexivity].
    change (chunk (set_temp t h)) with (chunk h).
    destruct (hdrs _ !! chunk h); reflexivity.
  - reflexivity.
Qed.

Lemma free_loop_temp t fuel :
  forall h obj lp w,
    free_loop fuel (set_temp t h) obj lp w
    = option_map (with_temp t) (free_loop fuel h obj lp w).
Proof.
  induction fuel as [| fuel IH]; intros h obj lp w;
    rewrite !free_loop_eq;
    (destruct (lp =? 0); [reflexivity |]);
    (destruct (hdrs w !! lp) as [c |]; [| reflexivity]);
    (destruct ((obj <=? lp) || (limit c <? obj)); [| reflexivity]).
  - reflexivity.
  - apply (IH (set_maybe_empty_object true h)).
Qed.

Lemma free_function_temp t h obj w :
  _obstack_free (set_temp t h) obj w = with_temp t (_obstack_free h obj w).
Proof.
  unfold _obstack_free. change (chunk (set_temp t h)) with (chunk h).
  rewrite free_loop_temp.
  destruct (free_loop (base.size (hdrs w)) h obj (chunk h) w) as [o |];
    [| reflexivity].
  destruct o as [lp h1 w1 | | |]; cbn [option_map with_temp bind];
    try reflexivity.
  destruct (lp =? 0); [destruct (obj =? 0); reflexivity |].
  destruct (hdrs w1 !! lp); reflexivity.
Qed.

Lemma finish_temp t h w :
  obstack_finish (set_temp t h) w = with_temp t (obstack_finish h w).
Proof.
  unfold obstack_finish. cbn [with_temp].
  change (next_free (set_temp t h)) with (next_free h).
  change (object_base (set_temp t h)) with (object_base h).
  destruct (next_free h =? object_base h); cbn; destruct (_ <? _); reflexivity.
Qed.

(** The check for room and a continuation that reads [temp] nowhere. *)
Lemma ensure_room_temp {A : Type} t h len w
    (k : unit -> obstack -> world -> outcome A) :
  (forall u h1 w1, k u (set_temp t h1) w1 = with_temp t (k u h1 w1)) ->
  bind (if obstack_room (set_temp t h) <? len
        then _obstack_newchunk (set_temp t h) len w
        else Return tt (set_temp t h) w) k
  = with_temp t
      (bind (if obstack_room h <? len then _obstack_newchunk h len w
             else Return tt h w) k).
Proof.
  intros Hk. change (obstack_room (set_temp t h)) with (obstack_room h).
  destruct (obstack_room h <? len); [| cbn [bind]; apply Hk].
  rewrite newchunk_temp.
  destruct (_obstack_newchunk h len w); cbn [bind with_temp];
    [apply Hk | reflexivity..].
Qed.

Lemma portable_make_room h n w :
  Portable.obstack_make_room h n w
  = with_temp (wrap n) (obstack_make_room h n w).
Proof.
  unfold Portable.obstack_make_room, obstack_make_room. cbv zeta.
  change (temp (set_temp (wrap n) h)) with (wrap n).
  change (Portable.obstack_room (set_temp (wrap n) h)) with (obstack_room h).
  destruct (obstack_room h <? wrap n); [apply newchunk_temp | reflexivity].
Qed.

Lemma newchunk_keeps_temp h len w h' w' :
  _obstack_newchunk h len w = Return tt h' w' -> temp h' = temp h.
Proof.
  intros H. apply newchunk_return in H. cbv zeta in H.
  destruct H as (_ & _ & -> & _). reflexivity.
Qed.

Lemma ensure_room_keeps_temp h len w h' w' :
  (if obstack_room h <? len then _obstack_newchunk h len w
   else Return tt h w) = Return tt h' w' -> temp h' = temp h.
Proof.
  destruct (_ <? _); [apply newchunk_keeps_temp | intros [= <- <-]; reflexivity].
Qed.

(** A growth macro of the second set, whose continuation reads the length
    in [temp], is the macro of the first set with the length left in
    [temp]. *)
Lemma portable_growth {A : Type} h t len w
    (k k' : unit -> obstack -> world -> outcome A) :
  (forall u h1 w1, temp h1 = t -> k' u h1 w1 = k u h1 w1) ->
  (forall u h1 w1, k u (set_temp t h1) w1 = with_temp t (k u h1 w1)) ->
  bind (if obstack_room (set_temp t h) <? len
        then _obstack_newchunk (set_temp t h) len w
        else Return tt (set_temp t h) w) k'
  = with_temp t
      (bind (if obstack_room h <? len then _obstack_newchunk h len w
             else Return tt h w) k).
Proof.
  intros Hsame Hk. rewrite <- (ensure_room_temp t h len w k Hk).
  destruct (if obstack_room (set_temp t h) <? len
            then _obstack_newchunk (set_temp t h) len w
            else Return tt (set_temp t h) w) as [[] h1 w1 | | |] eqn:Hroom;
    cbn [bind]; try reflexivity.
  apply Hsame. apply ensure_room_keeps_temp in Hroom. exact Hroom.
Qed.

Lemma portable_blank h n w :
  Portable.obstack_blank h n w = with_temp (wrap n) (obstack_blank h n w).
Proof.
  unfold Portable.obstack_blank, obstack_blank. cbv zeta.
  change (temp (set_temp (wrap n) h)) with (wrap n).
  apply (portable_growth h (wrap n) (wrap n) w).
  - intros u h1 w1 <-. reflexivity.
  - intros u h1 w1. reflexivity.
Qed.

Lemma portable_grow h p n w :
  Portable.obstack_grow h p n w = with_temp (wrap n) (obstack_grow h p n w).
Proof.
  unfold Portable.obstack_grow, obstack_grow. cbv zeta.
  change (temp (set_temp (wrap n) h)) with (wrap n).
  apply (portable_growth h (wrap n) (wrap n) w).
  - intros u h1 w1 <-. reflexivity.
  - intros u h1 w1. reflexivity.
Qed.

Lemma portable_grow0 h p n w :
  Portable.obstack_grow0 h p n w = with_temp (wrap n) (obstack_grow0 h p n w).
Proof.
  unfold Portable.obstack_grow0, obstack_grow0. cbv zeta.
  change (temp (set_temp (wrap n) h)) with (wrap n).
  apply (portable_growth h (wrap n) (wrap (wrap n + 1)) w).
  - intros u h1 w1 <-. reflexivity.
  - intros u h1 w1. reflexivity.
Qed.

Lemma portable_finish h w :
  Portable.obstack_finish h w = with_temp (object_base h) (obstack_finish h w).
Proof.
  unfold Portable.obstack_finish, obstack_finish. cbn [with_temp].
  destruct (next_free h =? object_base h); cbn; destruct (_ <? _); reflexivity.
Qed.

Lemma portable_free h obj w :
  Portable.obstack_free h obj w = with_temp obj (obstack_free h obj w).
Proof.
  unfold Portable.obstack_free, obstack_free. cbv zeta.
  change (temp (set_temp obj h)) with obj.
  change (chunk (set_temp obj h)) with (chunk h).
  change (chunk_limit (set_temp obj h)) with (chunk_limit h).
  destruct (_ && _); [reflexivity | apply free_function_temp].
Qed.

(** The store one element below the moved pointer goes where the pointer
    was. *)
Lemma wrap_back a k : in_range a -> wrap (wrap (a + k) - k) = a.
Proof.
  intros Ha. unfold wrap. rewrite Zminus_mod_idemp_l.
  replace (a + k - k) with a by lia. apply Z.mod_small. exact Ha.
Qed.

Lemma ensure_room_pointer h len w h1 w1 :
  in_range (next_free h) ->
  (if obstack_room h <? len then _obstack_newchunk h len w
   else Return tt h w) = Return tt h1 w1 ->
  in_range (next_free h1).
Proof.
  intros Hnf. destruct (_ <? _); [| intros [= <- <-]; exact Hnf].
  intros H. apply newchunk_return in H. cbv zeta in H.
  destruct H as (_ & _ & -> & _). cbn. apply wrap_range.
Qed.

Lemma portable_ptr_grow h d w :
  in_range (next_free h) ->
  Portable.obstack_ptr_grow h d w = obstack_ptr_grow h d w.
Proof.
  intros Hnf. unfold Portable.obstack_ptr_grow, obstack_ptr_grow.
  change (Portable.obstack_room h) with (obstack_room h).
  destruct (if obstack_room h <? sizeof_void_p
            then _obstack_newchunk h sizeof_void_p w
            else Return tt h w) as [[] h1 w1 | | |] eqn:Hroom;
    cbn [bind]; try reflexivity.
  apply ensure_room_pointer in Hroom; [| exact Hnf].
  unfold Portable.obstack_ptr_grow_fast, obstack_ptr_grow_fast.
  cbn [next_free set_next_free]. rewrite wrap_back by exact Hroom.
  reflexivity.
Qed.

Lemma portable_int_grow h d w :
  in_range (next_free h) ->
  Portable.obstack_int_grow h d w = obstack_int_grow h d w.
Proof.
  intros Hnf. unfold Portable.obstack_int_grow, obstack_int_grow.
  change (Portable.obstack_room h) with (obstack_room h).
  destruct (if obstack_room h <? sizeof_int
            then _obstack_newchunk h sizeof_int w
            else Return tt h w) as [[] h1 w1 | | |] eqn:Hroom;
    cbn [bind]; try reflexivity.
  apply ensure_room_pointer in Hroom; [| exact Hnf].
  unfold Portable.obstack_int_grow_fast, obstack_int_grow_fast.
  cbn [next_free set_next_free]. rewrite wrap_back by exact Hroom.
  reflexivity.
Qed.

(** A growth of the second set, then its [finish]. *)
Lemma portable_then_finish t (m : outcome unit) :
  with_temp 0
    (bind (with_temp t m) (fun _ h w => Portable.obstack_finish h w))
  = with_temp 0 (bind m (fun _ h w => obstack_finish h w)).
Proof.
  destruct m as [[] h1 w1 | | |]; cbn [with_temp bind]; try reflexivity.
  rewrite portable_finish, finish_temp, !with_temp_twice. reflexivity.
Qed.

(** The macros for compilers other than GNU C do what the macros for GNU
    C do, on every stack whose [next_free] is a pointer: they return the
    same value, or end in the same way, with the same memory, the same
    chunks, the same calls of the chunk functions and the same stack but
    for its [temp] member, in which they leave the length or the pointer
    they were given. *)
Theorem portable_macros_agree (o : op) (h : obstack) (w : world) :
  in_range (next_free h) ->
  with_temp 0 (Portable.exec o h w) = with_temp 0 (exec o h w).
Proof.
  intros Hnf. destruct o; unfold Portable.exec, exec.
  - rewrite portable_make_room, with_temp_no_value, with_temp_twice.
    reflexivity.
  - rewrite portable_blank, with_temp_no_value, with_temp_twice. reflexivity.
  - reflexivity.
  - rewrite portable_ptr_grow by exact Hnf. reflexivity.
  - rewrite portable_int_grow by exact Hnf. reflexivity.
  - rewrite portable_grow, with_temp_no_value, with_temp_twice. reflexivity.
  - rewrite portable_grow0, with_temp_no_value, with_temp_twice. reflexivity.
  - rewrite portable_finish, with_temp_value, with_temp_twice. reflexivity.
  - unfold Portable.obstack_alloc, obstack_alloc.
    rewrite portable_blank, <- !with_temp_value, portable_then_finish.
    reflexivity.
  - unfold Portable.obstack_copy, obstack_copy.
    rewrite portable_grow, <- !with_temp_value, portable_then_finish.
    reflexivity.
  - unfold Portable.obstack_copy0, obstack_copy0.
    rewrite portable_grow0, <- !with_temp_value, portable_then_finish.
    reflexivity.
  - rewrite portable_free, with_temp_no_value, with_temp_twice. reflexivity.
  - reflexivity.
Qed.

Lemma portable_macros_agree_witness :
  with_temp 0 (Portable.exec (Copy0 5000 30) text_stack text_world)
  = with_temp 0 (exec (Copy0 5000 30) text_stack text_world)
  /\ Portable.obstack_copy0 text_stack 5000 30 text_world
     <> obstack_copy0 text_stack 5000 30 text_world.
Proof.
  split.
  - apply (portable_macros_agree (Copy0 5000 30) text_stack text_world).
    unfold in_range. rewrite size_modulus_eq. cbn. lia.
  - vm_compute. discriminate.
Defined.
